(** * Portfolio build script: the minimal YAML parser and the page generator

    A shallow embedding of [build.py].  Python strings are lists of Unicode
    code points, Python values produced by the parser are the inductive
    [Value], dictionaries are insertion-ordered association lists that are
    overwritten in place, and the [while] loops of the parser are recursive
    functions over a fuel counter whose sufficiency is proved below.  The
    parser is given twice: as it computes when calls may nest without bound,
    and under Python's recursion limit, as a count of the calls that may
    still be nested. *)

From Stdlib Require Import String Ascii DecimalString.
From Stdlib Require Import List NArith ZArith Lia Bool.
Import ListNotations.

Local Open Scope Z_scope.

(** ** Strings *)

Definition char := N.
Definition str := list char.

(** A string literal of the source, as its code points. *)
Definition lit (s : string) : str := map N_of_ascii (list_ascii_of_string s).

Fixpoint str_eqb (a b : str) : bool :=
  match a, b with
  | [], [] => true
  | x :: a', y :: b' => N.eqb x y && str_eqb a' b'
  | _, _ => false
  end.

Definition is_empty (s : str) : bool :=
  match s with [] => true | _ => false end.

(** The characters [str.strip()] removes and the regular expression class
    [\s] matches: Python's Unicode white space. *)
Definition is_space (c : char) : bool :=
  ((9 <=? c) && (c <=? 13) || (28 <=? c) && (c <=? 32) ||
   (c =? 133) || (c =? 160) || (c =? 5760) ||
   (8192 <=? c) && (c <=? 8202) || (c =? 8232) || (c =? 8233) ||
   (c =? 8239) || (c =? 8287) || (c =? 12288))%N.

Fixpoint drop_while (p : char -> bool) (s : str) : str :=
  match s with
  | [] => []
  | c :: s' => if p c then drop_while p s' else s
  end.

Fixpoint take_while (p : char -> bool) (s : str) : str :=
  match s with
  | [] => []
  | c :: s' => if p c then c :: take_while p s' else []
  end.

Definition lstrip (s : str) : str := drop_while is_space s.
Definition rstrip (s : str) : str := rev (drop_while is_space (rev s)).
Definition strip (s : str) : str := rstrip (lstrip s).

Fixpoint startswith (prefix s : str) : bool :=
  match prefix, s with
  | [], _ => true
  | p :: prefix', c :: s' => N.eqb p c && startswith prefix' s'
  | _ :: _, [] => false
  end.

Definition endswith (suffix s : str) : bool :=
  startswith (rev suffix) (rev s).

(** [val[1:-1]] *)
Definition slice_1_m1 (s : str) : str := removelast (tl s).

(** [text.split('\n')] *)
Fixpoint split_nl_aux (cur : str) (s : str) : list str :=
  match s with
  | [] => [rev cur]
  | c :: s' =>
      if N.eqb c 10 then rev cur :: split_nl_aux [] s'
      else split_nl_aux (c :: cur) s'
  end.

Definition split_nl (text : str) : list str := split_nl_aux [] text.

(** ** Values *)

#[local] Set Warnings "-register-all".

Inductive Value : Type :=
| VNull : Value
| VBool : bool -> Value
| VStr : str -> Value
| VSeq : list Value -> Value
| VMap : list (str * Value) -> Value.

Definition dict := list (str * Value).

(** [d[k] = v]: an existing key keeps its place and gets the new value, a
    new key goes to the end. *)
Fixpoint dict_set (k : str) (v : Value) (d : dict) : dict :=
  match d with
  | [] => [(k, v)]
  | (k', v') :: d' =>
      if str_eqb k' k then (k', v) :: d' else (k', v') :: dict_set k v d'
  end.

Fixpoint dict_get (k : str) (d : dict) : option Value :=
  match d with
  | [] => None
  | (k', v') :: d' => if str_eqb k' k then Some v' else dict_get k d'
  end.

Definition is_map (v : Value) : Prop := exists m, v = VMap m.
Definition is_seq (v : Value) : Prop := exists l, v = VSeq l.

(** ** Option plumbing for the fuel-indexed functions *)

Definition bind {A B : Type} (x : option A) (f : A -> option B) : option B :=
  match x with
  | Some a => f a
  | None => None
  end.

Notation "x <- c ;; k" := (bind c (fun x => k))
  (at level 61, c at next level, right associativity).
Notation "' p <- c ;; k" := (bind c (fun x => match x with p => k end))
  (at level 61, p pattern, c at next level, right associativity).

Fixpoint map_opt {A B : Type} (f : A -> option B) (l : list A) : option (list B) :=
  match l with
  | [] => Some []
  | a :: l' => b <- f a ;; bs <- map_opt f l' ;; Some (b :: bs)
  end.

(** ** Scalars and inline arrays *)

(** The one-character strings of a double and of a single quote. *)
Definition dquote : str := [34%N].
Definition squote : str := [39%N].

(** State of the loop of [_split_array]: [items], [current], [in_quote]. *)
Definition split_state := (list str * str * option char)%type.

Definition is_quote (c : char) : bool := N.eqb c 34 || N.eqb c 39.

Definition split_step (st : split_state) (c : char) : split_state :=
  let '(items, current, in_quote) := st in
  match in_quote with
  | None =>
      if is_quote c then (items, current ++ [c], Some c)
      else if N.eqb c 44 then (items ++ [current], [], None)
      else (items, current ++ [c], None)
  | Some q =>
      if N.eqb c q then (items, current ++ [c], None)
      else (items, current ++ [c], Some q)
  end.

Definition split_loop (s : str) (st : split_state) : split_state :=
  fold_left split_step s st.

Definition split_array (s : str) : list str :=
  let '(items, current, _) := split_loop s ([], [], None) in
  if is_empty (strip current) then items else items ++ [current].

Fixpoint parse_scalar_fuel (fuel : nat) (val : str) : option Value :=
  match fuel with
  | O => None
  | S f =>
      let val := strip val in
      if is_empty val then Some (VStr [])
      else if str_eqb val (lit "true") || str_eqb val (lit "True") then Some (VBool true)
      else if str_eqb val (lit "false") || str_eqb val (lit "False") then Some (VBool false)
      else if str_eqb val (lit "null") || str_eqb val (lit "~") then Some VNull
      else if startswith dquote val && endswith dquote val
              || startswith squote val && endswith squote val
           then Some (VStr (slice_1_m1 val))
      else if startswith (lit "[") val && endswith (lit "]") val
           then l <- map_opt (parse_scalar_fuel f) (split_array (slice_1_m1 val)) ;;
                Some (VSeq l)
      else Some (VStr val)
  end.

(** The recursion of [_parse_scalar] is on strictly shorter strings, so the
    length of the argument bounds its depth. *)
Definition parse_scalar (val : str) : option Value :=
  parse_scalar_fuel (S (length val)) val.

(** ** The block and list parsers *)

(** [len(line) - len(line.lstrip())] *)
Definition get_indent (line : str) : Z :=
  Z.of_nat (length line) - Z.of_nat (length (lstrip line)).

(** [not trimmed or trimmed.startswith('#')] *)
Definition blank_or_comment (trimmed : str) : bool :=
  is_empty trimmed || startswith (lit "#") trimmed.

Definition is_dash (trimmed : str) : bool := startswith (lit "- ") trimmed.

(** [re.match] with the pattern of the source (start anchor, a lazy group
    of one or more non-colon characters, a colon, any white space, a group
    with the rest of the line): the two groups, when it matches.  The first
    group cannot contain a colon, so it is the non-empty text before the
    first colon; the white space is taken greedily and the second group runs
    up to the next newline. *)
Definition match_kv (s : str) : option (str * str) :=
  let not_colon := fun c => negb (N.eqb c 58) in
  let g1 := take_while not_colon s in
  match g1, drop_while not_colon s with
  | _ :: _, _ :: rest =>
      Some (g1, take_while (fun c => negb (N.eqb c 10)) (drop_while is_space rest))
  | _, _ => None
  end.

(** [while ni < len(lines) and not lines[ni].strip(): ni += 1] *)
Fixpoint skip_blank_from (rest : list str) (ni : nat) : nat :=
  match rest with
  | [] => ni
  | l :: rest' => if is_empty (strip l) then skip_blank_from rest' (S ni) else ni
  end.

Definition skip_blank (lines : list str) (ni : nat) : nat :=
  skip_blank_from (skipn ni lines) ni.

(** What one iteration of the loop of [_parse_block] does. *)
Inductive block_step : Type :=
| BBreak : block_step
| BReturn : Value -> nat -> block_step
| BAssign : str -> Value -> nat -> block_step
| BSkip : nat -> block_step.

(** What one iteration of the outer loop of [_parse_list] does. *)
Inductive list_step : Type :=
| LBreak : list_step
| LAppend : Value -> nat -> list_step
| LSkip : nat -> list_step.

(** What one iteration of the inner loop of [_parse_list] does. *)
Inductive obj_step : Type :=
| OBreak : obj_step
| OAssign : str -> Value -> nat -> obj_step
| OSkip : nat -> obj_step.

Section Iterations.

(** The recursive calls [_parse_block(lines, start, indent)] and
    [_parse_list(lines, start, indent)], and the inner loop of
    [_parse_list] entered at [j] with the dash line's indent and the
    seeded item. *)
Variable call_block : nat -> Z -> option (Value * nat).
Variable call_list : nat -> Z -> option (Value * nat).
Variable call_obj : nat -> Z -> dict -> option (dict * nat).
Variable lines : list str.

(** The value of a key whose own value is empty and whose next non-blank
    line [nline], at index [ni], is indented deeper than the key line:
    the [if lines[ni].strip().startswith('- ')] of [_parse_block]. *)
Definition child_value (ni : nat) (nline : str) (indent : Z) : option (Value * nat) :=
  if is_dash (strip nline) then call_list ni (get_indent nline)
  else call_block ni indent.

(** Body of the loop of [_parse_block] at line [i]. *)
Definition block_iter (i : nat) (line : str) (parent_indent : Z) : option block_step :=
  let trimmed := strip line in
  if blank_or_comment trimmed then Some (BSkip (i + 1))
  else
    let indent := get_indent line in
    if indent <=? parent_indent then Some BBreak
    else if is_dash trimmed then
      '(lst, i') <- call_list i indent ;; Some (BReturn lst i')
    else
      match match_kv trimmed with
      | Some (g1, g2) =>
          let key := strip g1 in
          let val := strip g2 in
          if is_empty val then
            let ni := skip_blank lines (i + 1) in
            match nth_error lines ni with
            | Some nline =>
                let ni_indent := get_indent nline in
                if ni_indent >? indent then
                  '(v, i') <- child_value ni nline indent ;; Some (BAssign key v i')
                else Some (BAssign key (VStr []) (i + 1))
            | None => Some (BAssign key (VStr []) (i + 1))
            end
          else v <- parse_scalar val ;; Some (BAssign key v (i + 1))
      | None => Some (BSkip (i + 1))
      end.

(** Body of the outer loop of [_parse_list] at line [i]. *)
Definition list_iter (i : nat) (line : str) (list_indent : Z) : option list_step :=
  let trimmed := strip line in
  if blank_or_comment trimmed then Some (LSkip (i + 1))
  else
    let indent := get_indent line in
    if indent <? list_indent then Some LBreak
    else if (indent >? list_indent) && negb (is_dash trimmed) then Some (LSkip (i + 1))
    else if is_dash trimmed then
      let content := strip (skipn 2 trimmed) in
      match match_kv content with
      | Some (g1, g2) =>
          v0 <- parse_scalar (strip g2) ;;
          '(obj, j) <- call_obj (i + 1)%nat indent [(strip g1, v0)] ;;
          Some (LAppend (VMap obj) j)
      | None => v <- parse_scalar content ;; Some (LAppend v (i + 1))
      end
    else Some LBreak.

(** Body of the inner loop of [_parse_list] at line [j]; [indent] is the
    indent of the dash line that opened the item. *)
Definition obj_iter (j : nat) (sub : str) (indent : Z) : option obj_step :=
  let st := strip sub in
  if blank_or_comment st then Some (OSkip (j + 1))
  else
    let si := get_indent sub in
    if si <=? indent then Some OBreak
    else if is_dash st then Some OBreak
    else
      match match_kv st with
      | Some (g1, g2) =>
          let sk := strip g1 in
          let sv := strip g2 in
          if is_empty sv then
            let nj := skip_blank lines (j + 1) in
            match nth_error lines nj with
            | Some nline =>
                if (get_indent nline >? si) && is_dash (strip nline) then
                  '(v, j') <- call_list nj (get_indent nline) ;; Some (OAssign sk v j')
                else Some (OAssign sk (VStr []) (j + 1))
            | None => Some (OAssign sk (VStr []) (j + 1))
            end
          else v <- parse_scalar sv ;; Some (OAssign sk v (j + 1))
      | None => Some (OSkip (j + 1))
      end.

End Iterations.

(** The loops of [_parse_list]: the outer one over the items and the inner
    one over the keys of one item.  [nth_error lines i] is [None] exactly
    when the loop condition [i < len(lines)] fails. *)
Fixpoint list_loop (fuel : nat) (lines : list str) (i : nat) (list_indent : Z)
    (result : list Value) {struct fuel} : option (Value * nat) :=
  match fuel with
  | O => None
  | S f =>
      match nth_error lines i with
      | None => Some (VSeq result, i)
      | Some line =>
          match list_iter (fun j ind obj => obj_loop f lines j ind obj)
                          i line list_indent with
          | None => None
          | Some LBreak => Some (VSeq result, i)
          | Some (LAppend v i') => list_loop f lines i' list_indent (result ++ [v])
          | Some (LSkip i') => list_loop f lines i' list_indent result
          end
      end
  end
with obj_loop (fuel : nat) (lines : list str) (j : nat) (indent : Z)
    (obj : dict) {struct fuel} : option (dict * nat) :=
  match fuel with
  | O => None
  | S f =>
      match nth_error lines j with
      | None => Some (obj, j)
      | Some sub =>
          match obj_iter (fun s p => list_loop f lines s p []) lines j sub indent with
          | None => None
          | Some OBreak => Some (obj, j)
          | Some (OAssign k v j') => obj_loop f lines j' indent (dict_set k v obj)
          | Some (OSkip j') => obj_loop f lines j' indent obj
          end
      end
  end.

(** The loop of [_parse_block]. *)
Fixpoint block_loop (fuel : nat) (lines : list str) (i : nat) (parent_indent : Z)
    (result : dict) {struct fuel} : option (Value * nat) :=
  match fuel with
  | O => None
  | S f =>
      match nth_error lines i with
      | None => Some (VMap result, i)
      | Some line =>
          match block_iter (fun s p => block_loop f lines s p [])
                           (fun s p => list_loop f lines s p [])
                           lines i line parent_indent with
          | None => None
          | Some BBreak => Some (VMap result, i)
          | Some (BReturn lst i') => Some (lst, i')
          | Some (BAssign k v i') => block_loop f lines i' parent_indent (dict_set k v result)
          | Some (BSkip i') => block_loop f lines i' parent_indent result
          end
      end
  end.

(** Fuel that suffices for a document of [n] lines (see [block_loop_total]). *)
Definition parse_fuel (lines : list str) : nat := length lines + 2.

Definition parse_block (lines : list str) (start : nat) (parent_indent : Z)
  : option (Value * nat) :=
  block_loop (parse_fuel lines) lines start parent_indent [].

Definition parse_list (lines : list str) (start : nat) (list_indent : Z)
  : option (Value * nat) :=
  list_loop (parse_fuel lines) lines start list_indent [].

Definition parse_yaml (text : str) : option Value :=
  '(result, _) <- parse_block (split_nl text) 0 (-1) ;; Some result.

(** The newline character, to write documents of several lines. *)
Definition nl : string := String (ascii_of_nat 10) EmptyString.

(** ** The page generator *)

(** [s.strip('/')] *)
Definition strip_slash (s : str) : str :=
  let is_slash := fun c => N.eqb c 47 in
  rev (drop_while is_slash (rev (drop_while is_slash s))).

(** [needle in s] *)
Fixpoint str_contains (needle s : str) : bool :=
  startswith needle s ||
  match s with
  | [] => false
  | _ :: s' => str_contains needle s'
  end.

(** [s.replace(old, new)] for a non-empty [old]: [skip] counts the
    characters of a replaced occurrence still to be passed over. *)
Fixpoint replace_from (old new : str) (skip : nat) (s : str) : str :=
  match s with
  | [] => []
  | c :: s' =>
      match skip with
      | S k => replace_from old new k s'
      | O =>
          if startswith old s then new ++ replace_from old new (length old - 1) s'
          else c :: replace_from old new 0 s'
      end
  end.

Definition str_replace (old new s : str) : str := replace_from old new 0 s.

(** Python truth value of a parsed value. *)
Definition truthy (v : Value) : bool :=
  match v with
  | VNull => false
  | VBool b => b
  | VStr s => negb (is_empty s)
  | VSeq l => match l with [] => false | _ => true end
  | VMap m => match m with [] => false | _ => true end
  end.

(** What a call does to the outside world, in order. *)
Inductive event : Type :=
| EPrint : str -> event
| EMakedirs : str -> event
| EWrite : str -> str -> event.

(** How a call ends: with a returned value or with a raised exception. *)
Inductive outcome (A : Type) : Type :=
| Returned : A -> outcome A
| Raised : outcome A.
Arguments Returned {A} _.
Arguments Raised {A}.

Section Build.

(** The parts of the run that are not in the script: the directory of the
    script, [os.path.join], the files on disk when the call starts, and
    the text Python's formatting gives a value that is not a string. *)
Variable REPO_ROOT : str.
Variable path_join : str -> str -> str.
Variable path_exists : str -> bool.
Variable read_file : str -> str.
Variable format_other : Value -> str.

Definition TEMPLATES_DIR : str := path_join REPO_ROOT (lit "_templates").

Definition load_template (name : str) : option str :=
  let path := path_join TEMPLATES_DIR (name ++ lit ".html") in
  if negb (path_exists path) then None else Some (read_file path).

Definition is_manually_managed (directory : str) : bool :=
  let index := path_join directory (lit "index.html") in
  if negb (path_exists index) then false
  else str_contains (lit "<!-- managed: manual -->") (firstn 500 (read_file index)).

(** [f'{title}'] *)
Definition format_value (v : Value) : str :=
  match v with
  | VStr s => s
  | _ => format_other v
  end.

(** [generate_page(item, template_name)] for an item that is a mapping:
    how the call ends and the events it caused. *)
Definition generate_page (item : dict) (template_name : str)
  : outcome (option str) * list event :=
  let link := match dict_get (lit "link") item with Some v => v | None => VStr [] end in
  if negb (truthy link) then (Returned None, [])
  else
    match link with
    | VStr link =>
        if negb (startswith (lit "/") link) then (Returned None, [])
        else
          let dir_name := strip_slash link in
          let target_dir := path_join REPO_ROOT dir_name in
          let target_file := path_join target_dir (lit "index.html") in
          if is_manually_managed target_dir then
            (Returned None,
             [EPrint (lit "  SKIP  " ++ dir_name ++ lit "/ (manually managed)")])
          else
            match load_template template_name with
            | None | Some [] =>
                (Returned None,
                 [EPrint (lit "  WARN  No template " ++ dquote ++ template_name
                            ++ dquote ++ lit " found for " ++ dir_name ++ lit "/")])
            | Some template =>
                let title :=
                  format_value
                    (match dict_get (lit "title") item with
                     | Some v => v
                     | None => VStr (lit "Page")
                     end) in
                let html :=
                  str_replace (lit "<title>Case Study | Portfolio</title>")
                              (lit "<title>" ++ title ++ lit " | Portfolio</title>")
                              template in
                let html :=
                  str_replace
                    (lit "<meta name=" ++ dquote ++ lit "description" ++ dquote
                       ++ lit " content=" ++ dquote
                       ++ lit "A strategic initiative case study." ++ dquote ++ lit ">")
                    (lit "<meta name=" ++ dquote ++ lit "description" ++ dquote
                       ++ lit " content=" ++ dquote ++ title ++ dquote ++ lit ">")
                    html in
                (Returned (Some target_file),
                 [EMakedirs target_dir;
                  EWrite target_file html;
                  EPrint (lit "  BUILD " ++ dir_name ++ lit "/index.html (from "
                            ++ template_name ++ lit " template)")])
            end
    | _ => (Raised, [])
    end.

End Build.

(** ** The recursion limit *)

(** Python raises [RecursionError] when calls nest deeper than the
    interpreter allows.  The parser nests one call of [_parse_block] or
    [_parse_list] for each level of the document and one call of
    [_parse_scalar] for each level of an inline array.  In the functions
    below [frames] is the number of such calls that may still be nested
    inside the running one; a call made when none is left raises, and [None]
    stands for that exception.  The calls of [_get_indent], [_split_array]
    and [re.match], those of built-in methods, and the list comprehension of
    each inline array take frames of their own; they are not counted, so the
    source can raise with some more frames left than these functions need,
    never with fewer.

    [parse_scalar_fuel] has this form already: its fuel counts the nested
    calls of [_parse_scalar]. *)

(** A call with [frames] calls left: it raises when none is left, and its
    body runs with one less. *)
Definition call_with {A : Type} (frames : nat) (body : nat -> option A) : option A :=
  match frames with
  | O => None
  | S d => body d
  end.

Section LimitedIterations.

(** [_parse_scalar], [_parse_block] and [_parse_list] as they can be called
    from the running frame, and the inner loop of [_parse_list]. *)
Variable scalar : str -> option Value.
Variable call_block : nat -> Z -> option (Value * nat).
Variable call_list : nat -> Z -> option (Value * nat).
Variable call_obj : nat -> Z -> dict -> option (dict * nat).
Variable lines : list str.

(** Body of the loop of [_parse_block] at line [i]. *)
Definition block_iter_with (i : nat) (line : str) (parent_indent : Z) : option block_step :=
  let trimmed := strip line in
  if blank_or_comment trimmed then Some (BSkip (i + 1))
  else
    let indent := get_indent line in
    if indent <=? parent_indent then Some BBreak
    else if is_dash trimmed then
      '(lst, i') <- call_list i indent ;; Some (BReturn lst i')
    else
      match match_kv trimmed with
      | Some (g1, g2) =>
          let key := strip g1 in
          let val := strip g2 in
          if is_empty val then
            let ni := skip_blank lines (i + 1) in
            match nth_error lines ni with
            | Some nline =>
                let ni_indent := get_indent nline in
                if ni_indent >? indent then
                  '(v, i') <- child_value call_block call_list ni nline indent ;;
                  Some (BAssign key v i')
                else Some (BAssign key (VStr []) (i + 1))
            | None => Some (BAssign key (VStr []) (i + 1))
            end
          else v <- scalar val ;; Some (BAssign key v (i + 1))
      | None => Some (BSkip (i + 1))
      end.

(** Body of the outer loop of [_parse_list] at line [i]. *)
Definition list_iter_with (i : nat) (line : str) (list_indent : Z) : option list_step :=
  let trimmed := strip line in
  if blank_or_comment trimmed then Some (LSkip (i + 1))
  else
    let indent := get_indent line in
    if indent <? list_indent then Some LBreak
    else if (indent >? list_indent) && negb (is_dash trimmed) then Some (LSkip (i + 1))
    else if is_dash trimmed then
      let content := strip (skipn 2 trimmed) in
      match match_kv content with
      | Some (g1, g2) =>
          v0 <- scalar (strip g2) ;;
          '(obj, j) <- call_obj (i + 1)%nat indent [(strip g1, v0)] ;;
          Some (LAppend (VMap obj) j)
      | None => v <- scalar content ;; Some (LAppend v (i + 1))
      end
    else Some LBreak.

(** Body of the inner loop of [_parse_list] at line [j]. *)
Definition obj_iter_with (j : nat) (sub : str) (indent : Z) : option obj_step :=
  let st := strip sub in
  if blank_or_comment st then Some (OSkip (j + 1))
  else
    let si := get_indent sub in
    if si <=? indent then Some OBreak
    else if is_dash st then Some OBreak
    else
      match match_kv st with
      | Some (g1, g2) =>
          let sk := strip g1 in
          let sv := strip g2 in
          if is_empty sv then
            let nj := skip_blank lines (j + 1) in
            match nth_error lines nj with
            | Some nline =>
                if (get_indent nline >? si) && is_dash (strip nline) then
                  '(v, j') <- call_list nj (get_indent nline) ;; Some (OAssign sk v j')
                else Some (OAssign sk (VStr []) (j + 1))
            | None => Some (OAssign sk (VStr []) (j + 1))
            end
          else v <- scalar sv ;; Some (OAssign sk v (j + 1))
      | None => Some (OSkip (j + 1))
      end.

End LimitedIterations.

(** The loops of [_parse_list] in a frame with [frames] calls left: the
    inner loop runs in the frame of the outer one, the list of a key of an
    item is a call. *)
Fixpoint list_loop_limited (fuel frames : nat) (lines : list str) (i : nat)
    (list_indent : Z) (result : list Value) {struct fuel} : option (Value * nat) :=
  match fuel with
  | O => None
  | S f =>
      match nth_error lines i with
      | None => Some (VSeq result, i)
      | Some line =>
          match list_iter_with (parse_scalar_fuel frames)
                  (fun j ind obj => obj_loop_limited f frames lines j ind obj)
                  i line list_indent with
          | None => None
          | Some LBreak => Some (VSeq result, i)
          | Some (LAppend v i') => list_loop_limited f frames lines i' list_indent (result ++ [v])
          | Some (LSkip i') => list_loop_limited f frames lines i' list_indent result
          end
      end
  end
with obj_loop_limited (fuel frames : nat) (lines : list str) (j : nat) (indent : Z)
    (obj : dict) {struct fuel} : option (dict * nat) :=
  match fuel with
  | O => None
  | S f =>
      match nth_error lines j with
      | None => Some (obj, j)
      | Some sub =>
          match obj_iter_with (parse_scalar_fuel frames)
                  (fun s p => call_with frames (fun d => list_loop_limited f d lines s p []))
                  lines j sub indent with
          | None => None
          | Some OBreak => Some (obj, j)
          | Some (OAssign k v j') => obj_loop_limited f frames lines j' indent (dict_set k v obj)
          | Some (OSkip j') => obj_loop_limited f frames lines j' indent obj
          end
      end
  end.

(** The loop of [_parse_block] in a frame with [frames] calls left. *)
Fixpoint block_loop_limited (fuel frames : nat) (lines : list str) (i : nat)
    (parent_indent : Z) (result : dict) {struct fuel} : option (Value * nat) :=
  match fuel with
  | O => None
  | S f =>
      match nth_error lines i with
      | None => Some (VMap result, i)
      | Some line =>
          match block_iter_with (parse_scalar_fuel frames)
                  (fun s p => call_with frames (fun d => block_loop_limited f d lines s p []))
                  (fun s p => call_with frames (fun d => list_loop_limited f d lines s p []))
                  lines i line parent_indent with
          | None => None
          | Some BBreak => Some (VMap result, i)
          | Some (BReturn lst i') => Some (lst, i')
          | Some (BAssign k v i') =>
              block_loop_limited f frames lines i' parent_indent (dict_set k v result)
          | Some (BSkip i') => block_loop_limited f frames lines i' parent_indent result
          end
      end
  end.

(** [parse_yaml(text)] called with [frames] calls left: the call itself and
    its call of [_parse_block] take one each.  The fuel is the one of
    [parse_yaml], which suffices whenever the frames do
    ([block_loop_limited_total]), so that no result means [RecursionError]. *)
Definition parse_yaml_limited (frames : nat) (text : str) : outcome Value :=
  let lines := split_nl text in
  match call_with frames (fun d =>
          call_with d (fun d' => block_loop_limited (parse_fuel lines) d' lines 0 (-1) []))
  with
  | Some (result, _) => Returned result
  | None => Raised
  end.

(** The length of the longest line. *)
Definition longest (lines : list str) : nat := list_max (map (@length char) lines).

(** A document of [n] keys, each nested in the one before: line number [k]
    is [k] spaces and a key with nothing after its colon. *)
Definition key_line (k : nat) : str := repeat 32%N k ++ lit "k:".

Fixpoint nested_keys_from (k n : nat) : str :=
  match n with
  | O => []
  | S n' => key_line k ++ 10%N :: nested_keys_from (S k) n'
  end.

Definition nested_keys (n : nat) : str := nested_keys_from 0 n.

(** ** Notions used to state the properties *)

(** The quote state of [_split_array] alone: [in_quote] after one more
    character, and after a whole string. *)
Definition quote_step (q : option char) (c : char) : option char :=
  match q with
  | None => if is_quote c then Some c else None
  | Some q' => if N.eqb c q' then None else Some q'
  end.

Definition quote_after (q : option char) (s : str) : option char :=
  fold_left quote_step s q.

(** [s], read from quote state [q], has no comma outside a quoted span. *)
Fixpoint no_split (q : option char) (s : str) : bool :=
  match s with
  | [] => true
  | c :: s' =>
      negb (match q with None => N.eqb c 44 | Some _ => false end)
      && no_split (quote_step q c) s'
  end.

(** A fragment cut off at a comma: its commas are all inside quoted spans
    and its quotes are closed. *)
Definition closed_fragment (f : str) : Prop :=
  no_split None f = true /\ quote_after None f = None.

(** [','.join(fragments)] *)
Fixpoint join_comma (l : list str) : str :=
  match l with
  | [] => []
  | [x] => x
  | x :: l' => x ++ 44%N :: join_comma l'
  end.

(** The first line at or after [start] that is neither blank nor a
    comment, with its index. *)
Fixpoint first_content_from (rest : list str) (i : nat) : option (nat * str) :=
  match rest with
  | [] => None
  | l :: rest' =>
      if blank_or_comment (strip l) then first_content_from rest' (S i)
      else Some (i, l)
  end.

Definition first_content (lines : list str) (start : nat) : option (nat * str) :=
  first_content_from (skipn start lines) start.

(** No line from index [start] on begins, once trimmed, with the dash
    marker. *)
Definition no_dash_from (lines : list str) (start : nat) : Prop :=
  forall j l, (start <= j)%nat -> nth_error lines j = Some l -> is_dash (strip l) = false.



(** The lines at which the loop of [_parse_block] begins an iteration, in
    order, when it is entered at line [i]: the lines the block reads itself,
    without those a nested block or list has consumed. *)
Fixpoint block_heads (fuel : nat) (lines : list str) (i : nat) (parent_indent : Z)
    {struct fuel} : list nat :=
  match fuel with
  | O => []
  | S f =>
      match nth_error lines i with
      | None => []
      | Some line =>
          i :: match block_iter (fun s p => block_loop f lines s p [])
                                (fun s p => list_loop f lines s p [])
                                lines i line parent_indent with
               | Some (BAssign _ _ i') | Some (BSkip i') =>
                   block_heads f lines i' parent_indent
               | _ => []
               end
      end
  end.

(** Line [j] has content (it is neither blank nor a comment) and begins,
    once trimmed, with the dash marker. *)
Definition dash_line (lines : list str) (j : nat) : bool :=
  match nth_error lines j with
  | Some l => negb (blank_or_comment (strip l)) && is_dash (strip l)
  | None => false
  end.

(** An iteration that does not leave the loop continues, or returns, at a
    later line. *)
Definition block_advances (i : nat) (s : block_step) : Prop :=
  match s with
  | BBreak => True
  | BReturn _ i' | BAssign _ _ i' | BSkip i' => (i < i')%nat
  end.

Definition list_advances (i : nat) (s : list_step) : Prop :=
  match s with
  | LBreak => True
  | LAppend _ i' | LSkip i' => (i < i')%nat
  end.

Definition obj_advances (j : nat) (s : obj_step) : Prop :=
  match s with
  | OBreak => True
  | OAssign _ _ j' | OSkip j' => (j < j')%nat
  end.

(** What the loop of [_split_array] maintains after reading the prefix [s]. *)
Definition split_inv (s : str) (st : split_state) : Prop :=
  let '(items, current, q) := st in
  join_comma (items ++ [current]) = s
  /\ Forall closed_fragment items
  /\ no_split None current = true
  /\ quote_after None current = q.

(** The items whose [link] is not a string that begins with a slash: the
    link is missing, or false in Python's sense (the empty string among
    them), or a string with another first character, or not a string at
    all. *)
Definition link_not_rooted (item : dict) : Prop :=
  forall s, dict_get (lit "link") item = Some (VStr s) -> startswith (lit "/") s = false.

(** The [link] is true in Python's sense without being a string: the
    Boolean [true], a non-empty sequence or a non-empty mapping. *)
Definition link_not_string (item : dict) : bool :=
  match dict_get (lit "link") item with
  | None | Some (VStr _) => false
  | Some v => truthy v
  end.

(** ** The driver *)

(** How [main] ends: it returns, it leaves through [sys.exit], or an
    exception goes through it. *)
Inductive main_outcome : Type :=
| MainDone : main_outcome
| MainExit : Z -> main_outcome
| MainRaised : main_outcome.

(** [str(n)] for a length. *)
Definition int_str (n : nat) : str := lit (NilEmpty.string_of_uint (Nat.to_uint n)).

(** ['=' * 50] *)
Definition rule : str := repeat 61%N 50.

Definition count_writes (evs : list event) : nat :=
  length (filter (fun e => match e with EWrite _ _ => true | _ => false end) evs).

Section Main.

(** The parts of the run that are not in the script, as for
    [generate_page], with the disk as a state the events act on. *)
Variable REPO_ROOT : str.
Variable path_join : str -> str -> str.
Variable format_other : Value -> str.
Variable fs : Type.
Variable fs_exists : fs -> str -> bool.
Variable fs_read : fs -> str -> str.
Variable fs_makedirs : fs -> str -> fs.
Variable fs_write : fs -> str -> str -> fs.

Definition apply_event (st : fs) (e : event) : fs :=
  match e with
  | EPrint _ => st
  | EMakedirs d => fs_makedirs st d
  | EWrite f c => fs_write st f c
  end.

Definition apply_events (st : fs) (evs : list event) : fs :=
  fold_left apply_event evs st.

(** The body of [for item in ...]: [generate_page] on each item in turn,
    the paths it returns collected in [generated].  [None] stands for an
    exception: an item that is not a mapping has no [get]. *)
Fixpoint build_items (template_name : str) (items : list Value) (st : fs)
    (generated : list str) : option (list str) * fs * list event :=
  match items with
  | [] => (Some generated, st, [])
  | VMap d :: rest =>
      match generate_page REPO_ROOT path_join (fs_exists st) (fs_read st) format_other
              d template_name with
      | (Returned result, evs) =>
          let generated' :=
            match result with
            | Some f => if is_empty f then generated else generated ++ [f]
            | None => generated
            end in
          let '(r, st', evs') :=
            build_items template_name rest (apply_events st evs) generated' in
          (r, st', evs ++ evs')
      | (Raised, evs) => (None, apply_events st evs, evs)
      end
  | _ :: _ => (None, st, [])
  end.

(** One of the two sections of [main]: the value under the key, the
    heading with its length, and the loop over its items.  A Boolean has no
    length; the items of a string or of a mapping are strings, without
    [get]. *)
Definition build_section (heading template_name : str) (v : Value) (st : fs)
    (generated : list str) : option (list str) * fs * list event :=
  if negb (truthy v) then (Some generated, st, [])
  else
    let header := fun n => EPrint (10%N :: heading ++ lit " (" ++ int_str n ++ lit "):") in
    match v with
    | VSeq l =>
        let '(r, st', evs) := build_items template_name l st generated in
        (r, st', header (length l) :: evs)
    | VStr s => (None, st, [header (length s)])
    | VMap m => (None, st, [header (length m)])
    | _ => (None, st, [])
    end.

(** [main()] on the disk [st]: how it ends, the disk it leaves and its
    events.  The recursion limit aside, [parse_yaml] always returns
    ([parse_yaml_total]), so its [None] never arises. *)
Definition main (st : fs) : main_outcome * fs * list event :=
  let config_path := path_join REPO_ROOT (lit "portfolio.yaml") in
  if negb (fs_exists st config_path) then
    (MainExit 1, st, [EPrint (lit "ERROR: portfolio.yaml not found")])
  else
    match parse_yaml (fs_read st config_path) with
    | None => (MainRaised, st, [])
    | Some data =>
        let banner := [EPrint (lit "Portfolio Build"); EPrint rule] in
        match data with
        | VMap d =>
            let initiatives :=
              match dict_get (lit "initiatives") d with Some v => v | None => VSeq [] end in
            let '(r1, st1, ev1) :=
              build_section (lit "Initiatives") (lit "case-study") initiatives st [] in
            match r1 with
            | None => (MainRaised, st1, banner ++ ev1)
            | Some generated1 =>
                let projects :=
                  match dict_get (lit "projects") d with Some v => v | None => VSeq [] end in
                let '(r2, st2, ev2) :=
                  build_section (lit "Projects") (lit "project") projects st1 generated1 in
                match r2 with
                | None => (MainRaised, st2, banner ++ ev1 ++ ev2)
                | Some generated2 =>
                    (MainDone, st2,
                     banner ++ ev1 ++ ev2
                       ++ [EPrint (10%N :: rule);
                           EPrint (lit "Generated " ++ int_str (length generated2)
                                     ++ lit " page(s)")])
                end
            end
        | _ => (MainRaised, st, banner)
        end
    end.

End Main.

(** ** Further notions *)

(** The characters of a plain decimal numeral: digits, sign and point. *)
Definition is_numchar (c : char) : bool :=
  ((48 <=? c) && (c <=? 57) || (c =? 43) || (c =? 45) || (c =? 46))%N.

(** A value without a mapping anywhere inside. *)
Fixpoint no_map (v : Value) : bool :=
  match v with
  | VMap _ => false
  | VSeq l => forallb no_map l
  | _ => true
  end.

(** The line an iteration goes on to, when it does not break. *)
Definition block_index (s : block_step) : option nat :=
  match s with
  | BBreak => None
  | BReturn _ i | BAssign _ _ i | BSkip i => Some i
  end.

Definition list_index (s : list_step) : option nat :=
  match s with
  | LBreak => None
  | LAppend _ i | LSkip i => Some i
  end.

Definition obj_index (s : obj_step) : option nat :=
  match s with
  | OBreak => None
  | OAssign _ _ j | OSkip j => Some j
  end.

(** Line [i] is past the end, or a line with content (neither blank nor a
    comment) whose indent satisfies [stop]. *)
Definition ends_at (lines : list str) (stop : str -> Prop) (i : nat) : Prop :=
  match nth_error lines i with
  | None => True
  | Some line => blank_or_comment (strip line) = false /\ stop line
  end.

(** The lines that end a block under [parent_indent], a list at
    [list_indent], and the keys of an item opened at [indent]. *)
Definition block_stop (parent_indent : Z) (line : str) : Prop :=
  get_indent line <= parent_indent.

Definition list_stop (list_indent : Z) (line : str) : Prop :=
  get_indent line < list_indent
  \/ (get_indent line = list_indent /\ is_dash (strip line) = false).

Definition obj_stop (indent : Z) (line : str) : Prop :=
  get_indent line <= indent \/ is_dash (strip line) = true.

(** All different. *)
Fixpoint distinct (ks : list str) : bool :=
  match ks with
  | [] => true
  | k :: ks' => negb (existsb (str_eqb k) ks') && distinct ks'
  end.

(** A key as the parsers produce it: not empty, without a colon, and
    trimmed. *)
Definition key_ok (k : str) : bool :=
  negb (is_empty k) && forallb (fun c => negb (N.eqb c 58)) k && str_eqb (strip k) k.

(** Every mapping inside the value has keys that are [key_ok] and all
    different. *)
Fixpoint wf_value (v : Value) : bool :=
  match v with
  | VSeq l => forallb wf_value l
  | VMap m =>
      forallb (fun kv => key_ok (fst kv) && wf_value (snd kv)) m && distinct (map fst m)
  | _ => true
  end.

(** Two lines the parsers cannot tell apart: the same trimmed text and,
    unless blank, the same indent. *)
Definition same_text (a b : str) : Prop :=
  strip a = strip b /\ (is_empty (strip a) = false -> get_indent a = get_indent b).

(** [b] is [a] with white space added at its end. *)
Definition trailing_space (a b : str) : Prop :=
  exists ws, forallb is_space ws = true /\ b = a ++ ws.

(** Indices of the same place in a document ([i]) and in the document with
    one more line at index [n1] ([i']). *)
Definition shifted (n1 i' i : nat) : Prop :=
  ((i' <= n1)%nat /\ i = i') \/ ((n1 < i')%nat /\ i' = S i).

(** Iterations that do the same, at [shifted] indices. *)
Definition block_step_rel (n1 : nat) (s' s : block_step) : Prop :=
  match s', s with
  | BBreak, BBreak => True
  | BReturn v' r', BReturn v r => v' = v /\ shifted n1 r' r
  | BAssign k' v' r', BAssign k v r => k' = k /\ v' = v /\ shifted n1 r' r
  | BSkip r', BSkip r => shifted n1 r' r
  | _, _ => False
  end.

Definition list_step_rel (n1 : nat) (s' s : list_step) : Prop :=
  match s', s with
  | LBreak, LBreak => True
  | LAppend v' r', LAppend v r => v' = v /\ shifted n1 r' r
  | LSkip r', LSkip r => shifted n1 r' r
  | _, _ => False
  end.

Definition obj_step_rel (n1 : nat) (s' s : obj_step) : Prop :=
  match s', s with
  | OBreak, OBreak => True
  | OAssign k' v' r', OAssign k v r => k' = k /\ v' = v /\ shifted n1 r' r
  | OSkip r', OSkip r => shifted n1 r' r
  | _, _ => False
  end.


(** The marker of a manually managed page, and the two placeholders of a
    template. *)
Definition manual_marker : str := lit "<!-- managed: manual -->".
Definition title_placeholder : str := lit "<title>Case Study | Portfolio</title>".
Definition description_placeholder : str :=
  lit "<meta name=" ++ dquote ++ lit "description" ++ dquote ++ lit " content=" ++ dquote
    ++ lit "A strategic initiative case study." ++ dquote ++ lit ">".

(** [f] is the page of the item [d]: the [index.html] under the directory
    that the item's link, a string beginning with a slash, names. *)
Definition page_of (REPO_ROOT : str) (path_join : str -> str -> str) (d : dict) (f : str)
  : Prop :=
  exists link,
    dict_get (lit "link") d = Some (VStr link)
    /\ startswith (lit "/") link = true
    /\ f = path_join (path_join REPO_ROOT (strip_slash link)) (lit "index.html").

(** The mapping [d] is an item of the sequence under [initiatives] or under
    [projects] in the mapping [data]. *)
Definition configured_item (data : Value) (d : dict) : Prop :=
  exists root section items,
    data = VMap root
    /\ (section = lit "initiatives" \/ section = lit "projects")
    /\ dict_get section root = Some (VSeq items)
    /\ In (VMap d) items.

(** A disk for worked runs: the files as pairs of path and content, newest
    first; directories are not recorded. *)
Definition disk := list (str * str).

Definition disk_exists (d : disk) (f : str) : bool :=
  existsb (fun kv => str_eqb (fst kv) f) d.

Fixpoint disk_read (d : disk) (f : str) : str :=
  match d with
  | [] => []
  | (f', c) :: d' => if str_eqb f' f then c else disk_read d' f
  end.

Definition disk_write (d : disk) (f c : str) : disk := (f, c) :: d.

Definition slash_join (a b : str) : str := a ++ 47%N :: b.

(** [main] on such a disk, with the script in directory [r]. *)
Definition run_main (d : disk) : main_outcome * disk * list event :=
  main (lit "r") slash_join (fun _ => []) disk disk_exists disk_read (fun d _ => d)
    disk_write d.

Definition example_disk : disk :=
  [(lit "r/portfolio.yaml",
    lit ("initiatives:" ++ nl ++ "  - title: A" ++ nl ++ "    link: /a/" ++ nl
         ++ "  - title: B" ++ nl ++ "    link: b" ++ nl ++ "projects: []" ++ nl));
   (lit "r/_templates/case-study.html", title_placeholder ++ lit "<p>study</p>")].


(** * Properties *)

(** ** Strings *)

Lemma str_eqb_eq (a b : str) : str_eqb a b = true <-> a = b.
Proof.
  revert b. induction a as [|x a IH]; intros [|y b]; simpl; split; intro H;
    try reflexivity; try discriminate.
  - apply andb_prop in H. destruct H as [Hx Hab].
    apply N.eqb_eq in Hx. apply IH in Hab. now subst.
  - injection H as -> ->. rewrite N.eqb_refl. simpl. now apply IH.
Qed.

Lemma str_eqb_refl (a : str) : str_eqb a a = true.
Proof. now apply str_eqb_eq. Qed.


Lemma drop_while_length (p : char -> bool) (s : str) :
  (length (drop_while p s) <= length s)%nat.
Proof.
  induction s as [|c s IH]; simpl; [lia|]. destruct (p c); simpl; lia.
Qed.

Lemma strip_length (s : str) : (length (strip s) <= length s)%nat.
Proof.
  unfold strip, rstrip, lstrip. rewrite length_rev.
  etransitivity; [apply drop_while_length|]. rewrite length_rev.
  apply drop_while_length.
Qed.

Lemma slice_length (s : str) : s <> [] -> (length (slice_1_m1 s) < length s)%nat.
Proof.
  destruct s as [|c s]; [congruence|]. intros _. unfold slice_1_m1. simpl.
  destruct s as [|d s]; [simpl; lia|].
  assert (H : d :: s <> []) by discriminate.
  apply exists_last in H. destruct H as [s' [x ->]].
  rewrite removelast_last, length_app. simpl. lia.
Qed.

(** ** The quote-aware comma split *)

Lemma join_comma_snoc (l : list str) (x : str) :
  join_comma (l ++ [x]) =
  match l with
  | [] => x
  | _ :: _ => join_comma l ++ 44%N :: x
  end.
Proof.
  induction l as [|y l IH]; [reflexivity|].
  destruct l as [|z l]; [reflexivity|].
  change (join_comma ((y :: z :: l) ++ [x]))
    with (y ++ 44%N :: join_comma ((z :: l) ++ [x])).
  rewrite IH.
  change (join_comma (y :: z :: l)) with (y ++ 44%N :: join_comma (z :: l)).
  now rewrite <- app_assoc.
Qed.

Lemma join_comma_grow (items : list str) (cur : str) (c : char) :
  join_comma (items ++ [cur ++ [c]]) = join_comma (items ++ [cur]) ++ [c].
Proof.
  rewrite !join_comma_snoc. destruct items; [reflexivity|].
  now rewrite <- app_assoc.
Qed.

Lemma join_comma_cut (items : list str) (cur : str) :
  join_comma ((items ++ [cur]) ++ [[]]) = join_comma (items ++ [cur]) ++ [44%N].
Proof.
  rewrite (join_comma_snoc (items ++ [cur])).
  destruct (items ++ [cur]) eqn:E; [|reflexivity].
  now destruct items.
Qed.

Lemma join_comma_length (l : list str) (f : str) :
  In f l -> (length f <= length (join_comma l))%nat.
Proof.
  induction l as [|x l IH]; [contradiction|].
  intros [->|Hin].
  - destruct l; simpl; [lia|]. rewrite length_app. lia.
  - destruct l as [|y l]; [contradiction|].
    change (join_comma (x :: y :: l)) with (x ++ 44%N :: join_comma (y :: l)).
    rewrite length_app. cbn [length]. specialize (IH Hin). lia.
Qed.

Lemma quote_after_snoc (q : option char) (s : str) (c : char) :
  quote_after q (s ++ [c]) = quote_step (quote_after q s) c.
Proof. unfold quote_after. now rewrite fold_left_app. Qed.

Lemma no_split_snoc (q : option char) (s : str) (c : char) :
  no_split q (s ++ [c]) =
  no_split q s
  && negb (match quote_after q s with None => N.eqb c 44 | Some _ => false end).
Proof.
  revert q. induction s as [|d s IH]; intro q; simpl.
  - now rewrite andb_true_r.
  - rewrite IH. now rewrite andb_assoc.
Qed.

Lemma is_quote_not_comma (c : char) : is_quote c = true -> N.eqb c 44 = false.
Proof.
  unfold is_quote. intro H. apply orb_prop in H.
  destruct H as [H|H]; apply N.eqb_eq in H; now subst.
Qed.

Lemma split_step_inv (s : str) (st : split_state) (c : char) :
  split_inv s st -> split_inv (s ++ [c]) (split_step st c).
Proof.
  destruct st as [[items current] q]. unfold split_inv, split_step.
  intros (Hjoin & Hitems & Hcur & Hq).
  destruct q as [q|].
  - destruct (N.eqb c q) eqn:Ec;
      (repeat split;
       [ now rewrite join_comma_grow, Hjoin
       | assumption
       | rewrite no_split_snoc, Hcur, Hq; reflexivity
       | rewrite quote_after_snoc, Hq; simpl; now rewrite Ec ]).
  - destruct (is_quote c) eqn:Eq; [|destruct (N.eqb c 44) eqn:Ec].
    + repeat split.
      * now rewrite join_comma_grow, Hjoin.
      * assumption.
      * rewrite no_split_snoc, Hcur, Hq, (is_quote_not_comma c Eq). reflexivity.
      * rewrite quote_after_snoc, Hq. simpl. now rewrite Eq.
    + apply N.eqb_eq in Ec. subst c. repeat split.
      * now rewrite join_comma_cut, Hjoin.
      * apply Forall_app. split; [assumption|].
        constructor; [|constructor]. now split.
    + repeat split.
      * now rewrite join_comma_grow, Hjoin.
      * assumption.
      * rewrite no_split_snoc, Hcur, Hq, Ec. reflexivity.
      * rewrite quote_after_snoc, Hq. simpl. now rewrite Eq.
Qed.

Lemma split_loop_inv (s : str) : split_inv s (split_loop s ([], [], None)).
Proof.
  induction s as [|c s IH] using rev_ind.
  - simpl. repeat split. constructor.
  - unfold split_loop. rewrite fold_left_app. simpl.
    now apply split_step_inv.
Qed.

Lemma split_array_length (s f : str) :
  In f (split_array s) -> (length f <= length s)%nat.
Proof.
  unfold split_array. pose proof (split_loop_inv s) as H.
  destruct (split_loop s ([], [], None)) as [[items current] q].
  destruct H as (Hjoin & _). intro Hin.
  rewrite <- Hjoin. apply join_comma_length.
  destruct (is_empty (strip current)); [|assumption].
  apply in_or_app. now left.
Qed.

(** C3 (as amended): commas inside an active quoted span are never split
    points, the trailing fragment is dropped when it is empty after
    trimming, and every fragment that ends at a comma is kept, blank or not.
    The fragments the loop cuts, joined by commas, give the input back; each
    fragment cut at a comma has its quotes closed and no comma outside a
    quoted span, and so has the trailing one read so far. *)
Theorem split_array_fragments (s : str) :
  exists items current q,
    split_loop s ([], [], None) = (items, current, q)
    /\ split_array s = (if is_empty (strip current) then items else items ++ [current])
    /\ join_comma (items ++ [current]) = s
    /\ Forall closed_fragment items
    /\ no_split None current = true.
Proof.
  pose proof (split_loop_inv s) as H. unfold split_array.
  destruct (split_loop s ([], [], None)) as [[items current] q].
  destruct H as (Hjoin & Hitems & Hcur & _).
  exists items, current, q. repeat split; assumption.
Qed.

(** C3 fails as stated: the blank fragment between the two commas of
    [a,,b] is kept. *)
Lemma split_array_keeps_blank :
  split_array (lit "a,,b") = [lit "a"; []; lit "b"]
  /\ ~ (forall f, In f (split_array (lit "a,,b")) -> is_empty (strip f) = false).
Proof.
  split; [reflexivity|].
  intro H. specialize (H []). simpl in H.
  assert (E : true = false) by (apply H; right; left; reflexivity).
  discriminate.
Qed.

(** ** Scalar resolution *)

Lemma map_opt_total {A B : Type} (f : A -> option B) (l : list A) :
  (forall a, In a l -> exists b, f a = Some b) -> exists bs, map_opt f l = Some bs.
Proof.
  induction l as [|a l IH]; intro H; simpl.
  - now exists [].
  - destruct (H a) as [b Hb]; [now left|].
    destruct IH as [bs Hbs]; [intros; apply H; now right|].
    rewrite Hb, Hbs. simpl. now eexists.
Qed.

Lemma map_opt_ext {A B : Type} (f g : A -> option B) (l : list A) (bs : list B) :
  (forall a b, In a l -> f a = Some b -> g a = Some b) ->
  map_opt f l = Some bs -> map_opt g l = Some bs.
Proof.
  revert bs. induction l as [|a l IH]; intros bs H; simpl; [trivial|].
  destruct (f a) as [b|] eqn:Ea; [|discriminate]. simpl.
  destruct (map_opt f l) as [bs'|] eqn:El; [|discriminate]. simpl.
  intro E. rewrite (H a b); [|now left|assumption]. simpl.
  rewrite (IH bs'); [assumption| |reflexivity].
  intros; apply H; [now right|assumption].
Qed.

(** Scalar resolution returns once the fuel exceeds the length of the text. *)
Lemma parse_scalar_fuel_total (fuel : nat) :
  forall val, (length val < fuel)%nat -> exists v, parse_scalar_fuel fuel val = Some v.
Proof.
  induction fuel as [|f IH]; intros val Hlen; [lia|].
  cbn [parse_scalar_fuel].
  destruct (is_empty (strip val)) eqn:Eempty; [now eexists|].
  destruct (str_eqb _ (lit "true") || _); [now eexists|].
  destruct (str_eqb _ (lit "false") || _); [now eexists|].
  destruct (str_eqb _ (lit "null") || _); [now eexists|].
  destruct (startswith dquote _ && _ || _); [now eexists|].
  destruct (startswith (lit "[") _ && _); [|now eexists].
  destruct (map_opt_total (parse_scalar_fuel f) (split_array (slice_1_m1 (strip val))))
    as [bs Hbs].
  - intros a Ha. apply IH.
    apply split_array_length in Ha.
    assert (Hne : strip val <> []) by (intro E; rewrite E in Eempty; discriminate).
    pose proof (slice_length _ Hne). pose proof (strip_length val). lia.
  - rewrite Hbs. simpl. now eexists.
Qed.

Lemma parse_scalar_total (val : str) : exists v, parse_scalar val = Some v.
Proof. apply parse_scalar_fuel_total. lia. Qed.

(** More fuel never changes a result. *)
Lemma parse_scalar_fuel_mono (fuel : nat) :
  forall fuel' val v, (fuel <= fuel')%nat ->
    parse_scalar_fuel fuel val = Some v -> parse_scalar_fuel fuel' val = Some v.
Proof.
  induction fuel as [|f IH]; intros fuel' val v Hle; [discriminate|].
  destruct fuel' as [|f']; [lia|].
  cbn [parse_scalar_fuel].
  destruct (is_empty (strip val)); [trivial|].
  destruct (str_eqb _ (lit "true") || _); [trivial|].
  destruct (str_eqb _ (lit "false") || _); [trivial|].
  destruct (str_eqb _ (lit "null") || _); [trivial|].
  destruct (startswith dquote _ && _ || _); [trivial|].
  destruct (startswith (lit "[") _ && _); [|trivial].
  destruct (map_opt (parse_scalar_fuel f) _) as [bs|] eqn:E; [|discriminate].
  rewrite (map_opt_ext (parse_scalar_fuel f) (parse_scalar_fuel f') _ bs);
    [trivial| |assumption].
  intros a b _. apply IH. lia.
Qed.



(** C10: a fragment that, trimmed, is one lone quote character (double or
    single) resolves to the empty String: the one character passes both the
    starts-with and the ends-with test and the slice removes it. *)
Theorem parse_scalar_lone_quote (val : str) :
  strip val = dquote \/ strip val = squote -> parse_scalar val = Some (VStr []).
Proof.
  unfold parse_scalar. cbn [parse_scalar_fuel].
  intros [E|E]; rewrite E; reflexivity.
Qed.

Lemma parse_scalar_lone_quote_witness :
  (strip dquote = dquote \/ strip dquote = squote)
  /\ parse_scalar dquote = Some (VStr [])
  /\ parse_scalar squote = Some (VStr []).
Proof.
  split; [left; reflexivity|].
  split; apply parse_scalar_lone_quote; [left | right]; reflexivity.
Defined.

(** ** The loops advance *)

Ltac break_match_in H :=
  match type of H with
  | context [match ?x with _ => _ end] => destruct x eqn:?
  end.

Ltac break_match_goal :=
  match goal with
  | |- context [match ?x with _ => _ end] => destruct x eqn:?
  end.

Lemma skip_blank_from_ge (rest : list str) (ni : nat) :
  (ni <= skip_blank_from rest ni)%nat.
Proof.
  revert ni. induction rest as [|l rest IH]; intro ni; simpl; [lia|].
  destruct (is_empty (strip l)); [|lia]. specialize (IH (S ni)). lia.
Qed.

Lemma skip_blank_ge (lines : list str) (ni : nat) : (ni <= skip_blank lines ni)%nat.
Proof. apply skip_blank_from_ge. Qed.

Section IterAdvance.

Variable call_block : nat -> Z -> option (Value * nat).
Variable call_list : nat -> Z -> option (Value * nat).
Variable call_obj : nat -> Z -> dict -> option (dict * nat).
Variable lines : list str.

Hypothesis call_block_ge :
  forall s p v i', call_block s p = Some (v, i') -> (s <= i')%nat.
Hypothesis call_list_ge :
  forall s p v i', call_list s p = Some (v, i') -> (s <= i')%nat.
Hypothesis call_obj_ge :
  forall s p o o' j, call_obj s p o = Some (o', j) -> (s <= j)%nat.

Lemma obj_iter_advances (j : nat) (sub : str) (indent : Z) (step : obj_step) :
  obj_iter call_list lines j sub indent = Some step -> obj_advances j step.
Proof.
  unfold obj_iter, bind. intro H.
  pose proof (skip_blank_ge lines (j + 1)) as Hskip.
  repeat break_match_in H; inversion H; subst; simpl; try lia.
  match goal with
  | E : call_list _ _ = Some _ |- _ => apply call_list_ge in E; lia
  end.
Qed.

Lemma list_iter_advances (i : nat) (line : str) (list_indent : Z) (step : list_step) :
  list_iter call_obj i line list_indent = Some step -> list_advances i step.
Proof.
  unfold list_iter, bind. intro H.
  repeat break_match_in H; inversion H; subst; simpl; try lia.
  match goal with
  | E : call_obj _ _ _ = Some _ |- _ => apply call_obj_ge in E; lia
  end.
Qed.

(** The one call that re-reads the current line is the one that hands a
    dash line over to the list parser. *)
Hypothesis call_list_dash :
  forall i line v i',
    nth_error lines i = Some line ->
    blank_or_comment (strip line) = false ->
    is_dash (strip line) = true ->
    call_list i (get_indent line) = Some (v, i') -> (i < i')%nat.

Lemma block_iter_advances (i : nat) (line : str) (parent_indent : Z) (step : block_step) :
  nth_error lines i = Some line ->
  block_iter call_block call_list lines i line parent_indent = Some step ->
  block_advances i step.
Proof.
  unfold block_iter, child_value, bind. intros Hline H.
  pose proof (skip_blank_ge lines (i + 1)) as Hskip.
  destruct (blank_or_comment (strip line)) eqn:Hbc;
    [inversion H; subst; simpl; lia|].
  destruct (get_indent line <=? parent_indent); [inversion H; subst; exact I|].
  destruct (is_dash (strip line)) eqn:Hdash.
  - destruct (call_list i (get_indent line)) as [[lst i']|] eqn:E; [|discriminate].
    inversion H; subst. simpl. eapply call_list_dash; eauto.
  - repeat break_match_in H; inversion H; subst; simpl; try lia.
    match goal with
    | E : (if ?b then _ else _) = Some _ |- _ => destruct b
    end;
    match goal with
    | E : call_list _ _ = Some _ |- _ => apply call_list_ge in E; lia
    | E : call_block _ _ = Some _ |- _ => apply call_block_ge in E; lia
    end.
Qed.

End IterAdvance.

(** The loops of the list parser return a sequence and an index at or after
    the one they were entered at. *)
Lemma list_obj_loop_ge (lines : list str) (fuel : nat) :
  (forall i p res v i',
      list_loop fuel lines i p res = Some (v, i') -> (i <= i')%nat /\ is_seq v)
  /\ (forall j p obj obj' j',
      obj_loop fuel lines j p obj = Some (obj', j') -> (j <= j')%nat).
Proof.
  induction fuel as [|f [IHl IHo]]; [split; intros; discriminate|].
  split.
  - intros i p res v i'. cbn [list_loop].
    destruct (nth_error lines i) as [line|];
      [|intro H; inversion H; subst; split; [lia|now eexists]].
    destruct (list_iter _ i line p) as [step|] eqn:E; [|discriminate].
    apply list_iter_advances in E; [|intros; eapply IHo; eassumption].
    destruct step as [|x i1|i1]; simpl in E.
    + intro H; inversion H; subst. split; [lia|now eexists].
    + intro H. apply IHl in H. split; [lia|tauto].
    + intro H. apply IHl in H. split; [lia|tauto].
  - intros j p obj obj' j'. cbn [obj_loop].
    destruct (nth_error lines j) as [sub|]; [|intro H; inversion H; subst; lia].
    destruct (obj_iter _ lines j sub p) as [step|] eqn:E; [|discriminate].
    apply obj_iter_advances in E; [|intros; eapply IHl; eassumption].
    destruct step as [|k x j1|j1]; simpl in E.
    + intro H; inversion H; subst. lia.
    + intro H. apply IHo in H. lia.
    + intro H. apply IHo in H. lia.
Qed.

Lemma list_loop_ge (lines : list str) (fuel i : nat) (p : Z) (res : list Value)
    (v : Value) (i' : nat) :
  list_loop fuel lines i p res = Some (v, i') -> (i <= i')%nat.
Proof. intro H. now apply (list_obj_loop_ge lines fuel) in H. Qed.

Lemma list_loop_seq (lines : list str) (fuel i : nat) (p : Z) (res : list Value)
    (v : Value) (i' : nat) :
  list_loop fuel lines i p res = Some (v, i') -> is_seq v.
Proof. intro H. now apply (list_obj_loop_ge lines fuel) in H. Qed.

Lemma obj_loop_ge (lines : list str) (fuel j : nat) (p : Z) (obj obj' : dict) (j' : nat) :
  obj_loop fuel lines j p obj = Some (obj', j') -> (j <= j')%nat.
Proof. apply (list_obj_loop_ge lines fuel). Qed.

(** Entered at a dash line with that line's indent, the list parser takes
    the line as an item, so it returns past it. *)
Lemma list_loop_dash_advances (lines : list str) (fuel i : nat) (line : str)
    (res : list Value) (v : Value) (i' : nat) :
  nth_error lines i = Some line ->
  blank_or_comment (strip line) = false ->
  is_dash (strip line) = true ->
  list_loop fuel lines i (get_indent line) res = Some (v, i') -> (i < i')%nat.
Proof.
  intros Hline Hbc Hdash. destruct fuel as [|f]; [discriminate|].
  cbn [list_loop]. rewrite Hline.
  destruct (list_iter _ i line (get_indent line)) as [step|] eqn:E; [|discriminate].
  pose proof E as Hadv.
  apply list_iter_advances in Hadv; [|intros; eapply obj_loop_ge; eassumption].
  unfold list_iter in E. rewrite Hbc, Hdash, Z.ltb_irrefl in E.
  cbn [negb] in E. rewrite andb_false_r in E. unfold bind in E.
  repeat break_match_in E; inversion E; subst; simpl in Hadv;
    intro H; apply list_loop_ge in H; lia.
Qed.

Lemma block_loop_ge (lines : list str) (fuel : nat) :
  forall i p res v i',
    block_loop fuel lines i p res = Some (v, i') ->
    (i <= i')%nat /\ (is_map v \/ is_seq v).
Proof.
  induction fuel as [|f IH]; [intros; discriminate|].
  intros i p res v i'. cbn [block_loop].
  destruct (nth_error lines i) as [line|] eqn:Hline;
    [|intro H; inversion H; subst; split; [lia|left; now eexists]].
  destruct (block_iter _ _ lines i line p) as [step|] eqn:E; [|discriminate].
  pose proof E as Hadv.
  apply block_iter_advances in Hadv; try assumption.
  - destruct step as [|lst i1|k x i1|i1]; simpl in Hadv.
    + intro H; inversion H; subst. split; [lia|left; now eexists].
    + intro H; inversion H; subst. split; [lia|].
      unfold block_iter, bind in E.
      repeat break_match_in E; inversion E; subst.
      right. eapply list_loop_seq; eassumption.
    + intro H. apply IH in H. split; [lia|tauto].
    + intro H. apply IH in H. split; [lia|tauto].
  - intros s q x j H. now apply IH in H.
  - intros s q x j H. now apply list_loop_ge in H.
  - intros j l x j'. apply list_loop_dash_advances.
Qed.

(** ** The loops terminate *)

Section IterTotal.

Variable call_block : nat -> Z -> option (Value * nat).
Variable call_list : nat -> Z -> option (Value * nat).
Variable call_obj : nat -> Z -> dict -> option (dict * nat).
Variable lines : list str.

Lemma obj_iter_total (j : nat) (sub : str) (indent : Z) :
  (forall s p, (j < s)%nat -> exists r, call_list s p = Some r) ->
  exists step, obj_iter call_list lines j sub indent = Some step.
Proof.
  intro Hlist. unfold obj_iter, bind.
  pose proof (skip_blank_ge lines (j + 1)) as Hskip.
  repeat break_match_goal; try (now eexists); try discriminate.
  - destruct (Hlist (skip_blank lines (j + 1)) (get_indent s1)) as [r Hr]; [lia|].
    congruence.
  - match goal with
    | E : parse_scalar ?x = None |- _ =>
        destruct (parse_scalar_total x) as [v Hv]; congruence
    end.
Qed.

Lemma list_iter_total (i : nat) (line : str) (list_indent : Z) :
  (forall p o, exists r, call_obj (i + 1)%nat p o = Some r) ->
  exists step, list_iter call_obj i line list_indent = Some step.
Proof.
  intro Hobj. unfold list_iter, bind.
  repeat break_match_goal; try (now eexists); try discriminate;
    try match goal with
    | E : parse_scalar ?x = None |- _ =>
        destruct (parse_scalar_total x) as [v Hv]; congruence
    end.
  match goal with
  | E : call_obj _ ?p ?o = None |- _ => destruct (Hobj p o) as [r Hr]; congruence
  end.
Qed.

Lemma block_iter_total (i : nat) (line : str) (parent_indent : Z) :
  (forall s p, (i < s)%nat -> exists r, call_block s p = Some r) ->
  (forall s p, (i <= s)%nat -> exists r, call_list s p = Some r) ->
  exists step, block_iter call_block call_list lines i line parent_indent = Some step.
Proof.
  intros Hblock Hlist. unfold block_iter, child_value, bind.
  pose proof (skip_blank_ge lines (i + 1)) as Hskip.
  repeat break_match_goal; try (now eexists); try discriminate;
    try match goal with
    | E : parse_scalar ?x = None |- _ =>
        destruct (parse_scalar_total x) as [v Hv]; congruence
    end;
    try match goal with
    | E : (if ?b then _ else _) = None |- _ => destruct b
    end;
    try match goal with
    | E : call_list ?s ?p = None |- _ =>
        destruct (Hlist s p) as [r Hr]; [lia|congruence]
    end;
    try match goal with
    | E : call_block ?s ?p = None |- _ =>
        destruct (Hblock s p) as [r Hr]; [lia|congruence]
    end.
Qed.

End IterTotal.

Lemma list_obj_loop_total (lines : list str) (fuel : nat) :
  (forall i p res, (length lines - i < fuel)%nat ->
      exists r, list_loop fuel lines i p res = Some r)
  /\ (forall j p obj, (length lines - j < fuel)%nat ->
      exists r, obj_loop fuel lines j p obj = Some r).
Proof.
  induction fuel as [|f [IHl IHo]].
  - split; intros; lia.
  - split.
    + intros i p res Hf. cbn [list_loop].
      destruct (nth_error lines i) as [line|] eqn:Hline; [|now eexists].
      assert (Hi : (i < length lines)%nat) by (apply nth_error_Some; congruence).
      destruct (list_iter_total (fun j ind obj => obj_loop f lines j ind obj) i line p)
        as [step E]; [intros; apply IHo; lia|].
      rewrite E.
      apply list_iter_advances in E; [|intros; eapply obj_loop_ge; eassumption].
      destruct step; simpl in E; [now eexists| |]; apply IHl; lia.
    + intros j p obj Hf. cbn [obj_loop].
      destruct (nth_error lines j) as [sub|] eqn:Hline; [|now eexists].
      assert (Hj : (j < length lines)%nat) by (apply nth_error_Some; congruence).
      destruct (obj_iter_total (fun s q => list_loop f lines s q []) lines j sub p)
        as [step E]; [intros; apply IHl; lia|].
      rewrite E.
      apply obj_iter_advances in E; [|intros; eapply list_loop_ge; eassumption].
      destruct step; simpl in E; [now eexists| |]; apply IHo; lia.
Qed.

Lemma block_loop_total (lines : list str) (fuel : nat) :
  forall i p res, (length lines - i + 1 < fuel)%nat ->
    exists r, block_loop fuel lines i p res = Some r.
Proof.
  induction fuel as [|f IH]; intros i p res Hf.
  - lia.
  - cbn [block_loop].
    destruct (nth_error lines i) as [line|] eqn:Hline; [|now eexists].
    assert (Hi : (i < length lines)%nat) by (apply nth_error_Some; congruence).
    destruct (block_iter_total (fun s q => block_loop f lines s q [])
                (fun s q => list_loop f lines s q []) lines i line p)
      as [step E].
    { intros; apply IH; lia. }
    { intros; apply (list_obj_loop_total lines f); lia. }
    rewrite E.
    apply block_iter_advances in E; try assumption.
    + destruct step; simpl in E; [now eexists|now eexists| |]; apply IH; lia.
    + intros s q x j H. now apply block_loop_ge in H.
    + intros s q x j H. now apply list_loop_ge in H.
    + intros j l x j'. apply list_loop_dash_advances.
Qed.

(** ** More fuel never changes a result *)

Section IterExt.

Variables call_block call_block' : nat -> Z -> option (Value * nat).
Variables call_list call_list' : nat -> Z -> option (Value * nat).
Variables call_obj call_obj' : nat -> Z -> dict -> option (dict * nat).
Variable lines : list str.

Hypothesis call_block_ext : forall s p r, call_block s p = Some r -> call_block' s p = Some r.
Hypothesis call_list_ext : forall s p r, call_list s p = Some r -> call_list' s p = Some r.
Hypothesis call_obj_ext :
  forall s p o r, call_obj s p o = Some r -> call_obj' s p o = Some r.

Ltac use_ext :=
  repeat match goal with
    | E : call_list _ _ = Some _ |- _ => rewrite (call_list_ext _ _ _ E); clear E
    | E : call_block _ _ = Some _ |- _ => rewrite (call_block_ext _ _ _ E); clear E
    | E : call_obj _ _ _ = Some _ |- _ => rewrite (call_obj_ext _ _ _ _ E); clear E
    end.

Lemma obj_iter_ext (j : nat) (sub : str) (indent : Z) (step : obj_step) :
  obj_iter call_list lines j sub indent = Some step ->
  obj_iter call_list' lines j sub indent = Some step.
Proof.
  unfold obj_iter, bind. intro H.
  repeat (break_match_in H; try discriminate); use_ext; assumption.
Qed.

Lemma list_iter_ext (i : nat) (line : str) (list_indent : Z) (step : list_step) :
  list_iter call_obj i line list_indent = Some step ->
  list_iter call_obj' i line list_indent = Some step.
Proof.
  unfold list_iter, bind. intro H.
  repeat (break_match_in H; try discriminate); use_ext; assumption.
Qed.

Lemma block_iter_ext (i : nat) (line : str) (parent_indent : Z) (step : block_step) :
  block_iter call_block call_list lines i line parent_indent = Some step ->
  block_iter call_block' call_list' lines i line parent_indent = Some step.
Proof.
  unfold block_iter, child_value, bind. intro H.
  destruct (blank_or_comment (strip line)); [assumption|].
  destruct (get_indent line <=? parent_indent); [assumption|].
  destruct (is_dash (strip line)).
  { destruct (call_list i (get_indent line)) as [r|] eqn:E; [|discriminate].
    now rewrite (call_list_ext _ _ _ E). }
  destruct (match_kv (strip line)) as [[g1 g2]|]; [|assumption].
  destruct (is_empty (strip g2)); [|assumption].
  destruct (nth_error lines (skip_blank lines (i + 1))) as [nline|]; [|assumption].
  destruct (get_indent nline >? get_indent line); [|assumption].
  destruct (is_dash (strip nline)).
  - destruct (call_list _ _) as [r|] eqn:E; [|discriminate].
    now rewrite (call_list_ext _ _ _ E).
  - destruct (call_block _ _) as [r|] eqn:E; [|discriminate].
    now rewrite (call_block_ext _ _ _ E).
Qed.

End IterExt.

Lemma list_obj_loop_fuel_mono (lines : list str) (fuel : nat) :
  (forall fuel' i p res r, (fuel <= fuel')%nat ->
      list_loop fuel lines i p res = Some r -> list_loop fuel' lines i p res = Some r)
  /\ (forall fuel' j p obj r, (fuel <= fuel')%nat ->
      obj_loop fuel lines j p obj = Some r -> obj_loop fuel' lines j p obj = Some r).
Proof.
  induction fuel as [|f [IHl IHo]]; [split; intros; discriminate|].
  split.
  - intros [|f'] i p res r Hle; [lia|]. cbn [list_loop].
    destruct (nth_error lines i) as [line|]; [|trivial].
    destruct (list_iter _ i line p) as [step|] eqn:E; [|discriminate].
    apply (list_iter_ext _ (fun j ind obj => obj_loop f' lines j ind obj)) in E;
      [|intros s q o x; apply IHo; lia].
    rewrite E. destruct step; trivial; apply IHl; lia.
  - intros [|f'] j p obj r Hle; [lia|]. cbn [obj_loop].
    destruct (nth_error lines j) as [sub|]; [|trivial].
    destruct (obj_iter _ lines j sub p) as [step|] eqn:E; [|discriminate].
    apply (obj_iter_ext _ (fun s q => list_loop f' lines s q [])) in E;
      [|intros s q x; apply IHl; lia].
    rewrite E. destruct step; trivial; apply IHo; lia.
Qed.

Lemma block_loop_fuel_mono (lines : list str) (fuel : nat) :
  forall fuel' i p res r, (fuel <= fuel')%nat ->
    block_loop fuel lines i p res = Some r -> block_loop fuel' lines i p res = Some r.
Proof.
  induction fuel as [|f IH]; [intros; discriminate|].
  intros [|f'] i p res r Hle; [lia|]. cbn [block_loop].
  destruct (nth_error lines i) as [line|]; [|trivial].
  destruct (block_iter _ _ lines i line p) as [step|] eqn:E; [|discriminate].
  apply (block_iter_ext _ (fun s q => block_loop f' lines s q [])
           _ (fun s q => list_loop f' lines s q [])) in E.
  - rewrite E. destruct step; trivial; apply IH; lia.
  - intros s q x; apply IH; lia.
  - intros s q x; apply (list_obj_loop_fuel_mono lines f); lia.
Qed.

(** [parse_yaml] returns, with a mapping or a sequence, and the fuel it runs
    on is as good as any larger one. *)
Lemma parse_yaml_total (text : str) :
  exists v, parse_yaml text = Some v /\ (is_map v \/ is_seq v).
Proof.
  unfold parse_yaml, parse_block.
  destruct (block_loop_total (split_nl text) (parse_fuel (split_nl text)) 0 (-1) [])
    as [[v i'] H]; [unfold parse_fuel; lia|].
  rewrite H. simpl. exists v. split; [reflexivity|].
  now apply block_loop_ge in H.
Qed.

Lemma parse_block_fuel (lines : list str) (fuel i : nat) (p : Z) :
  (parse_fuel lines <= fuel)%nat ->
  block_loop fuel lines i p [] = parse_block lines i p.
Proof.
  intro Hle. unfold parse_block.
  destruct (block_loop_total lines (parse_fuel lines) i p []) as [r H];
    [unfold parse_fuel; lia|].
  rewrite H. now apply (block_loop_fuel_mono lines (parse_fuel lines)).
Qed.

(** ** The bodies of the loops, whatever they may call *)

Lemma take_while_length (p : char -> bool) (s : str) :
  (length (take_while p s) <= length s)%nat.
Proof.
  induction s as [|c s IH]; simpl; [lia|]. destruct (p c); simpl; lia.
Qed.

Lemma match_kv_length (s g1 g2 : str) :
  match_kv s = Some (g1, g2) -> (length g2 <= length s)%nat.
Proof.
  unfold match_kv. cbv zeta.
  pose proof (drop_while_length (fun c => negb (N.eqb c 58)) s) as H1.
  destruct (take_while _ s) as [|c k]; [discriminate|].
  destruct (drop_while _ s) as [|d rest]; [discriminate|].
  intro H. injection H as _ <-. simpl in H1.
  pose proof (take_while_length (fun c => negb (N.eqb c 10)) (drop_while is_space rest)).
  pose proof (drop_while_length is_space rest). lia.
Qed.

Lemma block_iter_with_parse_scalar (call_block call_list : nat -> Z -> option (Value * nat))
    (lines : list str) (i : nat) (line : str) (p : Z) :
  block_iter_with parse_scalar call_block call_list lines i line p
  = block_iter call_block call_list lines i line p.
Proof. reflexivity. Qed.

Lemma list_iter_with_parse_scalar (call_obj : nat -> Z -> dict -> option (dict * nat))
    (i : nat) (line : str) (p : Z) :
  list_iter_with parse_scalar call_obj i line p = list_iter call_obj i line p.
Proof. reflexivity. Qed.

Lemma obj_iter_with_parse_scalar (call_list : nat -> Z -> option (Value * nat))
    (lines : list str) (j : nat) (sub : str) (p : Z) :
  obj_iter_with parse_scalar call_list lines j sub p = obj_iter call_list lines j sub p.
Proof. reflexivity. Qed.

Section IterWithExt.

Variables scalar scalar' : str -> option Value.
Variables call_block call_block' : nat -> Z -> option (Value * nat).
Variables call_list call_list' : nat -> Z -> option (Value * nat).
Variables call_obj call_obj' : nat -> Z -> dict -> option (dict * nat).
Variable lines : list str.

Hypothesis scalar_ext : forall val v, scalar val = Some v -> scalar' val = Some v.
Hypothesis call_block_ext : forall s p r, call_block s p = Some r -> call_block' s p = Some r.
Hypothesis call_list_ext : forall s p r, call_list s p = Some r -> call_list' s p = Some r.
Hypothesis call_obj_ext :
  forall s p o r, call_obj s p o = Some r -> call_obj' s p o = Some r.

Lemma obj_iter_with_ext (j : nat) (sub : str) (indent : Z) (step : obj_step) :
  obj_iter_with scalar call_list lines j sub indent = Some step ->
  obj_iter_with scalar' call_list' lines j sub indent = Some step.
Proof.
  unfold obj_iter_with, bind. intro H.
  destruct (blank_or_comment (strip sub)); [assumption|].
  destruct (get_indent sub <=? indent); [assumption|].
  destruct (is_dash (strip sub)); [assumption|].
  destruct (match_kv (strip sub)) as [[g1 g2]|]; [|assumption].
  destruct (is_empty (strip g2)).
  - destruct (nth_error lines (skip_blank lines (j + 1))) as [nline|]; [|assumption].
    destruct ((get_indent nline >? get_indent sub) && is_dash (strip nline));
      [|assumption].
    destruct (call_list _ _) as [r|] eqn:E; [|discriminate].
    now rewrite (call_list_ext _ _ _ E).
  - destruct (scalar (strip g2)) as [v|] eqn:E; [|discriminate].
    now rewrite (scalar_ext _ _ E).
Qed.

Lemma list_iter_with_ext (i : nat) (line : str) (list_indent : Z) (step : list_step) :
  list_iter_with scalar call_obj i line list_indent = Some step ->
  list_iter_with scalar' call_obj' i line list_indent = Some step.
Proof.
  unfold list_iter_with, bind. intro H.
  destruct (blank_or_comment (strip line)); [assumption|].
  destruct (get_indent line <? list_indent); [assumption|].
  destruct ((get_indent line >? list_indent) && negb (is_dash (strip line)));
    [assumption|].
  destruct (is_dash (strip line)); [|assumption].
  destruct (match_kv (strip (skipn 2 (strip line)))) as [[g1 g2]|].
  - destruct (scalar (strip g2)) as [v|] eqn:E; [|discriminate].
    rewrite (scalar_ext _ _ E).
    destruct (call_obj _ _ _) as [r|] eqn:E'; [|discriminate].
    now rewrite (call_obj_ext _ _ _ _ E').
  - destruct (scalar _) as [v|] eqn:E; [|discriminate].
    now rewrite (scalar_ext _ _ E).
Qed.

Lemma block_iter_with_ext (i : nat) (line : str) (parent_indent : Z) (step : block_step) :
  block_iter_with scalar call_block call_list lines i line parent_indent = Some step ->
  block_iter_with scalar' call_block' call_list' lines i line parent_indent = Some step.
Proof.
  unfold block_iter_with, child_value, bind. intro H.
  destruct (blank_or_comment (strip line)); [assumption|].
  destruct (get_indent line <=? parent_indent); [assumption|].
  destruct (is_dash (strip line)).
  { destruct (call_list i (get_indent line)) as [r|] eqn:E; [|discriminate].
    now rewrite (call_list_ext _ _ _ E). }
  destruct (match_kv (strip line)) as [[g1 g2]|]; [|assumption].
  destruct (is_empty (strip g2)).
  - destruct (nth_error lines (skip_blank lines (i + 1))) as [nline|]; [|assumption].
    destruct (get_indent nline >? get_indent line); [|assumption].
    destruct (is_dash (strip nline)).
    + destruct (call_list _ _) as [r|] eqn:E; [|discriminate].
      now rewrite (call_list_ext _ _ _ E).
    + destruct (call_block _ _) as [r|] eqn:E; [|discriminate].
      now rewrite (call_block_ext _ _ _ E).
  - destruct (scalar (strip g2)) as [v|] eqn:E; [|discriminate].
    now rewrite (scalar_ext _ _ E).
Qed.

End IterWithExt.

Section IterWithTotal.

Variable scalar : str -> option Value.
Variable call_block : nat -> Z -> option (Value * nat).
Variable call_list : nat -> Z -> option (Value * nat).
Variable call_obj : nat -> Z -> dict -> option (dict * nat).
Variable lines : list str.

Lemma obj_iter_with_total (j : nat) (sub : str) (indent : Z) :
  (forall val, (length val <= length sub)%nat -> exists v, scalar val = Some v) ->
  (forall s p, (j < s)%nat -> exists r, call_list s p = Some r) ->
  exists step, obj_iter_with scalar call_list lines j sub indent = Some step.
Proof.
  intros Hscalar Hlist. unfold obj_iter_with, bind.
  pose proof (skip_blank_ge lines (j + 1)) as Hskip.
  destruct (blank_or_comment (strip sub)); [now eexists|].
  destruct (get_indent sub <=? indent); [now eexists|].
  destruct (is_dash (strip sub)); [now eexists|].
  destruct (match_kv (strip sub)) as [[g1 g2]|] eqn:Hkv; [|now eexists].
  destruct (is_empty (strip g2)).
  - destruct (nth_error lines (skip_blank lines (j + 1))) as [nline|]; [|now eexists].
    destruct ((get_indent nline >? get_indent sub) && is_dash (strip nline));
      [|now eexists].
    destruct (Hlist (skip_blank lines (j + 1)) (get_indent nline)) as [[v j'] Hr]; [lia|].
    rewrite Hr. now eexists.
  - destruct (Hscalar (strip g2)) as [v Hv].
    { apply match_kv_length in Hkv.
      pose proof (strip_length g2). pose proof (strip_length sub). lia. }
    rewrite Hv. now eexists.
Qed.

Lemma list_iter_with_total (i : nat) (line : str) (list_indent : Z) :
  (forall val, (length val <= length line)%nat -> exists v, scalar val = Some v) ->
  (forall p o, exists r, call_obj (i + 1)%nat p o = Some r) ->
  exists step, list_iter_with scalar call_obj i line list_indent = Some step.
Proof.
  intros Hscalar Hobj. unfold list_iter_with, bind.
  destruct (blank_or_comment (strip line)); [now eexists|].
  destruct (get_indent line <? list_indent); [now eexists|].
  destruct ((get_indent line >? list_indent) && negb (is_dash (strip line)));
    [now eexists|].
  destruct (is_dash (strip line)); [|now eexists].
  assert (Hcontent : (length (strip (skipn 2 (strip line))) <= length line)%nat).
  { pose proof (strip_length (skipn 2 (strip line))) as H1.
    rewrite length_skipn in H1. pose proof (strip_length line). lia. }
  destruct (match_kv (strip (skipn 2 (strip line)))) as [[g1 g2]|] eqn:Hkv.
  - destruct (Hscalar (strip g2)) as [v Hv].
    { apply match_kv_length in Hkv. pose proof (strip_length g2). lia. }
    rewrite Hv.
    destruct (Hobj (get_indent line) [(strip g1, v)]) as [[obj j] Hr].
    rewrite Hr. now eexists.
  - destruct (Hscalar (strip (skipn 2 (strip line)))) as [v Hv]; [assumption|].
    rewrite Hv. now eexists.
Qed.

Lemma block_iter_with_total (i : nat) (line : str) (parent_indent : Z) :
  (forall val, (length val <= length line)%nat -> exists v, scalar val = Some v) ->
  (forall s p, (i < s)%nat -> exists r, call_block s p = Some r) ->
  (forall s p, (i <= s)%nat -> exists r, call_list s p = Some r) ->
  exists step,
    block_iter_with scalar call_block call_list lines i line parent_indent = Some step.
Proof.
  intros Hscalar Hblock Hlist. unfold block_iter_with, child_value, bind.
  pose proof (skip_blank_ge lines (i + 1)) as Hskip.
  destruct (blank_or_comment (strip line)); [now eexists|].
  destruct (get_indent line <=? parent_indent); [now eexists|].
  destruct (is_dash (strip line)).
  { destruct (Hlist i (get_indent line)) as [[v i'] Hr]; [lia|].
    rewrite Hr. now eexists. }
  destruct (match_kv (strip line)) as [[g1 g2]|] eqn:Hkv; [|now eexists].
  destruct (is_empty (strip g2)).
  - destruct (nth_error lines (skip_blank lines (i + 1))) as [nline|]; [|now eexists].
    destruct (get_indent nline >? get_indent line); [|now eexists].
    destruct (is_dash (strip nline)).
    + destruct (Hlist (skip_blank lines (i + 1)) (get_indent nline)) as [[v i'] Hr]; [lia|].
      rewrite Hr. now eexists.
    + destruct (Hblock (skip_blank lines (i + 1)) (get_indent line)) as [[v i'] Hr]; [lia|].
      rewrite Hr. now eexists.
  - destruct (Hscalar (strip g2)) as [v Hv].
    { apply match_kv_length in Hkv.
      pose proof (strip_length g2). pose proof (strip_length line). lia. }
    rewrite Hv. now eexists.
Qed.

End IterWithTotal.

(** ** A result under the limit is the result without it *)

Lemma parse_scalar_fuel_sound (frames : nat) (val : str) (v : Value) :
  parse_scalar_fuel frames val = Some v -> parse_scalar val = Some v.
Proof.
  intro H. unfold parse_scalar.
  destruct (Nat.le_gt_cases frames (S (length val))) as [Hle|Hgt].
  - eapply parse_scalar_fuel_mono; eassumption.
  - destruct (parse_scalar_total val) as [v' Hv']. unfold parse_scalar in Hv'.
    assert (Hle : (S (length val) <= frames)%nat) by lia.
    pose proof (parse_scalar_fuel_mono _ _ val v' Hle Hv') as H'.
    congruence.
Qed.

Lemma list_obj_loop_limited_sound (lines : list str) (fuel : nat) :
  (forall frames i p res r,
      list_loop_limited fuel frames lines i p res = Some r ->
      list_loop fuel lines i p res = Some r)
  /\ (forall frames j p obj r,
      obj_loop_limited fuel frames lines j p obj = Some r ->
      obj_loop fuel lines j p obj = Some r).
Proof.
  induction fuel as [|f [IHl IHo]]; [split; intros; discriminate|].
  split.
  - intros frames i p res r. cbn [list_loop_limited list_loop].
    destruct (nth_error lines i) as [line|]; [|trivial].
    destruct (list_iter_with _ _ i line p) as [step|] eqn:E; [|discriminate].
    apply (list_iter_with_ext _ parse_scalar _ (fun j ind obj => obj_loop f lines j ind obj))
      in E.
    + rewrite list_iter_with_parse_scalar in E. rewrite E.
      destruct step; trivial; apply IHl.
    + intros val v. apply parse_scalar_fuel_sound.
    + intros s q o x. apply IHo.
  - intros frames j p obj r. cbn [obj_loop_limited obj_loop].
    destruct (nth_error lines j) as [sub|]; [|trivial].
    destruct (obj_iter_with _ _ lines j sub p) as [step|] eqn:E; [|discriminate].
    apply (obj_iter_with_ext _ parse_scalar _ (fun s q => list_loop f lines s q [])) in E.
    + rewrite obj_iter_with_parse_scalar in E. rewrite E.
      destruct step; trivial; apply IHo.
    + intros val v. apply parse_scalar_fuel_sound.
    + intros s q x. destruct frames as [|d]; [discriminate|]. apply IHl.
Qed.

Lemma block_loop_limited_sound (lines : list str) (fuel : nat) :
  forall frames i p res r,
    block_loop_limited fuel frames lines i p res = Some r ->
    block_loop fuel lines i p res = Some r.
Proof.
  induction fuel as [|f IH]; [intros; discriminate|].
  intros frames i p res r. cbn [block_loop_limited block_loop].
  destruct (nth_error lines i) as [line|]; [|trivial].
  destruct (block_iter_with _ _ _ lines i line p) as [step|] eqn:E; [|discriminate].
  apply (block_iter_with_ext _ parse_scalar _ (fun s q => block_loop f lines s q [])
           _ (fun s q => list_loop f lines s q [])) in E.
  - rewrite block_iter_with_parse_scalar in E. rewrite E.
    destruct step; trivial; apply IH.
  - intros val v. apply parse_scalar_fuel_sound.
  - intros s q x. destruct frames as [|d]; [discriminate|]. apply IH.
  - intros s q x. destruct frames as [|d]; [discriminate|].
    apply (list_obj_loop_limited_sound lines f).
Qed.

(** ** The limited loops advance *)

Lemma obj_iter_limited_advances (lines : list str) (fuel frames j : nat) (sub : str)
    (p : Z) (step : obj_step) :
  obj_iter_with (parse_scalar_fuel frames)
    (fun s q => call_with frames (fun d => list_loop_limited fuel d lines s q []))
    lines j sub p = Some step ->
  obj_advances j step.
Proof.
  intro E.
  apply (obj_iter_with_ext _ parse_scalar _ (fun s q => list_loop fuel lines s q [])) in E.
  - rewrite obj_iter_with_parse_scalar in E.
    apply obj_iter_advances in E; [assumption|].
    intros; eapply list_loop_ge; eassumption.
  - intros val v. apply parse_scalar_fuel_sound.
  - intros s q x. destruct frames as [|d]; [discriminate|].
    apply (list_obj_loop_limited_sound lines fuel).
Qed.

Lemma list_iter_limited_advances (lines : list str) (fuel frames i : nat) (line : str)
    (p : Z) (step : list_step) :
  list_iter_with (parse_scalar_fuel frames)
    (fun j ind obj => obj_loop_limited fuel frames lines j ind obj) i line p = Some step ->
  list_advances i step.
Proof.
  intro E.
  apply (list_iter_with_ext _ parse_scalar _ (fun j ind obj => obj_loop fuel lines j ind obj))
    in E.
  - rewrite list_iter_with_parse_scalar in E.
    apply list_iter_advances in E; [assumption|].
    intros; eapply obj_loop_ge; eassumption.
  - intros val v. apply parse_scalar_fuel_sound.
  - intros s q o x. apply (list_obj_loop_limited_sound lines fuel).
Qed.

Lemma block_iter_limited_advances (lines : list str) (fuel frames i : nat) (line : str)
    (p : Z) (step : block_step) :
  nth_error lines i = Some line ->
  block_iter_with (parse_scalar_fuel frames)
    (fun s q => call_with frames (fun d => block_loop_limited fuel d lines s q []))
    (fun s q => call_with frames (fun d => list_loop_limited fuel d lines s q []))
    lines i line p = Some step ->
  block_advances i step.
Proof.
  intros Hline E.
  apply (block_iter_with_ext _ parse_scalar _ (fun s q => block_loop fuel lines s q [])
           _ (fun s q => list_loop fuel lines s q [])) in E.
  - rewrite block_iter_with_parse_scalar in E.
    eapply block_iter_advances; try eassumption.
    + intros s q x j H. now apply block_loop_ge in H.
    + intros s q x j H. now apply list_loop_ge in H.
    + intros j l x j'. apply list_loop_dash_advances.
  - intros val v. apply parse_scalar_fuel_sound.
  - intros s q x. destruct frames as [|d]; [discriminate|].
    apply block_loop_limited_sound.
  - intros s q x. destruct frames as [|d]; [discriminate|].
    apply (list_obj_loop_limited_sound lines fuel).
Qed.

(** ** More frames never change a result *)

Lemma list_obj_loop_limited_mono (lines : list str) (fuel : nat) :
  (forall frames frames' i p res r, (frames <= frames')%nat ->
      list_loop_limited fuel frames lines i p res = Some r ->
      list_loop_limited fuel frames' lines i p res = Some r)
  /\ (forall frames frames' j p obj r, (frames <= frames')%nat ->
      obj_loop_limited fuel frames lines j p obj = Some r ->
      obj_loop_limited fuel frames' lines j p obj = Some r).
Proof.
  induction fuel as [|f [IHl IHo]]; [split; intros; discriminate|].
  split.
  - intros frames frames' i p res r Hle. cbn [list_loop_limited].
    destruct (nth_error lines i) as [line|]; [|trivial].
    destruct (list_iter_with _ _ i line p) as [step|] eqn:E; [|discriminate].
    apply (list_iter_with_ext _ (parse_scalar_fuel frames') _
             (fun j ind obj => obj_loop_limited f frames' lines j ind obj)) in E.
    + rewrite E. destruct step; trivial; now apply IHl.
    + intros val v. now apply parse_scalar_fuel_mono.
    + intros s q o x. now apply IHo.
  - intros frames frames' j p obj r Hle. cbn [obj_loop_limited].
    destruct (nth_error lines j) as [sub|]; [|trivial].
    destruct (obj_iter_with _ _ lines j sub p) as [step|] eqn:E; [|discriminate].
    apply (obj_iter_with_ext _ (parse_scalar_fuel frames') _
             (fun s q => call_with frames' (fun d => list_loop_limited f d lines s q [])))
      in E.
    + rewrite E. destruct step; trivial; now apply IHo.
    + intros val v. now apply parse_scalar_fuel_mono.
    + intros s q x. destruct frames as [|d]; [discriminate|].
      destruct frames' as [|d']; [lia|]. simpl. apply IHl. lia.
Qed.

Lemma block_loop_limited_mono (lines : list str) (fuel : nat) :
  forall frames frames' i p res r, (frames <= frames')%nat ->
    block_loop_limited fuel frames lines i p res = Some r ->
    block_loop_limited fuel frames' lines i p res = Some r.
Proof.
  induction fuel as [|f IH]; [intros; discriminate|].
  intros frames frames' i p res r Hle. cbn [block_loop_limited].
  destruct (nth_error lines i) as [line|]; [|trivial].
  destruct (block_iter_with _ _ _ lines i line p) as [step|] eqn:E; [|discriminate].
  apply (block_iter_with_ext _ (parse_scalar_fuel frames') _
           (fun s q => call_with frames' (fun d => block_loop_limited f d lines s q []))
           _ (fun s q => call_with frames' (fun d => list_loop_limited f d lines s q [])))
    in E.
  - rewrite E. destruct step; trivial; now apply IH.
  - intros val v. now apply parse_scalar_fuel_mono.
  - intros s q x. destruct frames as [|d]; [discriminate|].
    destruct frames' as [|d']; [lia|]. simpl. apply IH. lia.
  - intros s q x. destruct frames as [|d]; [discriminate|].
    destruct frames' as [|d']; [lia|]. simpl.
    apply (list_obj_loop_limited_mono lines f). lia.
Qed.

(** ** Enough frames give a result *)

Lemma list_obj_loop_limited_total (lines : list str) (m : nat) (fuel : nat) :
  Forall (fun l => (length l < m)%nat) lines ->
  (forall frames i p res,
      (length lines - i < fuel)%nat -> (length lines - i + m <= frames)%nat ->
      exists r, list_loop_limited fuel frames lines i p res = Some r)
  /\ (forall frames j p obj,
      (length lines - j < fuel)%nat -> (length lines - j + m <= frames)%nat ->
      exists r, obj_loop_limited fuel frames lines j p obj = Some r).
Proof.
  intro Hm. rewrite Forall_forall in Hm.
  induction fuel as [|f [IHl IHo]].
  - split; intros; lia.
  - split.
    + intros frames i p res Hf Hd. cbn [list_loop_limited].
      destruct (nth_error lines i) as [line|] eqn:Hline; [|now eexists].
      assert (Hi : (i < length lines)%nat) by (apply nth_error_Some; congruence).
      pose proof (Hm line (nth_error_In _ _ Hline)) as Hlen.
      destruct (list_iter_with_total (parse_scalar_fuel frames)
                  (fun j ind obj => obj_loop_limited f frames lines j ind obj) i line p)
        as [step E].
      { intros val Hval. apply parse_scalar_fuel_total. lia. }
      { intros; apply IHo; lia. }
      rewrite E. apply list_iter_limited_advances in E.
      destruct step; simpl in E; [now eexists| |]; apply IHl; lia.
    + intros frames j p obj Hf Hd. cbn [obj_loop_limited].
      destruct (nth_error lines j) as [sub|] eqn:Hline; [|now eexists].
      assert (Hj : (j < length lines)%nat) by (apply nth_error_Some; congruence).
      pose proof (Hm sub (nth_error_In _ _ Hline)) as Hlen.
      destruct (obj_iter_with_total (parse_scalar_fuel frames)
                  (fun s q => call_with frames (fun d => list_loop_limited f d lines s q []))
                  lines j sub p)
        as [step E].
      { intros val Hval. apply parse_scalar_fuel_total. lia. }
      { intros s q Hs. destruct frames as [|d]; [lia|]. simpl. apply IHl; lia. }
      rewrite E. apply obj_iter_limited_advances in E.
      destruct step; simpl in E; [now eexists| |]; apply IHo; lia.
Qed.

Lemma block_loop_limited_total (lines : list str) (m : nat) (fuel : nat) :
  Forall (fun l => (length l < m)%nat) lines ->
  forall frames i p res,
    (length lines - i + 1 < fuel)%nat -> (length lines - i + m + 1 <= frames)%nat ->
    exists r, block_loop_limited fuel frames lines i p res = Some r.
Proof.
  intro Hm. pose proof Hm as Hall. rewrite Forall_forall in Hm.
  induction fuel as [|f IH]; intros frames i p res Hf Hd.
  - lia.
  - cbn [block_loop_limited].
    destruct (nth_error lines i) as [line|] eqn:Hline; [|now eexists].
    assert (Hi : (i < length lines)%nat) by (apply nth_error_Some; congruence).
    pose proof (Hm line (nth_error_In _ _ Hline)) as Hlen.
    destruct (block_iter_with_total (parse_scalar_fuel frames)
                (fun s q => call_with frames (fun d => block_loop_limited f d lines s q []))
                (fun s q => call_with frames (fun d => list_loop_limited f d lines s q []))
                lines i line p)
      as [step E].
    { intros val Hval. apply parse_scalar_fuel_total. lia. }
    { intros s q Hs. destruct frames as [|d]; [lia|]. simpl. apply IH; lia. }
    { intros s q Hs. destruct frames as [|d]; [lia|]. simpl.
      apply (list_obj_loop_limited_total lines m f Hall); lia. }
    rewrite E. apply (block_iter_limited_advances _ _ _ _ _ _ _ Hline) in E.
    destruct step; simpl in E; [now eexists|now eexists| |]; apply IH; lia.
Qed.

Lemma longest_bound (lines : list str) :
  Forall (fun l => (length l < longest lines + 1)%nat) lines.
Proof.
  unfold longest.
  assert (H : Forall (fun k => (k <= list_max (map (@length char) lines))%nat)
                (map (@length char) lines))
    by (apply list_max_le; lia).
  rewrite Forall_map in H. eapply Forall_impl; [|exact H].
  intros l Hl. simpl in Hl. lia.
Qed.

(** ** The parser under the limit *)

Lemma parse_yaml_limited_sound (frames : nat) (text : str) (v : Value) :
  parse_yaml_limited frames text = Returned v ->
  parse_yaml text = Some v /\ (is_map v \/ is_seq v).
Proof.
  unfold parse_yaml_limited, parse_yaml, parse_block.
  destruct frames as [|[|d]]; try discriminate. cbn [call_with].
  destruct (block_loop_limited _ d _ 0 (-1) []) as [[v0 i']|] eqn:E; [|discriminate].
  intro H. injection H as ->.
  apply block_loop_limited_sound in E. rewrite E. split; [reflexivity|].
  now apply block_loop_ge in E.
Qed.

Lemma parse_yaml_limited_total (frames : nat) (text : str) :
  (length (split_nl text) + 2 * longest (split_nl text) + 100 <= frames)%nat ->
  exists v, parse_yaml_limited frames text = Returned v.
Proof.
  intro Hd. unfold parse_yaml_limited.
  destruct frames as [|[|d]]; try lia. cbn [call_with].
  destruct (block_loop_limited_total (split_nl text) (longest (split_nl text) + 1)
              (parse_fuel (split_nl text)) (longest_bound _) d 0 (-1) [])
    as [[v i'] H]; [unfold parse_fuel; lia|lia|].
  rewrite H. now eexists.
Qed.

Lemma parse_yaml_limited_mono (frames frames' : nat) (text : str) (v : Value) :
  (frames <= frames')%nat ->
  parse_yaml_limited frames text = Returned v ->
  parse_yaml_limited frames' text = Returned v.
Proof.
  intro Hle. unfold parse_yaml_limited.
  destruct frames as [|[|d]]; try discriminate.
  destruct frames' as [|[|d']]; try lia. cbn [call_with].
  destruct (block_loop_limited _ d _ 0 (-1) []) as [[v0 i']|] eqn:E; [|discriminate].
  intro H. injection H as ->.
  apply (block_loop_limited_mono _ _ d d') in E; [|lia]. now rewrite E.
Qed.

(** ** Mapping or sequence *)

Lemma skipn_nth_error {A : Type} (l : list A) (i : nat) (x : A) :
  nth_error l i = Some x -> skipn i l = x :: skipn (S i) l.
Proof.
  revert i. induction l as [|y l IH]; intros [|i] H; try discriminate.
  - now injection H as ->.
  - simpl in H. apply IH in H. exact H.
Qed.

Lemma first_content_unfold (lines : list str) (i : nat) :
  first_content lines i =
  match nth_error lines i with
  | None => None
  | Some line =>
      if blank_or_comment (strip line) then first_content lines (S i) else Some (i, line)
  end.
Proof.
  unfold first_content. destruct (nth_error lines i) as [line|] eqn:E.
  - now rewrite (skipn_nth_error _ _ _ E).
  - apply nth_error_None in E. now rewrite skipn_all2.
Qed.

Lemma no_dash_from_le (lines : list str) (i j : nat) :
  (i <= j)%nat -> no_dash_from lines i -> no_dash_from lines j.
Proof. intros Hle H k l Hk. apply H. lia. Qed.

(** Without a dash line ahead, the block parser returns a mapping. *)
Lemma block_loop_no_dash (lines : list str) (fuel : nat) :
  forall i p res v i',
    no_dash_from lines i ->
    block_loop fuel lines i p res = Some (v, i') -> is_map v.
Proof.
  induction fuel as [|f IH]; [intros; discriminate|].
  intros i p res v i' Hnd. cbn [block_loop].
  destruct (nth_error lines i) as [line|] eqn:Hline;
    [|intro H; inversion H; now eexists].
  destruct (block_iter _ _ lines i line p) as [step|] eqn:E; [|discriminate].
  pose proof E as Hadv.
  apply block_iter_advances in Hadv; try assumption;
    [| intros s q x j H; now apply block_loop_ge in H
     | intros s q x j H; now apply list_loop_ge in H
     | intros j l x j'; apply list_loop_dash_advances ].
  destruct step as [|lst i1|k x i1|i1]; simpl in Hadv.
  - intro H; inversion H; now eexists.
  - unfold block_iter, bind in E. rewrite (Hnd i line (le_n i) Hline) in E.
    repeat break_match_in E; inversion E.
  - apply IH. eapply no_dash_from_le; [|eassumption]. lia.
  - apply IH. eapply no_dash_from_le; [|eassumption]. lia.
Qed.

(** When the first line that is neither blank nor a comment is a dash line
    inside the block, the block parser returns a sequence. *)
Lemma block_loop_first_dash (lines : list str) (fuel : nat) :
  forall i p res v i' k cl,
    first_content lines i = Some (k, cl) ->
    is_dash (strip cl) = true ->
    p < get_indent cl ->
    block_loop fuel lines i p res = Some (v, i') -> is_seq v.
Proof.
  induction fuel as [|f IH]; [intros; discriminate|].
  intros i p res v i' k cl Hfirst Hdash Hind. cbn [block_loop].
  rewrite first_content_unfold in Hfirst.
  destruct (nth_error lines i) as [line|] eqn:Hline; [|discriminate].
  unfold block_iter.
  destruct (blank_or_comment (strip line)) eqn:Hbc.
  - rewrite Nat.add_1_r. eapply IH; eassumption.
  - injection Hfirst as <- <-.
    replace (get_indent line <=? p) with false by (symmetry; apply Z.leb_gt; lia).
    rewrite Hdash. unfold bind.
    destruct (list_loop f lines i (get_indent line) []) as [[lst i1]|] eqn:E;
      [|discriminate].
    intro H; inversion H; subst. eapply list_loop_seq; eassumption.
Qed.

Lemma get_indent_nonneg (line : str) : 0 <= get_indent line.
Proof.
  unfold get_indent, lstrip. pose proof (drop_while_length is_space line). lia.
Qed.

(** A block whose loop begins no iteration at a dash line returns a
    mapping. *)
Lemma block_loop_heads (lines : list str) (fuel : nat) :
  forall i p res v i',
    (forall j, In j (block_heads fuel lines i p) -> dash_line lines j = false) ->
    block_loop fuel lines i p res = Some (v, i') -> is_map v.
Proof.
  induction fuel as [|f IH]; [intros; discriminate|].
  intros i p res v i'. cbn [block_loop block_heads].
  destruct (nth_error lines i) as [line|] eqn:Hline;
    [|intros _ H; inversion H; now eexists].
  destruct (block_iter _ _ lines i line p) as [step|] eqn:E; [|discriminate].
  intro Hheads. destruct step as [|lst i1|k x i1|i1].
  - intro H; inversion H; now eexists.
  - exfalso. specialize (Hheads i (or_introl eq_refl)).
    unfold dash_line in Hheads. rewrite Hline in Hheads.
    unfold block_iter, bind in E.
    destruct (blank_or_comment (strip line)); [discriminate|].
    destruct (get_indent line <=? p); [discriminate|].
    destruct (is_dash (strip line)); [discriminate|].
    repeat break_match_in E; inversion E.
  - apply IH. intros j Hj. apply Hheads. now right.
  - apply IH. intros j Hj. apply Hheads. now right.
Qed.

(** C1 (as amended): the root value [parse_yaml] returns is a mapping or a
    sequence, never a scalar.  It is a mapping whenever none of the lines
    the top-level loop reads itself is a dash line (dash lines inside the
    list or the block of a key do not count), so in particular when no line
    at all begins with the dash marker; and it is a sequence when the first
    line that is neither blank nor a comment begins with it.  Under the
    recursion limit the root is the same, whenever the call returns. *)
Theorem parse_yaml_root (text : str) :
  exists v,
    parse_yaml text = Some v
    /\ (is_map v \/ is_seq v)
    /\ ((forall j,
           In j (block_heads (parse_fuel (split_nl text)) (split_nl text) 0 (-1)) ->
           dash_line (split_nl text) j = false) ->
        is_map v)
    /\ (no_dash_from (split_nl text) 0 -> is_map v)
    /\ (forall k cl,
          first_content (split_nl text) 0 = Some (k, cl) ->
          is_dash (strip cl) = true -> is_seq v)
    /\ (forall frames v', parse_yaml_limited frames text = Returned v' -> v' = v).
Proof.
  destruct (parse_yaml_total text) as [v [Hv Hkind]].
  exists v. split; [assumption|]. split; [assumption|].
  assert (Hlim : forall frames v', parse_yaml_limited frames text = Returned v' -> v' = v).
  { intros frames v' H. apply parse_yaml_limited_sound in H. destruct H as [H _].
    congruence. }
  unfold parse_yaml, parse_block, bind in Hv.
  destruct (block_loop _ _ 0 (-1) []) as [[v0 i']|] eqn:E; [|discriminate].
  injection Hv as ->. split; [|split; [|split]].
  - intro Hheads. eapply block_loop_heads; eassumption.
  - intro Hnd. eapply block_loop_no_dash; eassumption.
  - intros k cl Hfirst Hdash.
    eapply block_loop_first_dash; try eassumption.
    pose proof (get_indent_nonneg cl). lia.
  - exact Hlim.
Qed.

(** C1 fails as stated: a document that opens with a dash line parses to a
    sequence at the top level. *)
Lemma parse_yaml_root_sequence :
  parse_yaml (lit "- a") = Some (VSeq [VStr (lit "a")])
  /\ ~ (exists v, parse_yaml (lit "- a") = Some v /\ is_map v).
Proof.
  split; [reflexivity|].
  intros [v [Hv [m Hm]]]. vm_compute in Hv. subst v. discriminate.
Qed.

(** The document of two items under a key has dash lines, all of them
    inside the list of the key: the top-level loop reads the key line only,
    and none of the lines it reads is a dash line. *)
Remark items_document_heads :
  block_heads
    (parse_fuel
       (split_nl (lit ("items:" ++ nl ++ "  - title: X" ++ nl ++ "    link: /x" ++ nl
                       ++ "  - title: Y" ++ nl ++ "    link: /y" ++ nl))))
    (split_nl (lit ("items:" ++ nl ++ "  - title: X" ++ nl ++ "    link: /x" ++ nl
                    ++ "  - title: Y" ++ nl ++ "    link: /y" ++ nl))) 0 (-1)
  = [0%nat]
  /\ dash_line
       (split_nl (lit ("items:" ++ nl ++ "  - title: X" ++ nl ++ "    link: /x" ++ nl
                       ++ "  - title: Y" ++ nl ++ "    link: /y" ++ nl))) 0
     = false
  /\ dash_line
       (split_nl (lit ("items:" ++ nl ++ "  - title: X" ++ nl ++ "    link: /x" ++ nl
                       ++ "  - title: Y" ++ nl ++ "    link: /y" ++ nl))) 1
     = true.
Proof. repeat split; reflexivity. Qed.

(** C2, at the input where the code departs from it.  Under the key [x] the
    first child line with content is the pair [a: 1], not a dash line, and
    alone it gives [x] the mapping of that pair; with a dash line after it in
    the same block, the loop of [_parse_block] hands over to the list parser
    and returns its list, and the pair is lost.  The inner loop of
    [_parse_list] stops at a dash line and keeps the pairs of its item. *)
Theorem dash_after_keys_drops_pairs :
  parse_yaml (lit ("x:" ++ nl ++ "  a: 1" ++ nl ++ "  - b"))
  = Some (VMap [(lit "x", VSeq [VStr (lit "b")])])
  /\ first_content [lit "x:"; lit "  a: 1"; lit "  - b"] 1 = Some (1%nat, lit "  a: 1")
  /\ is_dash (strip (lit "  a: 1")) = false
  /\ parse_yaml (lit ("x:" ++ nl ++ "  a: 1"))
     = Some (VMap [(lit "x", VMap [(lit "a", VStr (lit "1"))])])
  /\ parse_yaml (lit ("- a: 1" ++ nl ++ "  b: 2" ++ nl ++ "- c"))
     = Some (VSeq [VMap [(lit "a", VStr (lit "1")); (lit "b", VStr (lit "2"))];
                   VStr (lit "c")]).
Proof. repeat split; reflexivity. Qed.

(** ** Duplicate keys *)



Lemma dict_set_keys (k : str) (v : Value) (d : dict) :
  map fst (dict_set k v d) =
  if existsb (fun k' => str_eqb k' k) (map fst d) then map fst d else map fst d ++ [k].
Proof.
  induction d as [|[k' v'] d IH]; simpl; [reflexivity|].
  destruct (str_eqb k' k); simpl; [reflexivity|].
  rewrite IH. now destruct (existsb _ _).
Qed.








(** ** Worked documents *)

(** C8: the list of two items of the specification. *)
Theorem parse_yaml_items :
  parse_yaml (lit ("items:" ++ nl ++ "  - title: X" ++ nl ++ "    link: /x" ++ nl
                   ++ "  - title: Y" ++ nl ++ "    link: /y" ++ nl))
  = Some (VMap [(lit "items",
                 VSeq [VMap [(lit "title", VStr (lit "X")); (lit "link", VStr (lit "/x"))];
                       VMap [(lit "title", VStr (lit "Y")); (lit "link", VStr (lit "/y"))]])]).
Proof. reflexivity. Qed.

(** C6, at the input where the code departs from it: a comment line right
    after a key with an empty value is read by the look-ahead as the next
    content line, so a comment at the key's indent or less keeps the key from
    getting its child block; the same document without the comment nests. *)
Theorem comment_after_key_changes_block :
  parse_yaml (lit ("a:" ++ nl ++ "# c" ++ nl ++ "  b: 1" ++ nl))
  = Some (VMap [(lit "a", VStr []); (lit "b", VStr (lit "1"))])
  /\ parse_yaml (lit ("a:" ++ nl ++ "  b: 1" ++ nl))
     = Some (VMap [(lit "a", VMap [(lit "b", VStr (lit "1"))])]).
Proof. split; reflexivity. Qed.

(** ** The page generator *)

(** C9 (as amended): for an item whose [link] is not a string that begins
    with a slash, [generate_page] has caused no event when it ends, so no
    directory was created and no file written: it returns [None] when the
    link is missing, false in Python's sense (the empty string included) or a
    string, and it raises when the link is true in Python's sense without
    being a string, [startswith] not being defined on it. *)
Theorem generate_page_skips_or_raises (REPO_ROOT : str) (path_join : str -> str -> str)
    (path_exists : str -> bool) (read_file : str -> str) (format_other : Value -> str)
    (item : dict) (template_name : str) :
  link_not_rooted item ->
  generate_page REPO_ROOT path_join path_exists read_file format_other item template_name
  = (if link_not_string item then Raised else Returned None, []).
Proof.
  unfold link_not_rooted, link_not_string, generate_page.
  destruct (dict_get (lit "link") item) as [v|]; [|reflexivity].
  intro H. destruct v as [|b|s|l|m]; cbn [truthy negb].
  - reflexivity.
  - now destruct b.
  - destruct (is_empty s); [reflexivity|]. cbn [negb].
    now rewrite (H s eq_refl).
  - now destruct l.
  - now destruct m.
Qed.

Lemma generate_page_skips_or_raises_witness :
  link_not_rooted [(lit "title", VStr (lit "T")); (lit "link", VStr (lit "x/y"))]
  /\ generate_page [] slash_join (fun _ => true) (fun _ => []) (fun _ => [])
       [(lit "title", VStr (lit "T")); (lit "link", VStr (lit "x/y"))]
       (lit "case-study")
     = (Returned None, []).
Proof.
  assert (H : link_not_rooted
                [(lit "title", VStr (lit "T")); (lit "link", VStr (lit "x/y"))]).
  { intros s E. injection E as <-. reflexivity. }
  split; [exact H|].
  apply (generate_page_skips_or_raises [] slash_join (fun _ => true) (fun _ => [])
           (fun _ => []) _ (lit "case-study") H).
Defined.

(** C9 fails as stated: the value of [link: true] is the Boolean, which does
    not begin with a slash, and the call does not return [None]: it raises. *)
Lemma generate_page_boolean_link :
  parse_yaml (lit "link: true") = Some (VMap [(lit "link", VBool true)])
  /\ generate_page [] slash_join (fun _ => true) (fun _ => []) (fun _ => [])
       [(lit "link", VBool true)] (lit "case-study")
     = (Raised, [])
  /\ fst (generate_page [] slash_join (fun _ => true) (fun _ => []) (fun _ => [])
            [(lit "link", VBool true)] (lit "case-study"))
     <> Returned None.
Proof. repeat split; try reflexivity. discriminate. Qed.

(** * Further properties *)

(** ** Scalars *)

(** X1: scalar resolution gives Null exactly for the two spellings [null]
    and [~] of the trimmed fragment. *)
Theorem parse_scalar_null (val : str) :
  parse_scalar val = Some VNull <->
  (strip val = lit "null" \/ strip val = lit "~").
Proof.
  unfold parse_scalar. cbn [parse_scalar_fuel]. split.
  - destruct (is_empty (strip val)); [discriminate|].
    destruct (str_eqb _ (lit "true") || _); [discriminate|].
    destruct (str_eqb _ (lit "false") || _); [discriminate|].
    destruct (str_eqb _ (lit "null") || _) eqn:En.
    { intros _. apply orb_prop in En.
      destruct En as [En|En]; apply str_eqb_eq in En; auto. }
    destruct (startswith dquote _ && _ || _); [discriminate|].
    destruct (startswith (lit "[") _ && _); [|discriminate].
    destruct (map_opt _ _); discriminate.
  - intros [E|E]; rewrite E; reflexivity.
Qed.

Lemma endswith_last (q : char) (s : str) : endswith [q] (s ++ [q]) = true.
Proof.
  unfold endswith. rewrite rev_app_distr. simpl. now rewrite N.eqb_refl.
Qed.

(** X2: a trimmed fragment wrapped in a pair of double quotes, or of single
    quotes, resolves to the String of what is between them, verbatim: a
    quoted keyword, bracket or comma is plain text. *)
Theorem parse_scalar_quoted (val body : str) (q : char) :
  is_quote q = true ->
  strip val = q :: body ++ [q] ->
  parse_scalar val = Some (VStr body).
Proof.
  intros Hq Hval. unfold parse_scalar. cbn [parse_scalar_fuel].
  assert (Hslice : slice_1_m1 (strip val) = body)
    by (rewrite Hval; unfold slice_1_m1; simpl; apply removelast_last).
  assert (Hempty : is_empty (strip val) = false) by now rewrite Hval.
  unfold is_quote in Hq. apply orb_prop in Hq.
  destruct Hq as [Hq|Hq]; apply N.eqb_eq in Hq; subst q.
  - assert (Hend : endswith dquote (strip val) = true)
      by (rewrite Hval; apply (endswith_last 34%N (34%N :: body))).
    assert (Hstart : startswith dquote (strip val) = true) by now rewrite Hval.
    rewrite Hempty, Hstart, Hend, Hslice. now rewrite Hval.
  - assert (Hend : endswith squote (strip val) = true)
      by (rewrite Hval; apply (endswith_last 39%N (39%N :: body))).
    assert (Hstart : startswith squote (strip val) = true) by now rewrite Hval.
    rewrite Hempty, Hstart, Hend, Hslice, orb_true_r. now rewrite Hval.
Qed.

Lemma parse_scalar_quoted_witness :
  parse_scalar (lit " 'true, [x]' ") = Some (VStr (lit "true, [x]")).
Proof.
  apply (parse_scalar_quoted (lit " 'true, [x]' ") (lit "true, [x]") 39%N);
    reflexivity.
Defined.

Lemma numchar_head (c : char) (rest : str) (w : string) :
  is_numchar c = true ->
  match lit w with
  | d :: _ => is_numchar d = false
  | [] => True
  end ->
  str_eqb (c :: rest) (lit w) = false.
Proof.
  intros Hc Hw. destruct (lit w) as [|d w']; [reflexivity|]. simpl.
  destruct (N.eqb_spec c d) as [->|]; [congruence|reflexivity].
Qed.

(** X3: a trimmed fragment made of digits, signs and points is never
    converted: it resolves to the String of its own text. *)
Theorem parse_scalar_numeral (val : str) :
  strip val <> [] ->
  forallb is_numchar (strip val) = true ->
  parse_scalar val = Some (VStr (strip val)).
Proof.
  intros Hne Hnum. unfold parse_scalar. cbn [parse_scalar_fuel].
  destruct (strip val) as [|c rest]; [congruence|].
  simpl in Hnum. apply andb_prop in Hnum. destruct Hnum as [Hc _].
  cbn [is_empty].
  rewrite !(numchar_head c rest) by (assumption || reflexivity).
  assert (H34 : N.eqb 34 c = false)
    by (destruct (N.eqb_spec 34 c) as [<-|]; [discriminate|reflexivity]).
  assert (H39 : N.eqb 39 c = false)
    by (destruct (N.eqb_spec 39 c) as [<-|]; [discriminate|reflexivity]).
  assert (H91 : N.eqb 91 c = false)
    by (destruct (N.eqb_spec 91 c) as [<-|]; [discriminate|reflexivity]).
  assert (Sd : startswith dquote (c :: rest) = false)
    by (unfold dquote; cbn [startswith]; now rewrite H34).
  assert (Ss : startswith squote (c :: rest) = false)
    by (unfold squote; cbn [startswith]; now rewrite H39).
  assert (Sb : startswith (lit "[") (c :: rest) = false)
    by (change (lit "[") with [91%N]; cbn [startswith]; now rewrite H91).
  rewrite Sd, Ss, Sb. reflexivity.
Qed.

Lemma parse_scalar_numeral_witness :
  parse_scalar (lit " -12.50 ") = Some (VStr (lit "-12.50")).
Proof.
  apply (parse_scalar_numeral (lit " -12.50 ")); [discriminate|reflexivity].
Defined.

Lemma map_opt_forallb {A B : Type} (f : A -> option B) (p : B -> bool) (l : list A) :
  (forall a b, f a = Some b -> p b = true) ->
  forall bs, map_opt f l = Some bs -> forallb p bs = true.
Proof.
  intro H. induction l as [|a l IH]; intros bs; simpl.
  - intro E. now injection E as <-.
  - destruct (f a) as [b|] eqn:Ea; [|discriminate]. simpl.
    destruct (map_opt f l) as [bs'|]; [|discriminate]. simpl.
    intro E. injection E as <-. simpl.
    rewrite (H a b Ea). now apply IH.
Qed.

Lemma parse_scalar_fuel_no_map (fuel : nat) :
  forall val v, parse_scalar_fuel fuel val = Some v -> no_map v = true.
Proof.
  induction fuel as [|f IH]; intros val v; [discriminate|].
  cbn [parse_scalar_fuel].
  destruct (is_empty (strip val)); [intro E; now injection E as <-|].
  destruct (str_eqb _ (lit "true") || _); [intro E; now injection E as <-|].
  destruct (str_eqb _ (lit "false") || _); [intro E; now injection E as <-|].
  destruct (str_eqb _ (lit "null") || _); [intro E; now injection E as <-|].
  destruct (startswith dquote _ && _ || _); [intro E; now injection E as <-|].
  destruct (startswith (lit "[") _ && _); [|intro E; now injection E as <-].
  destruct (map_opt _ _) as [bs|] eqn:Ebs; [|discriminate].
  simpl. intro E. injection E as <-. simpl.
  eapply map_opt_forallb; [|exact Ebs]. exact IH.
Qed.

(** X4: scalar resolution never builds a mapping: its result, the elements
    of an inline array and of arrays nested in it included, is free of
    mappings. *)
Theorem parse_scalar_no_map (val : str) (v : Value) :
  parse_scalar val = Some v -> no_map v = true.
Proof. apply parse_scalar_fuel_no_map. Qed.

Lemma parse_scalar_no_map_witness :
  no_map (VSeq [VStr (lit "a: 1"); VSeq [VBool true]]) = true.
Proof.
  apply (parse_scalar_no_map (lit "[a: 1, [true]]")). reflexivity.
Defined.

(** X5: an inline array resolves to the sequence of its fragments, each
    resolved as a scalar on its own: for a trimmed fragment that is an
    interior between brackets, the result is the sequence of the results of
    [parse_scalar] on the pieces [split_array] cuts the interior into. *)
Theorem parse_scalar_array (val interior : str) :
  strip val = 91%N :: interior ++ [93%N] ->
  exists l,
    map_opt parse_scalar (split_array interior) = Some l
    /\ parse_scalar val = Some (VSeq l).
Proof.
  intro Hval.
  destruct (map_opt_total parse_scalar (split_array interior)) as [l Hl];
    [intros; apply parse_scalar_total|].
  exists l. split; [assumption|].
  unfold parse_scalar at 1. cbn [parse_scalar_fuel].
  assert (Hslice : slice_1_m1 (strip val) = interior)
    by (rewrite Hval; unfold slice_1_m1; simpl; apply removelast_last).
  assert (Hend : endswith (lit "]") (strip val) = true)
    by (rewrite Hval; apply (endswith_last 93%N (91%N :: interior))).
  assert (Hstart : startswith (lit "[") (strip val) = true) by now rewrite Hval.
  assert (Hd : startswith dquote (strip val) = false) by now rewrite Hval.
  assert (Hs : startswith squote (strip val) = false) by now rewrite Hval.
  assert (Hk : forall w, match lit w with 91%N :: _ => False | _ => True end ->
                         str_eqb (strip val) (lit w) = false).
  { intros w Hw. rewrite Hval. destruct (lit w) as [|d w']; [reflexivity|].
    cbn [str_eqb]. destruct (N.eqb_spec 91 d) as [<-|]; [contradiction|reflexivity]. }
  rewrite Hstart, Hend, Hd, Hs, Hslice, !Hk by exact I.
  replace (is_empty (strip val)) with false by now rewrite Hval.
  cbn [orb andb].
  rewrite (map_opt_ext parse_scalar (parse_scalar_fuel (length val)) _ l);
    [reflexivity| |assumption].
  intros a b Hin Hab. unfold parse_scalar in Hab.
  eapply parse_scalar_fuel_mono; [|exact Hab].
  apply split_array_length in Hin.
  pose proof (strip_length val) as Hlen. rewrite Hval in Hlen.
  simpl in Hlen. rewrite length_app in Hlen. simpl in Hlen. lia.
Qed.

Lemma parse_scalar_array_witness :
  exists l,
    map_opt parse_scalar (split_array (lit "1, true")) = Some l
    /\ parse_scalar (lit "[1, true]") = Some (VSeq l).
Proof. apply (parse_scalar_array (lit "[1, true]") (lit "1, true")). reflexivity. Defined.

(** ** The comma split, the other way round *)

Lemma split_loop_fragment (f : str) :
  forall items cur q,
    no_split q f = true ->
    split_loop f (items, cur, q) = (items, cur ++ f, quote_after q f).
Proof.
  induction f as [|c f IH]; intros items cur q Hns.
  - simpl. now rewrite app_nil_r.
  - simpl in Hns. apply andb_prop in Hns. destruct Hns as [Hc Hns].
    unfold split_loop, quote_after. cbn [fold_left].
    fold (split_loop f (split_step (items, cur, q) c)).
    fold (quote_after (quote_step q c) f).
    assert (Hstep : split_step (items, cur, q) c = (items, cur ++ [c], quote_step q c)).
    { unfold split_step, quote_step. destruct q as [q|].
      - now destruct (N.eqb c q).
      - destruct (is_quote c); [reflexivity|].
        destruct (N.eqb c 44); [discriminate|reflexivity]. }
    rewrite Hstep, (IH _ _ _ Hns). now rewrite <- app_assoc.
Qed.

Lemma join_comma_cons (x : str) (l : list str) :
  l <> [] -> join_comma (x :: l) = x ++ 44%N :: join_comma l.
Proof. destruct l; [congruence|reflexivity]. Qed.

Lemma split_loop_join (items : list str) :
  forall acc current,
    Forall closed_fragment items ->
    no_split None current = true ->
    split_loop (join_comma (items ++ [current])) (acc, [], None)
    = (acc ++ items, current, quote_after None current).
Proof.
  induction items as [|x items IH]; intros acc current Hitems Hcur.
  - change (join_comma ([] ++ [current])) with current.
    rewrite split_loop_fragment by assumption.
    now rewrite app_nil_r.
  - inversion Hitems as [|? ? [Hx Hq] Hrest]; subst.
    change ((x :: items) ++ [current]) with (x :: (items ++ [current])).
    rewrite join_comma_cons by (now destruct items).
    unfold split_loop. rewrite fold_left_app.
    fold (split_loop x (acc, [], None)).
    rewrite split_loop_fragment by assumption. rewrite Hq.
    cbn [fold_left app split_step].
    change (is_quote 44%N) with false. cbn iota.
    change (N.eqb 44 44) with true. cbn iota.
    fold (split_loop (join_comma (items ++ [current])) (acc ++ [x], [], None)).
    rewrite (IH (acc ++ [x]) current Hrest Hcur).
    now rewrite <- app_assoc.
Qed.

(** X6: the split undoes a join: fragments whose quotes are closed and whose
    commas are all inside quoted spans, joined by commas with a last
    fragment that has no comma outside a quoted span, are cut at exactly
    those commas; only a blank last fragment is dropped. *)
Theorem split_array_join (items : list str) (current : str) :
  Forall closed_fragment items ->
  no_split None current = true ->
  split_array (join_comma (items ++ [current]))
  = if is_empty (strip current) then items else items ++ [current].
Proof.
  intros Hitems Hcur. unfold split_array.
  now rewrite (split_loop_join items [] current Hitems Hcur).
Qed.

Lemma split_array_join_witness :
  split_array (join_comma ([lit "a"; lit " 'b,c' "] ++ [lit "d"]))
  = [lit "a"; lit " 'b,c' "; lit "d"].
Proof.
  apply (split_array_join [lit "a"; lit " 'b,c' "] (lit "d")).
  - repeat constructor.
  - reflexivity.
Defined.

(** ** Where the loops stop *)

Lemma skip_blank_from_le (rest : list str) (ni : nat) :
  (skip_blank_from rest ni <= ni + length rest)%nat.
Proof.
  revert ni. induction rest as [|l rest IH]; intro ni; simpl; [lia|].
  destruct (is_empty (strip l)); [|lia]. specialize (IH (S ni)). lia.
Qed.

Lemma skip_blank_le (lines : list str) (ni : nat) :
  (ni <= length lines)%nat -> (skip_blank lines ni <= length lines)%nat.
Proof.
  intro H. unfold skip_blank.
  pose proof (skip_blank_from_le (skipn ni lines) ni) as Hle.
  rewrite length_skipn in Hle. lia.
Qed.

Lemma skip_blank_from_content (rest : list str) :
  forall ni m l,
    nth_error rest m = Some l -> is_empty (strip l) = false ->
    (skip_blank_from rest ni <= ni + m)%nat.
Proof.
  induction rest as [|x rest IH]; intros ni m l Hm Hl; [now destruct m|].
  simpl. destruct (is_empty (strip x)) eqn:Ex; [|lia].
  destruct m as [|m]; simpl in Hm.
  - injection Hm as ->. congruence.
  - specialize (IH (S ni) m l Hm Hl). lia.
Qed.

(** The look-ahead never passes a line that is not blank. *)
Lemma skip_blank_content (lines : list str) (s k : nat) (kline : str) :
  nth_error lines k = Some kline -> is_empty (strip kline) = false ->
  (s <= k)%nat -> (skip_blank lines s <= k)%nat.
Proof.
  intros Hk Hne Hle. unfold skip_blank.
  pose proof (skip_blank_from_content (skipn s lines) s (k - s) kline) as H.
  rewrite nth_error_skipn in H. replace (s + (k - s))%nat with k in H by lia.
  specialize (H Hk Hne). lia.
Qed.

Lemma content_not_blank (line : str) :
  blank_or_comment (strip line) = false -> is_empty (strip line) = false.
Proof. unfold blank_or_comment. intro H. now apply orb_false_elim in H. Qed.

Section IterBound.

Variable call_block : nat -> Z -> option (Value * nat).
Variable call_list : nat -> Z -> option (Value * nat).
Variable call_obj : nat -> Z -> dict -> option (dict * nat).
Variable lines : list str.

Hypothesis call_block_le :
  forall s p v i', (s <= length lines)%nat ->
    call_block s p = Some (v, i') -> (i' <= length lines)%nat.
Hypothesis call_list_le :
  forall s p v i', (s <= length lines)%nat ->
    call_list s p = Some (v, i') -> (i' <= length lines)%nat.
Hypothesis call_obj_le :
  forall s p o o' j, (s <= length lines)%nat ->
    call_obj s p o = Some (o', j) -> (j <= length lines)%nat.

Lemma obj_iter_le (j : nat) (sub : str) (indent : Z) (step : obj_step) (j' : nat) :
  (j < length lines)%nat ->
  obj_iter call_list lines j sub indent = Some step ->
  obj_index step = Some j' -> (j' <= length lines)%nat.
Proof.
  unfold obj_iter, bind. intros Hj H.
  assert (Hskip : (skip_blank lines (j + 1) <= length lines)%nat)
    by (apply skip_blank_le; lia).
  repeat break_match_in H; inversion H; subst; simpl;
    intro E; inversion E; subst; try lia.
  match goal with
  | C : call_list _ _ = Some _ |- _ => apply call_list_le in C; assumption
  end.
Qed.

Lemma list_iter_le (i : nat) (line : str) (list_indent : Z) (step : list_step) (i' : nat) :
  (i < length lines)%nat ->
  list_iter call_obj i line list_indent = Some step ->
  list_index step = Some i' -> (i' <= length lines)%nat.
Proof.
  unfold list_iter, bind. intros Hi H.
  repeat break_match_in H; inversion H; subst; simpl;
    intro E; inversion E; subst; try lia.
  match goal with
  | C : call_obj _ _ _ = Some _ |- _ => apply call_obj_le in C; [assumption|lia]
  end.
Qed.

Lemma block_iter_le (i : nat) (line : str) (parent_indent : Z) (step : block_step)
    (i' : nat) :
  (i < length lines)%nat ->
  block_iter call_block call_list lines i line parent_indent = Some step ->
  block_index step = Some i' -> (i' <= length lines)%nat.
Proof.
  unfold block_iter, child_value, bind. intros Hi H.
  assert (Hskip : (skip_blank lines (i + 1) <= length lines)%nat)
    by (apply skip_blank_le; lia).
  repeat break_match_in H; inversion H; subst; simpl;
    intro E; inversion E; subst; try lia;
    repeat match goal with
      | C : (if ?b then _ else _) = Some _ |- _ => destruct b
      end;
    match goal with
    | C : call_list _ _ = Some _ |- _ => apply call_list_le in C; [assumption|lia]
    | C : call_block _ _ = Some _ |- _ => apply call_block_le in C; [assumption|lia]
    end.
Qed.

End IterBound.

Lemma list_obj_loop_le (lines : list str) (fuel : nat) :
  (forall i p res v i', (i <= length lines)%nat ->
      list_loop fuel lines i p res = Some (v, i') -> (i' <= length lines)%nat)
  /\ (forall j p obj obj' j', (j <= length lines)%nat ->
      obj_loop fuel lines j p obj = Some (obj', j') -> (j' <= length lines)%nat).
Proof.
  induction fuel as [|f [IHl IHo]]; [split; intros; discriminate|].
  split.
  - intros i p res v i' Hi. cbn [list_loop].
    destruct (nth_error lines i) as [line|] eqn:Hline;
      [|intro H; inversion H; subst; assumption].
    assert (Hlt : (i < length lines)%nat) by (apply nth_error_Some; congruence).
    destruct (list_iter _ i line p) as [step|] eqn:E; [|discriminate].
    pose proof (list_iter_le _ lines IHo i line p step) as Hle.
    destruct step as [|x i1|i1]; intro H.
    + inversion H; subst; assumption.
    + eapply IHl; [|exact H]. eapply Hle; eauto.
    + eapply IHl; [|exact H]. eapply Hle; eauto.
  - intros j p obj obj' j' Hj. cbn [obj_loop].
    destruct (nth_error lines j) as [sub|] eqn:Hline;
      [|intro H; inversion H; subst; assumption].
    assert (Hlt : (j < length lines)%nat) by (apply nth_error_Some; congruence).
    destruct (obj_iter _ lines j sub p) as [step|] eqn:E; [|discriminate].
    pose proof (obj_iter_le (fun s q => list_loop f lines s q []) lines
                  (fun s q v i' => IHl s q [] v i') j sub p step) as Hle.
    destruct step as [|k x j1|j1]; intro H.
    + inversion H; subst; assumption.
    + eapply IHo; [|exact H]. eapply Hle; eauto.
    + eapply IHo; [|exact H]. eapply Hle; eauto.
Qed.

Lemma block_loop_le (lines : list str) (fuel : nat) :
  forall i p res v i', (i <= length lines)%nat ->
    block_loop fuel lines i p res = Some (v, i') -> (i' <= length lines)%nat.
Proof.
  induction fuel as [|f IH]; [intros; discriminate|].
  intros i p res v i' Hi. cbn [block_loop].
  destruct (nth_error lines i) as [line|] eqn:Hline;
    [|intro H; inversion H; subst; assumption].
  assert (Hlt : (i < length lines)%nat) by (apply nth_error_Some; congruence).
  destruct (block_iter _ _ lines i line p) as [step|] eqn:E; [|discriminate].
  pose proof (block_iter_le (fun s q => block_loop f lines s q [])
                (fun s q => list_loop f lines s q []) lines
                (fun s q v i' => IH s q [] v i')
                (fun s q v i' => proj1 (list_obj_loop_le lines f) s q [] v i')
                i line p step) as Hle.
  destruct step as [|lst i1|k x i1|i1]; intro H.
  - inversion H; subst; assumption.
  - inversion H; subst. eapply Hle; eauto.
  - eapply IH; [|exact H]. eapply Hle; eauto.
  - eapply IH; [|exact H]. eapply Hle; eauto.
Qed.

(** X7: the parsers stay inside the line array: entered at an index within
    the array (its length included), each of the three loops returns an
    index between the one it was entered at and the length of the array. *)
Theorem loops_stay_in_bounds (lines : list str) (fuel : nat) :
  (forall i p res v i', (i <= length lines)%nat ->
      block_loop fuel lines i p res = Some (v, i') -> (i <= i' <= length lines)%nat)
  /\ (forall i p res v i', (i <= length lines)%nat ->
      list_loop fuel lines i p res = Some (v, i') -> (i <= i' <= length lines)%nat)
  /\ (forall j p obj obj' j', (j <= length lines)%nat ->
      obj_loop fuel lines j p obj = Some (obj', j') -> (j <= j' <= length lines)%nat).
Proof.
  split; [|split].
  - intros i p res v i' Hi H. split.
    + now apply block_loop_ge in H.
    + eapply block_loop_le; eassumption.
  - intros i p res v i' Hi H. split.
    + now apply list_loop_ge in H.
    + eapply (proj1 (list_obj_loop_le lines fuel)); eassumption.
  - intros j p obj obj' j' Hj H. split.
    + now apply obj_loop_ge in H.
    + eapply (proj2 (list_obj_loop_le lines fuel)); eassumption.
Qed.

Ltac bool_to_prop :=
  repeat match goal with
    | H : (_ && _) = true |- _ => apply andb_prop in H; destruct H
    | H : (_ <=? _) = false |- _ => apply Z.leb_gt in H
    | H : (_ <=? _) = true |- _ => apply Z.leb_le in H
    | H : (_ <? _) = false |- _ => apply Z.ltb_ge in H
    | H : (_ <? _) = true |- _ => apply Z.ltb_lt in H
    | H : (_ >? _) = true |- _ => apply Z.gtb_lt in H
    | H : (_ >? _) = false |- _ => rewrite Z.gtb_ltb in H; apply Z.ltb_ge in H
    end.

(** What a [break] tells about the line it happens at. *)
Lemma block_iter_break (call_block call_list : nat -> Z -> option (Value * nat))
    (lines : list str) (i : nat) (line : str) (p : Z) :
  block_iter call_block call_list lines i line p = Some BBreak ->
  blank_or_comment (strip line) = false /\ block_stop p line.
Proof.
  unfold block_iter, child_value, bind, block_stop. intro H.
  repeat break_match_in H; inversion H; bool_to_prop; auto.
Qed.

Lemma list_iter_break (call_obj : nat -> Z -> dict -> option (dict * nat))
    (i : nat) (line : str) (li : Z) :
  list_iter call_obj i line li = Some LBreak ->
  blank_or_comment (strip line) = false /\ list_stop li line.
Proof.
  unfold list_iter, bind, list_stop. intro H.
  destruct (blank_or_comment (strip line)); [discriminate|].
  destruct (get_indent line <? li) eqn:E1; [bool_to_prop; auto|].
  destruct (is_dash (strip line)) eqn:Ed.
  - rewrite andb_false_r in H. repeat break_match_in H; inversion H.
  - rewrite andb_true_r in H.
    destruct (get_indent line >? li) eqn:E2; [discriminate|].
    bool_to_prop. split; [reflexivity|]. right. split; [lia|reflexivity].
Qed.

Lemma obj_iter_break (call_list : nat -> Z -> option (Value * nat))
    (lines : list str) (j : nat) (sub : str) (indent : Z) :
  obj_iter call_list lines j sub indent = Some OBreak ->
  blank_or_comment (strip sub) = false /\ obj_stop indent sub.
Proof.
  unfold obj_iter, bind, obj_stop. intro H.
  destruct (blank_or_comment (strip sub)); [discriminate|].
  destruct (get_indent sub <=? indent) eqn:E1; [bool_to_prop; auto|].
  destruct (is_dash (strip sub)) eqn:Ed; [auto|].
  repeat break_match_in H; inversion H.
Qed.

(** A list line that stops the list makes its iteration break. *)
Lemma list_iter_at_stop (call_obj : nat -> Z -> dict -> option (dict * nat))
    (i : nat) (line : str) (li : Z) :
  blank_or_comment (strip line) = false -> list_stop li line ->
  list_iter call_obj i line li = Some LBreak.
Proof.
  unfold list_iter, list_stop. intros Hc [Hlt|[Heq Hd]]; rewrite Hc.
  - replace (get_indent line <? li) with true by (symmetry; apply Z.ltb_lt; lia).
    reflexivity.
  - rewrite Heq, Z.ltb_irrefl, Hd.
    replace (li >? li) with false by (symmetry; rewrite Z.gtb_ltb; apply Z.ltb_irrefl).
    reflexivity.
Qed.

Lemma list_obj_loop_end (lines : list str) (fuel : nat) :
  (forall i li res v i',
      list_loop fuel lines i li res = Some (v, i') -> ends_at lines (list_stop li) i')
  /\ (forall j indent obj obj' j',
      obj_loop fuel lines j indent obj = Some (obj', j') ->
      ends_at lines (obj_stop indent) j').
Proof.
  induction fuel as [|f [IHl IHo]]; [split; intros; discriminate|].
  split.
  - intros i li res v i'. cbn [list_loop].
    destruct (nth_error lines i) as [line|] eqn:Hline.
    + destruct (list_iter _ i line li) as [[|x i1|i1]|] eqn:E; try discriminate.
      * intro H; inversion H; subst. unfold ends_at. rewrite Hline.
        eapply list_iter_break; eassumption.
      * apply IHl.
      * apply IHl.
    + intro H; inversion H; subst. unfold ends_at. now rewrite Hline.
  - intros j indent obj obj' j'. cbn [obj_loop].
    destruct (nth_error lines j) as [sub|] eqn:Hline.
    + destruct (obj_iter _ lines j sub indent) as [[|k x j1|j1]|] eqn:E; try discriminate.
      * intro H; inversion H; subst. unfold ends_at. rewrite Hline.
        eapply obj_iter_break; eassumption.
      * apply IHo.
      * apply IHo.
    + intro H; inversion H; subst. unfold ends_at. now rewrite Hline.
Qed.

Lemma block_loop_end (lines : list str) (fuel : nat) :
  forall i p res m i',
    block_loop fuel lines i p res = Some (VMap m, i') ->
    ends_at lines (block_stop p) i'.
Proof.
  induction fuel as [|f IH]; [intros; discriminate|].
  intros i p res m i'. cbn [block_loop].
  destruct (nth_error lines i) as [line|] eqn:Hline.
  - destruct (block_iter _ _ lines i line p) as [[|lst i1|k x i1|i1]|] eqn:E;
      try discriminate.
    + intro H; inversion H; subst. unfold ends_at. rewrite Hline.
      eapply block_iter_break; eassumption.
    + intro H; inversion H; subst. exfalso.
      unfold block_iter, bind in E.
      repeat break_match_in E; inversion E; subst.
      match goal with
      | L : list_loop _ _ _ _ _ = Some _ |- _ =>
          apply list_loop_seq in L; destruct L as [l Hl]; discriminate
      end.
    + apply IH.
    + apply IH.
  - intro H; inversion H; subst. unfold ends_at. now rewrite Hline.
Qed.

Section IterBarrier.

Variable call_block : nat -> Z -> option (Value * nat).
Variable call_list : nat -> Z -> option (Value * nat).
Variable call_obj : nat -> Z -> dict -> option (dict * nat).
Variable lines : list str.

(** A line with content, at index [k]. *)
Variable k : nat.
Variable kline : str.
Hypothesis kline_at : nth_error lines k = Some kline.
Hypothesis kline_content : blank_or_comment (strip kline) = false.

Hypothesis call_block_bar :
  forall s p v i', (s <= k)%nat -> get_indent kline <= p ->
    call_block s p = Some (v, i') -> (i' <= k)%nat.
Hypothesis call_list_bar :
  forall s p v i', (s <= k)%nat -> get_indent kline < p ->
    call_list s p = Some (v, i') -> (i' <= k)%nat.
Hypothesis call_obj_bar :
  forall s p o o' j, (s <= k)%nat -> get_indent kline <= p ->
    call_obj s p o = Some (o', j) -> (j <= k)%nat.

Lemma obj_iter_bar (j : nat) (sub : str) (indent : Z) (step : obj_step) (j' : nat) :
  (j < k)%nat -> get_indent kline <= indent ->
  obj_iter call_list lines j sub indent = Some step ->
  obj_index step = Some j' -> (j' <= k)%nat.
Proof.
  unfold obj_iter, bind. intros Hj Hind H.
  assert (Hskip : (skip_blank lines (j + 1) <= k)%nat)
    by (eapply skip_blank_content; eauto using content_not_blank; lia).
  repeat break_match_in H; inversion H; subst; simpl;
    intro E; inversion E; subst; try lia.
  bool_to_prop.
  match goal with
  | C : call_list _ _ = Some _ |- _ => apply call_list_bar in C; [assumption|lia|lia]
  end.
Qed.

Lemma list_iter_bar (i : nat) (line : str) (li : Z) (step : list_step) (i' : nat) :
  (i < k)%nat -> get_indent kline <= li ->
  list_iter call_obj i line li = Some step ->
  list_index step = Some i' -> (i' <= k)%nat.
Proof.
  unfold list_iter, bind. intros Hi Hind H.
  repeat break_match_in H; inversion H; subst; simpl;
    intro E; inversion E; subst; try lia.
  bool_to_prop.
  match goal with
  | C : call_obj _ _ _ = Some _ |- _ => apply call_obj_bar in C; [assumption|lia|lia]
  end.
Qed.

Lemma block_iter_bar (i : nat) (line : str) (p : Z) (step : block_step) (i' : nat) :
  (i < k)%nat -> get_indent kline <= p ->
  block_iter call_block call_list lines i line p = Some step ->
  block_index step = Some i' -> (i' <= k)%nat.
Proof.
  unfold block_iter, child_value, bind. intros Hi Hind H.
  assert (Hskip : (skip_blank lines (i + 1) <= k)%nat)
    by (eapply skip_blank_content; eauto using content_not_blank; lia).
  repeat break_match_in H; inversion H; subst; simpl;
    intro E; inversion E; subst; try lia;
    repeat match goal with
      | C : (if ?b then _ else _) = Some _ |- _ => destruct b
      end;
    bool_to_prop;
    match goal with
    | C : call_list _ _ = Some _ |- _ => apply call_list_bar in C; [assumption|lia|lia]
    | C : call_block _ _ = Some _ |- _ => apply call_block_bar in C; [assumption|lia|lia]
    end.
Qed.

End IterBarrier.

Lemma list_obj_loop_bar (lines : list str) (k : nat) (kline : str) (fuel : nat) :
  nth_error lines k = Some kline ->
  blank_or_comment (strip kline) = false ->
  (forall i li res v i', (i <= k)%nat -> list_stop li kline ->
      list_loop fuel lines i li res = Some (v, i') -> (i' <= k)%nat)
  /\ (forall j indent obj obj' j', (j <= k)%nat -> get_indent kline <= indent ->
      obj_loop fuel lines j indent obj = Some (obj', j') -> (j' <= k)%nat).
Proof.
  intros Hk Hkc.
  induction fuel as [|f [IHl IHo]]; [split; intros; discriminate|].
  split.
  - intros i li res v i' Hi Hstop. cbn [list_loop].
    destruct (Nat.eq_dec i k) as [->|Hne].
    + rewrite Hk, (list_iter_at_stop _ k kline li Hkc Hstop).
      intro H; inversion H; subst; lia.
    + destruct (nth_error lines i) as [line|] eqn:Hline;
        [|apply nth_error_None in Hline;
          assert (k < length lines)%nat by (apply nth_error_Some; congruence); lia].
      destruct (list_iter _ i line li) as [step|] eqn:E; [|discriminate].
      assert (Hle : get_indent kline <= li) by (destruct Hstop as [?|[? _]]; lia).
      pose proof (list_iter_bar (fun j ind obj => obj_loop f lines j ind obj) k kline
                    IHo i line li step) as Hbar.
      destruct step as [|x i1|i1]; intro H.
      * inversion H; subst; lia.
      * eapply IHl; [|exact Hstop|exact H]. eapply Hbar; eauto; lia.
      * eapply IHl; [|exact Hstop|exact H]. eapply Hbar; eauto; lia.
  - intros j indent obj obj' j' Hj Hind. cbn [obj_loop].
    destruct (Nat.eq_dec j k) as [->|Hne].
    + rewrite Hk. unfold obj_iter. rewrite Hkc.
      replace (get_indent kline <=? indent) with true by (symmetry; apply Z.leb_le; lia).
      intro H; inversion H; subst; lia.
    + destruct (nth_error lines j) as [sub|] eqn:Hline;
        [|apply nth_error_None in Hline;
          assert (k < length lines)%nat by (apply nth_error_Some; congruence); lia].
      destruct (obj_iter _ lines j sub indent) as [step|] eqn:E; [|discriminate].
      pose proof (obj_iter_bar (fun s q => list_loop f lines s q []) lines k kline Hk Hkc
                    (fun s q v i' Hs Hq => IHl s q [] v i' Hs (or_introl Hq))
                    j sub indent step) as Hbar.
      destruct step as [|key x j1|j1]; intro H.
      * inversion H; subst; lia.
      * eapply IHo; [|exact Hind|exact H]. eapply Hbar; eauto; lia.
      * eapply IHo; [|exact Hind|exact H]. eapply Hbar; eauto; lia.
Qed.

Lemma block_loop_bar (lines : list str) (k : nat) (kline : str) (fuel : nat) :
  nth_error lines k = Some kline ->
  blank_or_comment (strip kline) = false ->
  forall i p res v i', (i <= k)%nat -> get_indent kline <= p ->
    block_loop fuel lines i p res = Some (v, i') -> (i' <= k)%nat.
Proof.
  intros Hk Hkc.
  induction fuel as [|f IH]; [intros; discriminate|].
  intros i p res v i' Hi Hind. cbn [block_loop].
  destruct (Nat.eq_dec i k) as [->|Hne].
  - rewrite Hk. unfold block_iter. rewrite Hkc.
    replace (get_indent kline <=? p) with true by (symmetry; apply Z.leb_le; lia).
    intro H; inversion H; subst; lia.
  - destruct (nth_error lines i) as [line|] eqn:Hline;
      [|apply nth_error_None in Hline;
        assert (k < length lines)%nat by (apply nth_error_Some; congruence); lia].
    destruct (block_iter _ _ lines i line p) as [step|] eqn:E; [|discriminate].
    pose proof (block_iter_bar (fun s q => block_loop f lines s q [])
                  (fun s q => list_loop f lines s q []) lines k kline Hk Hkc
                  (fun s q v i' => IH s q [] v i')
                  (fun s q v i' Hs Hq =>
                     proj1 (list_obj_loop_bar lines k kline f Hk Hkc) s q [] v i' Hs
                       (or_introl Hq))
                  i line p step) as Hbar.
    destruct step as [|lst i1|key x i1|i1]; intro H.
    + inversion H; subst; lia.
    + inversion H; subst. eapply Hbar; eauto; lia.
    + eapply IH; [|exact Hind|exact H]. eapply Hbar; eauto; lia.
    + eapply IH; [|exact Hind|exact H]. eapply Hbar; eauto; lia.
Qed.

(** X8: where a block ends.  A block never reads past a line with content
    that is indented no deeper than its parent; and a block that comes out
    as a mapping ends exactly at the first such line at or after its start,
    or past the last line when there is none. *)
Theorem block_ends_at_parent_indent (lines : list str) (fuel i : nat) (p : Z)
    (res : dict) (v : Value) (i' : nat) :
  block_loop fuel lines i p res = Some (v, i') ->
  (forall k kline,
      (i <= k)%nat -> nth_error lines k = Some kline ->
      blank_or_comment (strip kline) = false -> get_indent kline <= p ->
      (i' <= k)%nat)
  /\ (is_map v -> ends_at lines (block_stop p) i').
Proof.
  intro H. split.
  - intros k kline Hi Hk Hkc Hind. eapply block_loop_bar; eassumption.
  - intros [m ->]. eapply block_loop_end; eassumption.
Qed.

Lemma block_ends_at_parent_indent_witness :
  (forall k kline,
      (1 <= k)%nat ->
      nth_error [lit "a:"; lit "  b: 1"; lit ""; lit "  c: 2"; lit "d: 3"] k = Some kline ->
      blank_or_comment (strip kline) = false -> get_indent kline <= 0 ->
      (4 <= k)%nat)
  /\ (is_map (VMap [(lit "b", VStr (lit "1")); (lit "c", VStr (lit "2"))]) ->
      ends_at [lit "a:"; lit "  b: 1"; lit ""; lit "  c: 2"; lit "d: 3"] (block_stop 0) 4).
Proof.
  apply (block_ends_at_parent_indent
           [lit "a:"; lit "  b: 1"; lit ""; lit "  c: 2"; lit "d: 3"] 7 1 0 []).
  reflexivity.
Defined.

(** X9: where a list ends.  The list parser stops at a line with content
    that is indented less than the list, or as much as the list without
    being a dash line: it never reads past such a line, and the index it
    returns is at such a line or past the last line. *)
Theorem list_ends_at_list_indent (lines : list str) (fuel i : nat) (li : Z)
    (res : list Value) (v : Value) (i' : nat) :
  list_loop fuel lines i li res = Some (v, i') ->
  (forall k kline,
      (i <= k)%nat -> nth_error lines k = Some kline ->
      blank_or_comment (strip kline) = false -> list_stop li kline ->
      (i' <= k)%nat)
  /\ ends_at lines (list_stop li) i'.
Proof.
  intro H. split.
  - intros k kline Hi Hk Hkc Hstop.
    eapply (proj1 (list_obj_loop_bar lines k kline fuel Hk Hkc)); eassumption.
  - eapply (proj1 (list_obj_loop_end lines fuel)); eassumption.
Qed.

Lemma list_ends_at_list_indent_witness :
  (forall k kline,
      (1 <= k)%nat ->
      nth_error [lit "l:"; lit "  - a: 1"; lit "    b: 2"; lit "  - c"; lit "  d: 3"] k
      = Some kline ->
      blank_or_comment (strip kline) = false -> list_stop 2 kline ->
      (4 <= k)%nat)
  /\ ends_at [lit "l:"; lit "  - a: 1"; lit "    b: 2"; lit "  - c"; lit "  d: 3"]
       (list_stop 2) 4.
Proof.
  apply (list_ends_at_list_indent
           [lit "l:"; lit "  - a: 1"; lit "    b: 2"; lit "  - c"; lit "  d: 3"]
           7 1 2 []
           (VSeq [VMap [(lit "a", VStr (lit "1")); (lit "b", VStr (lit "2"))];
                  VStr (lit "c")])).
  reflexivity.
Defined.

(** ** Documents without content *)

Lemma block_loop_no_content (lines : list str) (p : Z) (fuel : nat) :
  (forall l, In l lines -> blank_or_comment (strip l) = true) ->
  forall i res, (i <= length lines)%nat -> (length lines - i < fuel)%nat ->
    block_loop fuel lines i p res = Some (VMap res, length lines).
Proof.
  intro Hall. induction fuel as [|f IH]; intros i res Hi Hf; [lia|].
  cbn [block_loop].
  destruct (nth_error lines i) as [line|] eqn:Hline.
  - assert (Hlt : (i < length lines)%nat) by (apply nth_error_Some; congruence).
    unfold block_iter. rewrite (Hall line (nth_error_In _ _ Hline)).
    apply IH; lia.
  - apply nth_error_None in Hline. repeat f_equal. lia.
Qed.

(** X10: a document in which every line is blank or a comment, the empty
    document among them, parses to the empty mapping. *)
Theorem parse_yaml_no_content (text : str) :
  (forall l, In l (split_nl text) -> blank_or_comment (strip l) = true) ->
  parse_yaml text = Some (VMap []).
Proof.
  intro Hall. unfold parse_yaml, parse_block.
  rewrite (block_loop_no_content _ (-1) _ Hall) by (unfold parse_fuel; lia).
  reflexivity.
Qed.

Lemma parse_yaml_no_content_witness :
  parse_yaml (lit ("# portfolio" ++ nl ++ "   " ++ nl ++ "  # nothing yet" ++ nl))
  = Some (VMap []).
Proof.
  apply parse_yaml_no_content.
  intros l Hin. simpl in Hin.
  repeat (destruct Hin as [<-|Hin]; [reflexivity|]). contradiction.
Defined.

(** ** Keys of the mappings *)

Lemma drop_while_head (p : char -> bool) (s : str) (c : char) (r : str) :
  drop_while p s = c :: r -> p c = false.
Proof.
  induction s as [|d s IH]; [discriminate|]. simpl.
  destruct (p d) eqn:E; [assumption|]. intro H. now injection H as <- _.
Qed.

Lemma drop_while_app_last (p : char -> bool) (l : str) (c : char) :
  p c = false -> drop_while p (l ++ [c]) = drop_while p l ++ [c].
Proof.
  intro Hc. induction l as [|d l IH]; simpl; [now rewrite Hc|].
  now destruct (p d).
Qed.

Lemma drop_while_idem (p : char -> bool) (s : str) :
  drop_while p (drop_while p s) = drop_while p s.
Proof.
  destruct (drop_while p s) as [|c r] eqn:E; [reflexivity|].
  simpl. now rewrite (drop_while_head p s c r E).
Qed.

Lemma rstrip_cons (c : char) (y : str) :
  is_space c = false -> rstrip (c :: y) = c :: rstrip y.
Proof.
  intro Hc. unfold rstrip. simpl.
  rewrite drop_while_app_last by assumption.
  now rewrite rev_app_distr.
Qed.

Lemma rstrip_idem (y : str) : rstrip (rstrip y) = rstrip y.
Proof. unfold rstrip. now rewrite rev_involutive, drop_while_idem. Qed.

Lemma strip_nospace_head (c : char) (y : str) :
  is_space c = false -> strip (c :: y) = c :: rstrip y.
Proof.
  intro Hc. unfold strip, lstrip. simpl. rewrite Hc. now apply rstrip_cons.
Qed.

Lemma strip_head (s : str) (c : char) (r : str) :
  strip s = c :: r -> is_space c = false.
Proof.
  unfold strip, lstrip. destruct (drop_while is_space s) as [|d z] eqn:E;
    [discriminate|].
  pose proof (drop_while_head _ _ _ _ E) as Hd.
  rewrite rstrip_cons by assumption. intro H. now injection H as <- _.
Qed.

Lemma strip_idem (s : str) : strip (strip s) = strip s.
Proof.
  destruct (strip s) as [|c r] eqn:E; [reflexivity|].
  pose proof (strip_head s c r E) as Hc.
  rewrite strip_nospace_head by assumption.
  assert (H : rstrip (c :: r) = c :: r).
  { rewrite <- E. unfold strip. apply rstrip_idem. }
  rewrite rstrip_cons in H by assumption. now injection H as ->.
Qed.

Lemma forallb_drop_while (p q : char -> bool) (s : str) :
  forallb p s = true -> forallb p (drop_while q s) = true.
Proof.
  induction s as [|c s IH]; [trivial|]. simpl. intro H.
  destruct (q c); [|exact H].
  apply andb_prop in H. now apply IH.
Qed.

Lemma forallb_rev (p : char -> bool) (s : str) :
  forallb p s = true -> forallb p (rev s) = true.
Proof.
  rewrite !forallb_forall. intros H x Hx. apply H. now apply in_rev.
Qed.

Lemma forallb_strip (p : char -> bool) (s : str) :
  forallb p s = true -> forallb p (strip s) = true.
Proof.
  intro H. unfold strip, rstrip, lstrip.
  now apply forallb_rev, forallb_drop_while, forallb_rev, forallb_drop_while.
Qed.

Lemma take_while_forallb (p : char -> bool) (s : str) :
  forallb p (take_while p s) = true.
Proof.
  induction s as [|c s IH]; [reflexivity|]. simpl.
  destruct (p c) eqn:E; [|reflexivity]. simpl. now rewrite E.
Qed.

(** The key a matched line gives is never empty, has no colon and is
    trimmed. *)
Lemma match_kv_key_ok (x g1 g2 : str) :
  match_kv (strip x) = Some (g1, g2) -> key_ok (strip g1) = true.
Proof.
  unfold match_kv.
  set (not_colon := fun c : N => negb (N.eqb c 58)).
  destruct (take_while not_colon (strip x)) as [|c g] eqn:Eg; [discriminate|].
  destruct (drop_while not_colon (strip x)) as [|d rest]; [discriminate|].
  intro H. injection H as <- _.
  assert (Hc : is_space c = false).
  { destruct (strip x) as [|c0 r] eqn:Ex; [discriminate|].
    simpl in Eg. destruct (not_colon c0); [|discriminate].
    injection Eg as <- _. eapply strip_head; eassumption. }
  assert (Hall : forallb not_colon (c :: g) = true)
    by (rewrite <- Eg; apply take_while_forallb).
  unfold key_ok. repeat (apply andb_true_intro; split).
  - now rewrite strip_nospace_head.
  - apply forallb_strip. exact Hall.
  - rewrite strip_idem. apply str_eqb_refl.
Qed.

Lemma distinct_app_new (ks : list str) (k : str) :
  distinct ks = true ->
  existsb (fun k' => str_eqb k' k) ks = false ->
  distinct (ks ++ [k]) = true.
Proof.
  induction ks as [|a ks IH]; [reflexivity|]. simpl.
  intros Hd Hex. apply andb_prop in Hd. destruct Hd as [Ha Hd].
  apply orb_false_elim in Hex. destruct Hex as [Hak Hex].
  rewrite existsb_app. simpl. rewrite Hak, orb_false_r, Ha. simpl.
  now apply IH.
Qed.

Lemma dict_set_wf (k : str) (v : Value) (d : dict) :
  key_ok k = true -> wf_value v = true ->
  wf_value (VMap d) = true -> wf_value (VMap (dict_set k v d)) = true.
Proof.
  intros Hk Hv. cbn [wf_value]. intro Hd.
  apply andb_prop in Hd. destruct Hd as [Hall Hdis].
  apply andb_true_intro. split.
  - clear Hdis. induction d as [|[k' v'] d IH]; simpl.
    + now rewrite Hk, Hv.
    + simpl in Hall. apply andb_prop in Hall. destruct Hall as [Hkv Hall].
      apply andb_prop in Hkv. destruct Hkv as [Hk' Hv'].
      destruct (str_eqb k' k); simpl.
      * now rewrite Hk', Hv, Hall.
      * rewrite Hk', Hv'. simpl. now apply IH.
  - rewrite dict_set_keys.
    destruct (existsb _ _) eqn:E; [assumption|].
    now apply distinct_app_new.
Qed.

Lemma parse_scalar_fuel_wf (fuel : nat) :
  forall val v, parse_scalar_fuel fuel val = Some v -> wf_value v = true.
Proof.
  induction fuel as [|f IH]; intros val v; [discriminate|].
  cbn [parse_scalar_fuel].
  destruct (is_empty (strip val)); [intro E; now injection E as <-|].
  destruct (str_eqb _ (lit "true") || _); [intro E; now injection E as <-|].
  destruct (str_eqb _ (lit "false") || _); [intro E; now injection E as <-|].
  destruct (str_eqb _ (lit "null") || _); [intro E; now injection E as <-|].
  destruct (startswith dquote _ && _ || _); [intro E; now injection E as <-|].
  destruct (startswith (lit "[") _ && _); [|intro E; now injection E as <-].
  destruct (map_opt _ _) as [bs|] eqn:Ebs; [|discriminate].
  simpl. intro E. injection E as <-. simpl.
  eapply map_opt_forallb; [|exact Ebs]. exact IH.
Qed.

Lemma parse_scalar_wf (val : str) (v : Value) :
  parse_scalar val = Some v -> wf_value v = true.
Proof. apply parse_scalar_fuel_wf. Qed.

Section IterWf.

Variable call_block : nat -> Z -> option (Value * nat).
Variable call_list : nat -> Z -> option (Value * nat).
Variable call_obj : nat -> Z -> dict -> option (dict * nat).
Variable lines : list str.

Hypothesis call_block_wf :
  forall s p v i', call_block s p = Some (v, i') -> wf_value v = true.
Hypothesis call_list_wf :
  forall s p v i', call_list s p = Some (v, i') -> wf_value v = true.
Hypothesis call_obj_wf :
  forall s p o o' j, wf_value (VMap o) = true ->
    call_obj s p o = Some (o', j) -> wf_value (VMap o') = true.

Lemma obj_iter_wf (j : nat) (sub : str) (indent : Z) (k : str) (v : Value) (j' : nat) :
  obj_iter call_list lines j sub indent = Some (OAssign k v j') ->
  key_ok k = true /\ wf_value v = true.
Proof.
  unfold obj_iter, bind. intro H.
  repeat break_match_in H; inversion H; subst;
    (split; [eapply match_kv_key_ok; eassumption|]);
    try reflexivity;
    eauto using parse_scalar_wf.
Qed.

Lemma list_iter_wf (i : nat) (line : str) (li : Z) (v : Value) (i' : nat) :
  list_iter call_obj i line li = Some (LAppend v i') -> wf_value v = true.
Proof.
  unfold list_iter, bind. intro H.
  repeat break_match_in H; inversion H; subst; eauto using parse_scalar_wf.
  eapply call_obj_wf; [|eassumption].
  cbn [wf_value forallb map fst snd distinct existsb].
  match goal with
  | M : match_kv _ = Some _ |- _ => rewrite (match_kv_key_ok _ _ _ M)
  end.
  match goal with
  | P : parse_scalar _ = Some _ |- _ => rewrite (parse_scalar_wf _ _ P)
  end.
  reflexivity.
Qed.

Lemma block_iter_wf (i : nat) (line : str) (p : Z) (step : block_step) :
  block_iter call_block call_list lines i line p = Some step ->
  match step with
  | BReturn v _ => wf_value v = true
  | BAssign k v _ => key_ok k = true /\ wf_value v = true
  | _ => True
  end.
Proof.
  unfold block_iter, child_value, bind. intro H.
  repeat break_match_in H; inversion H; subst; try exact I;
    try (split; [eapply match_kv_key_ok; eassumption|]);
    try reflexivity;
    repeat match goal with
      | C : (if ?b then _ else _) = Some _ |- _ => destruct b
      end;
    eauto using parse_scalar_wf.
Qed.

End IterWf.

Lemma list_obj_loop_wf (lines : list str) (fuel : nat) :
  (forall i li res v i',
      forallb wf_value res = true ->
      list_loop fuel lines i li res = Some (v, i') -> wf_value v = true)
  /\ (forall j indent obj obj' j',
      wf_value (VMap obj) = true ->
      obj_loop fuel lines j indent obj = Some (obj', j') -> wf_value (VMap obj') = true).
Proof.
  induction fuel as [|f [IHl IHo]]; [split; intros; discriminate|].
  split.
  - intros i li res v i' Hres. cbn [list_loop].
    destruct (nth_error lines i) as [line|];
      [|intro H; inversion H; subst; exact Hres].
    destruct (list_iter _ i line li) as [[|x i1|i1]|] eqn:E; try discriminate.
    + intro H; inversion H; subst; exact Hres.
    + apply list_iter_wf in E; [|exact IHo].
      apply IHl. rewrite forallb_app, Hres. simpl. now rewrite E.
    + now apply IHl.
  - intros j indent obj obj' j' Hobj. cbn [obj_loop].
    destruct (nth_error lines j) as [sub|];
      [|intro H; inversion H; subst; exact Hobj].
    destruct (obj_iter _ lines j sub indent) as [[|k x j1|j1]|] eqn:E; try discriminate.
    + intro H; inversion H; subst; exact Hobj.
    + apply obj_iter_wf in E; [|intros s q v i'; now apply IHl].
      destruct E as [Hk Hx]. apply IHo. now apply dict_set_wf.
    + now apply IHo.
Qed.

Lemma block_loop_wf (lines : list str) (fuel : nat) :
  forall i p res v i',
    wf_value (VMap res) = true ->
    block_loop fuel lines i p res = Some (v, i') -> wf_value v = true.
Proof.
  induction fuel as [|f IH]; [intros; discriminate|].
  intros i p res v i' Hres. cbn [block_loop].
  destruct (nth_error lines i) as [line|];
    [|intro H; inversion H; subst; exact Hres].
  destruct (block_iter _ _ lines i line p) as [step|] eqn:E; [|discriminate].
  apply block_iter_wf in E;
    [| intros s q v0 i0; now apply IH
     | intros s q v0 i0; now apply (proj1 (list_obj_loop_wf lines f)) ].
  destruct step as [|lst i1|k x i1|i1].
  - intro H; inversion H; subst; exact Hres.
  - intro H; inversion H; subst; exact E.
  - destruct E as [Hk Hx]. apply IH. now apply dict_set_wf.
  - now apply IH.
Qed.

(** X11: in every mapping of a parsed tree, at any depth, the keys are all
    different, and each key is non-empty, free of colons and trimmed. *)
Theorem parse_yaml_wf (text : str) (v : Value) :
  parse_yaml text = Some v -> wf_value v = true.
Proof.
  unfold parse_yaml, parse_block, bind.
  destruct (block_loop _ _ 0 (-1) []) as [[v0 i']|] eqn:E; [|discriminate].
  intro H. injection H as <-.
  eapply block_loop_wf; [|exact E]. reflexivity.
Qed.

Lemma parse_yaml_wf_witness :
  wf_value
    (VMap [(lit "a b", VStr (lit "2"));
           (lit "l", VSeq [VMap [(lit "k", VStr (lit "v")); (lit "m", VStr [])]])])
  = true.
Proof.
  apply (parse_yaml_wf
           (lit (" a b : 1" ++ nl ++ "l:" ++ nl ++ "  - k: v" ++ nl ++ "    m:" ++ nl
                 ++ "a b: 2"))).
  reflexivity.
Defined.

(** ** White space at the end of a line *)

Lemma drop_while_all_app (p : char -> bool) (a b : str) :
  forallb p a = true -> drop_while p (a ++ b) = drop_while p b.
Proof.
  induction a as [|c a IH]; [trivial|]. simpl. intro H.
  apply andb_prop in H. destruct H as [Hc Ha]. rewrite Hc. now apply IH.
Qed.

Lemma drop_while_app_content (p : char -> bool) (a b : str) :
  drop_while p a <> [] -> drop_while p (a ++ b) = drop_while p a ++ b.
Proof.
  induction a as [|c a IH]; [intro H; now destruct H|]. simpl.
  destruct (p c); [exact IH|reflexivity].
Qed.

Lemma rstrip_app_space (x ws : str) :
  forallb is_space ws = true -> rstrip (x ++ ws) = rstrip x.
Proof.
  intro H. unfold rstrip. rewrite rev_app_distr.
  rewrite drop_while_all_app; [reflexivity|]. now apply forallb_rev.
Qed.

Lemma trailing_space_same_text (a b : str) : trailing_space a b -> same_text a b.
Proof.
  intros [ws [Hws ->]]. unfold same_text, strip, get_indent, lstrip.
  destruct (drop_while is_space a) as [|c r] eqn:E.
  - assert (Hall : drop_while is_space (a ++ ws) = []).
    { clear -E Hws. induction a as [|d a IH]; simpl in *.
      - rewrite <- (app_nil_r ws). rewrite drop_while_all_app; [reflexivity|assumption].
      - destruct (is_space d); [now apply IH|discriminate]. }
    rewrite Hall. split; [reflexivity|]. intro H. vm_compute in H. discriminate.
  - rewrite drop_while_app_content by (rewrite E; discriminate).
    rewrite E. split.
    + symmetry. now apply rstrip_app_space.
    + intros _. rewrite !length_app. lia.
Qed.

Lemma Forall2_nth_error_l {A B : Type} (R : A -> B -> Prop) (l : list A) (l' : list B) :
  Forall2 R l l' ->
  forall i,
    match nth_error l i, nth_error l' i with
    | Some a, Some b => R a b
    | None, None => True
    | _, _ => False
    end.
Proof.
  induction 1 as [|a b l l' Hab _ IH]; intros [|i]; simpl; auto.
  apply IH.
Qed.

Lemma Forall2_skipn {A B : Type} (R : A -> B -> Prop) (l : list A) (l' : list B) (n : nat) :
  Forall2 R l l' -> Forall2 R (skipn n l) (skipn n l').
Proof.
  intro H. revert n. induction H as [|a b l l' Hab H IH]; intros [|n]; simpl;
    try constructor; auto.
Qed.

Lemma skip_blank_from_same (rest rest' : list str) :
  Forall2 same_text rest rest' ->
  forall ni, skip_blank_from rest' ni = skip_blank_from rest ni.
Proof.
  induction 1 as [|a b l l' [Hs _] _ IH]; intro ni; simpl; [reflexivity|].
  rewrite <- Hs. now destruct (is_empty (strip a)).
Qed.

Lemma skip_blank_same (lines lines' : list str) (ni : nat) :
  Forall2 same_text lines lines' -> skip_blank lines' ni = skip_blank lines ni.
Proof. intro H. apply skip_blank_from_same. now apply Forall2_skipn. Qed.

Lemma skip_blank_from_stops (rest : list str) :
  forall ni l,
    nth_error rest (skip_blank_from rest ni - ni) = Some l ->
    is_empty (strip l) = false.
Proof.
  induction rest as [|x rest IH]; intros ni l; simpl.
  - now destruct (ni - ni)%nat.
  - destruct (is_empty (strip x)) eqn:E.
    + pose proof (skip_blank_from_ge rest (S ni)) as Hge.
      replace (skip_blank_from rest (S ni) - ni)%nat
        with (S (skip_blank_from rest (S ni) - S ni)) by lia.
      simpl. apply IH.
    + rewrite Nat.sub_diag. simpl. intro H. now injection H as <-.
Qed.

(** The line the look-ahead stops at is not blank. *)
Lemma skip_blank_stops (lines : list str) (s : nat) (l : str) :
  nth_error lines (skip_blank lines s) = Some l -> is_empty (strip l) = false.
Proof.
  unfold skip_blank. intro H.
  apply (skip_blank_from_stops (skipn s lines) s).
  rewrite nth_error_skipn.
  pose proof (skip_blank_from_ge (skipn s lines) s).
  now replace (s + (skip_blank_from (skipn s lines) s - s))%nat
    with (skip_blank_from (skipn s lines) s) by lia.
Qed.

Section IterSame.

Variables call_block call_block' : nat -> Z -> option (Value * nat).
Variables call_list call_list' : nat -> Z -> option (Value * nat).
Variables call_obj call_obj' : nat -> Z -> dict -> option (dict * nat).
Variables lines lines' : list str.

Hypothesis lines_same : Forall2 same_text lines lines'.
Hypothesis call_block_same : forall s p, call_block' s p = call_block s p.
Hypothesis call_list_same : forall s p, call_list' s p = call_list s p.
Hypothesis call_obj_same : forall s p o, call_obj' s p o = call_obj s p o.

(** The line after a look-ahead, in both documents. *)
Lemma lookahead_same (s : nat) :
  match nth_error lines (skip_blank lines s), nth_error lines' (skip_blank lines s) with
  | Some a, Some b => strip b = strip a /\ get_indent b = get_indent a
  | None, None => True
  | _, _ => False
  end.
Proof.
  pose proof (Forall2_nth_error_l _ _ _ lines_same (skip_blank lines s)) as H.
  destruct (nth_error lines (skip_blank lines s)) as [a|] eqn:Ea;
    destruct (nth_error lines' (skip_blank lines s)) as [b|]; try exact H.
  destruct H as [Hs Hi]. split; [now symmetry|].
  symmetry. apply Hi. eapply skip_blank_stops; eassumption.
Qed.

Lemma block_iter_same (i : nat) (line line' : str) (p : Z) :
  same_text line line' ->
  block_iter call_block' call_list' lines' i line' p
  = block_iter call_block call_list lines i line p.
Proof.
  intros [Hs Hi]. unfold block_iter, child_value. rewrite <- Hs.
  destruct (blank_or_comment (strip line)) eqn:Hbc; [reflexivity|].
  rewrite <- Hi by now apply content_not_blank.
  rewrite (skip_blank_same lines lines' (i + 1) lines_same).
  rewrite call_list_same.
  pose proof (lookahead_same (i + 1)) as Hl.
  destruct (nth_error lines (skip_blank lines (i + 1))) as [a|];
    destruct (nth_error lines' (skip_blank lines (i + 1))) as [b|];
    try contradiction; [|reflexivity].
  destruct Hl as [-> ->].
  now rewrite call_list_same, call_block_same.
Qed.

Lemma list_iter_same (i : nat) (line line' : str) (li : Z) :
  same_text line line' ->
  list_iter call_obj' i line' li = list_iter call_obj i line li.
Proof.
  intros [Hs Hi]. unfold list_iter. rewrite <- Hs.
  destruct (blank_or_comment (strip line)) eqn:Hbc; [reflexivity|].
  rewrite <- Hi by now apply content_not_blank.
  repeat break_match_goal; try reflexivity; unfold bind;
    repeat break_match_goal; try reflexivity; try congruence;
    rewrite call_obj_same in *; congruence.
Qed.

Lemma obj_iter_same (j : nat) (sub sub' : str) (indent : Z) :
  same_text sub sub' ->
  obj_iter call_list' lines' j sub' indent = obj_iter call_list lines j sub indent.
Proof.
  intros [Hs Hi]. unfold obj_iter. rewrite <- Hs.
  destruct (blank_or_comment (strip sub)) eqn:Hbc; [reflexivity|].
  rewrite <- Hi by now apply content_not_blank.
  rewrite (skip_blank_same lines lines' (j + 1) lines_same).
  pose proof (lookahead_same (j + 1)) as Hl.
  destruct (nth_error lines (skip_blank lines (j + 1))) as [a|];
    destruct (nth_error lines' (skip_blank lines (j + 1))) as [b|];
    try contradiction; [|reflexivity].
  destruct Hl as [-> ->].
  now rewrite !call_list_same.
Qed.

End IterSame.

Lemma list_obj_loop_same (lines lines' : list str) (fuel : nat) :
  Forall2 same_text lines lines' ->
  (forall i li res, list_loop fuel lines' i li res = list_loop fuel lines i li res)
  /\ (forall j indent obj, obj_loop fuel lines' j indent obj = obj_loop fuel lines j indent obj).
Proof.
  intro Hsame. induction fuel as [|f [IHl IHo]]; [split; reflexivity|].
  split.
  - intros i li res. cbn [list_loop].
    pose proof (Forall2_nth_error_l _ _ _ Hsame i) as Hi.
    destruct (nth_error lines i) as [line|]; destruct (nth_error lines' i) as [line'|];
      try contradiction; [|reflexivity].
    rewrite (list_iter_same (fun j ind obj => obj_loop f lines j ind obj)
               (fun j ind obj => obj_loop f lines' j ind obj)
               IHo i line line' li Hi).
    destruct (list_iter _ i line li) as [[|x i1|i1]|]; auto.
  - intros j indent obj. cbn [obj_loop].
    pose proof (Forall2_nth_error_l _ _ _ Hsame j) as Hj.
    destruct (nth_error lines j) as [sub|]; destruct (nth_error lines' j) as [sub'|];
      try contradiction; [|reflexivity].
    rewrite (obj_iter_same (fun s q => list_loop f lines s q [])
               (fun s q => list_loop f lines' s q []) lines lines' Hsame
               (fun s q => IHl s q []) j sub sub' indent Hj).
    destruct (obj_iter _ lines j sub indent) as [[|k x j1|j1]|]; auto.
Qed.

Lemma block_loop_same (lines lines' : list str) (fuel : nat) :
  Forall2 same_text lines lines' ->
  forall i p res, block_loop fuel lines' i p res = block_loop fuel lines i p res.
Proof.
  intro Hsame. induction fuel as [|f IH]; [reflexivity|].
  intros i p res. cbn [block_loop].
  pose proof (Forall2_nth_error_l _ _ _ Hsame i) as Hi.
  destruct (nth_error lines i) as [line|]; destruct (nth_error lines' i) as [line'|];
    try contradiction; [|reflexivity].
  rewrite (block_iter_same (fun s q => block_loop f lines s q [])
             (fun s q => block_loop f lines' s q [])
             (fun s q => list_loop f lines s q [])
             (fun s q => list_loop f lines' s q []) lines lines' Hsame
             (fun s q => IH s q [])
             (fun s q => proj1 (list_obj_loop_same lines lines' f Hsame) s q [])
             i line line' p Hi).
  destruct (block_iter _ _ lines i line p) as [[|lst i1|k x i1|i1]|]; auto.
Qed.

(** X12: white space at the end of lines is never significant: adding it to
    any lines of a document, a carriage return before each newline for one,
    changes neither the tree a block parses to nor the index it ends at. *)
Theorem trailing_space_ignored (lines lines' : list str) (i : nat) (p : Z) :
  Forall2 trailing_space lines lines' ->
  parse_block lines' i p = parse_block lines i p.
Proof.
  intro H. unfold parse_block, parse_fuel.
  rewrite <- (Forall2_length H).
  apply block_loop_same.
  eapply Forall2_impl; [|exact H]. apply trailing_space_same_text.
Qed.

Lemma trailing_space_ignored_witness :
  parse_block [lit "a:" ++ [13%N]; lit "  b: 1  " ++ [13%N]; lit ""] 0 (-1)
  = parse_block [lit "a:"; lit "  b: 1"; lit ""] 0 (-1).
Proof.
  apply trailing_space_ignored.
  repeat constructor.
  - exists [13%N]. split; reflexivity.
  - exists (lit "  " ++ [13%N]). split; reflexivity.
  - exists []. split; reflexivity.
Defined.

(** ** Blank lines *)

Lemma skip_blank_from_S (rest : list str) (n : nat) :
  skip_blank_from rest (S n) = S (skip_blank_from rest n).
Proof.
  revert n. induction rest as [|l rest IH]; intro n; simpl; [reflexivity|].
  destruct (is_empty (strip l)); [apply IH|reflexivity].
Qed.

Lemma skip_blank_from_insert (a : list str) (b : str) (c : list str) :
  is_empty (strip b) = true ->
  forall n,
    skip_blank_from (a ++ b :: c) n =
    if (skip_blank_from (a ++ c) n <? n + length a)%nat
    then skip_blank_from (a ++ c) n
    else S (skip_blank_from (a ++ c) n).
Proof.
  intro Hb. induction a as [|x a IH]; intro n.
  - simpl. rewrite Hb, skip_blank_from_S.
    pose proof (skip_blank_from_ge c n).
    now replace (skip_blank_from c n <? n + 0)%nat with false
      by (symmetry; apply Nat.ltb_ge; lia).
  - simpl. destruct (is_empty (strip x)).
    + rewrite IH. now replace (n + S (length a))%nat with (S n + length a)%nat by lia.
    + now replace (n <? n + S (length a))%nat with true
        by (symmetry; apply Nat.ltb_lt; lia).
Qed.

Section Insert.

Variables l1 l2 : list str.
Variable b : str.
Hypothesis b_blank : is_empty (strip b) = true.

Lemma nth_error_shifted (i' i : nat) :
  shifted (length l1) i' i -> i' <> length l1 ->
  nth_error (l1 ++ b :: l2) i' = nth_error (l1 ++ l2) i.
Proof.
  intros [[Hle ->]|[Hlt ->]] Hne.
  - rewrite !nth_error_app1 by lia. reflexivity.
  - rewrite !nth_error_app2 by lia.
    now replace (S i - length l1)%nat with (S (i - length l1)) by lia.
Qed.

Lemma nth_error_inserted : nth_error (l1 ++ b :: l2) (length l1) = Some b.
Proof. rewrite nth_error_app2 by lia. now rewrite Nat.sub_diag. Qed.

Lemma shifted_next (i' i : nat) :
  shifted (length l1) i' i -> i' <> length l1 ->
  shifted (length l1) (i' + 1) (i + 1).
Proof. unfold shifted. lia. Qed.

(** The look-ahead lands on the same line in both documents. *)
Lemma skip_blank_shifted (s' s : nat) :
  shifted (length l1) s' s ->
  shifted (length l1) (skip_blank (l1 ++ b :: l2) s') (skip_blank (l1 ++ l2) s)
  /\ (s' <> length l1 -> skip_blank (l1 ++ b :: l2) s' <> length l1)
  /\ (s' = length l1 -> skip_blank (l1 ++ b :: l2) s' <> length l1).
Proof.
  unfold skip_blank. intros [[Hle ->]|[Hlt ->]].
  - rewrite !skipn_app.
    replace (s' - length l1)%nat with 0%nat by lia. cbn [skipn].
    rewrite (skip_blank_from_insert _ b l2 b_blank), length_skipn.
    pose proof (skip_blank_from_ge (skipn s' l1 ++ l2) s') as Hge.
    destruct (Nat.ltb_spec (skip_blank_from (skipn s' l1 ++ l2) s')
                (s' + (length l1 - s'))); unfold shifted; repeat split; lia.
  - rewrite !skipn_app.
    replace (skipn (S s) l1) with (@nil str) by (symmetry; apply skipn_all2; lia).
    replace (skipn s l1) with (@nil str) by (symmetry; apply skipn_all2; lia).
    replace (S s - length l1)%nat with (S (s - length l1)) by lia.
    cbn [skipn app]. rewrite skip_blank_from_S.
    pose proof (skip_blank_from_ge (skipn (s - length l1) l2) s) as Hge.
    unfold shifted; repeat split; lia.
Qed.

Variables call_block call_block' : nat -> Z -> option (Value * nat).
Variables call_list call_list' : nat -> Z -> option (Value * nat).
Variables call_obj call_obj' : nat -> Z -> dict -> option (dict * nat).

Hypothesis call_block_agree :
  forall s' s q v' r' v r, shifted (length l1) s' s ->
    call_block' s' q = Some (v', r') -> call_block s q = Some (v, r) ->
    v' = v /\ shifted (length l1) r' r.
Hypothesis call_list_agree :
  forall s' s q v' r' v r, shifted (length l1) s' s ->
    call_list' s' q = Some (v', r') -> call_list s q = Some (v, r) ->
    v' = v /\ shifted (length l1) r' r.
Hypothesis call_obj_agree :
  forall s' s q o o1' r' o1 r, shifted (length l1) s' s ->
    call_obj' s' q o = Some (o1', r') -> call_obj s q o = Some (o1, r) ->
    o1' = o1 /\ shifted (length l1) r' r.

Lemma block_iter_insert (i' i : nat) (line : str) (p : Z) (step' step : block_step) :
  shifted (length l1) i' i -> i' <> length l1 ->
  block_iter call_block' call_list' (l1 ++ b :: l2) i' line p = Some step' ->
  block_iter call_block call_list (l1 ++ l2) i line p = Some step ->
  block_step_rel (length l1) step' step.
Proof.
  intros Hsh Hne. unfold block_iter, child_value, bind.
  pose proof (shifted_next i' i Hsh Hne) as Hnext.
  destruct (skip_blank_shifted (i' + 1) (i + 1) Hnext) as (Hsk & Hsk1 & Hsk2).
  assert (Hskne : skip_blank (l1 ++ b :: l2) (i' + 1) <> length l1)
    by (destruct (Nat.eq_dec (i' + 1) (length l1)); auto).
  rewrite (nth_error_shifted _ _ Hsk Hskne).
  destruct (blank_or_comment (strip line)).
  { intros H' H; inversion H'; inversion H; subst; exact Hnext. }
  destruct (get_indent line <=? p).
  { intros H' H; inversion H'; inversion H; subst; exact I. }
  destruct (is_dash (strip line)).
  { destruct (call_list' i' _) as [[v' r']|] eqn:E'; [|discriminate].
    destruct (call_list i _) as [[v r]|] eqn:E; [|discriminate].
    intros H' H; inversion H'; inversion H; subst. simpl.
    eapply call_list_agree; [exact Hsh|eassumption|eassumption]. }
  destruct (match_kv (strip line)) as [[g1 g2]|];
    [|intros H' H; inversion H'; inversion H; subst; exact Hnext].
  destruct (is_empty (strip g2)).
  - destruct (nth_error (l1 ++ l2) (skip_blank (l1 ++ l2) (i + 1))) as [nline|];
      [|intros H' H; inversion H'; inversion H; subst; simpl; auto].
    destruct (get_indent nline >? get_indent line);
      [|intros H' H; inversion H'; inversion H; subst; simpl; auto].
    destruct (is_dash (strip nline)).
    + destruct (call_list' _ _) as [[v' r']|] eqn:E'; [|discriminate].
      destruct (call_list _ _) as [[v r]|] eqn:E; [|discriminate].
      intros H' H; inversion H'; inversion H; subst. simpl.
      split; [reflexivity|].
      eapply call_list_agree; [exact Hsk|eassumption|eassumption].
    + destruct (call_block' _ _) as [[v' r']|] eqn:E'; [|discriminate].
      destruct (call_block _ _) as [[v r]|] eqn:E; [|discriminate].
      intros H' H; inversion H'; inversion H; subst. simpl.
      split; [reflexivity|].
      eapply call_block_agree; [exact Hsk|eassumption|eassumption].
  - destruct (parse_scalar (strip g2)); [|discriminate].
    intros H' H; inversion H'; inversion H; subst; simpl; auto.
Qed.

Lemma list_iter_insert (i' i : nat) (line : str) (li : Z) (step' step : list_step) :
  shifted (length l1) i' i -> i' <> length l1 ->
  list_iter call_obj' i' line li = Some step' ->
  list_iter call_obj i line li = Some step ->
  list_step_rel (length l1) step' step.
Proof.
  intros Hsh Hne. unfold list_iter, bind.
  pose proof (shifted_next i' i Hsh Hne) as Hnext.
  destruct (blank_or_comment (strip line)).
  { intros H' H; inversion H'; inversion H; subst; exact Hnext. }
  destruct (get_indent line <? li).
  { intros H' H; inversion H'; inversion H; subst; exact I. }
  destruct ((get_indent line >? li) && negb (is_dash (strip line))).
  { intros H' H; inversion H'; inversion H; subst; exact Hnext. }
  destruct (is_dash (strip line));
    [|intros H' H; inversion H'; inversion H; subst; exact I].
  destruct (match_kv _) as [[g1 g2]|].
  - destruct (parse_scalar (strip g2)) as [v0|]; [|discriminate].
    destruct (call_obj' _ _ _) as [[o1' r']|] eqn:E'; [|discriminate].
    destruct (call_obj _ _ _) as [[o1 r]|] eqn:E; [|discriminate].
    intros H' H; inversion H'; inversion H; subst. simpl.
    destruct (call_obj_agree _ _ _ _ _ _ _ _ Hnext E' E) as [-> Hr]. auto.
  - destruct (parse_scalar _); [|discriminate].
    intros H' H; inversion H'; inversion H; subst; simpl; auto.
Qed.

Lemma obj_iter_insert (j' j : nat) (sub : str) (indent : Z) (step' step : obj_step) :
  shifted (length l1) j' j -> j' <> length l1 ->
  obj_iter call_list' (l1 ++ b :: l2) j' sub indent = Some step' ->
  obj_iter call_list (l1 ++ l2) j sub indent = Some step ->
  obj_step_rel (length l1) step' step.
Proof.
  intros Hsh Hne. unfold obj_iter, bind.
  pose proof (shifted_next j' j Hsh Hne) as Hnext.
  destruct (skip_blank_shifted (j' + 1) (j + 1) Hnext) as (Hsk & Hsk1 & Hsk2).
  assert (Hskne : skip_blank (l1 ++ b :: l2) (j' + 1) <> length l1)
    by (destruct (Nat.eq_dec (j' + 1) (length l1)); auto).
  rewrite (nth_error_shifted _ _ Hsk Hskne).
  destruct (blank_or_comment (strip sub)).
  { intros H' H; inversion H'; inversion H; subst; exact Hnext. }
  destruct (get_indent sub <=? indent).
  { intros H' H; inversion H'; inversion H; subst; exact I. }
  destruct (is_dash (strip sub)).
  { intros H' H; inversion H'; inversion H; subst; exact I. }
  destruct (match_kv (strip sub)) as [[g1 g2]|];
    [|intros H' H; inversion H'; inversion H; subst; exact Hnext].
  destruct (is_empty (strip g2)).
  - destruct (nth_error (l1 ++ l2) (skip_blank (l1 ++ l2) (j + 1))) as [nline|];
      [|intros H' H; inversion H'; inversion H; subst; simpl; auto].
    destruct ((get_indent nline >? get_indent sub) && is_dash (strip nline));
      [|intros H' H; inversion H'; inversion H; subst; simpl; auto].
    destruct (call_list' _ _) as [[v' r']|] eqn:E'; [|discriminate].
    destruct (call_list _ _) as [[v r]|] eqn:E; [|discriminate].
    intros H' H; inversion H'; inversion H; subst. simpl.
    split; [reflexivity|].
    eapply call_list_agree; [exact Hsk|eassumption|eassumption].
  - destruct (parse_scalar (strip g2)); [|discriminate].
    intros H' H; inversion H'; inversion H; subst; simpl; auto.
Qed.

End Insert.

Lemma blank_is_skipped (b : str) :
  is_empty (strip b) = true -> blank_or_comment (strip b) = true.
Proof. unfold blank_or_comment. now intros ->. Qed.

Lemma list_obj_loop_insert (l1 l2 : list str) (b : str) (fuel' : nat) :
  is_empty (strip b) = true ->
  (forall fuel i' i li res v' r' v r,
      shifted (length l1) i' i ->
      list_loop fuel' (l1 ++ b :: l2) i' li res = Some (v', r') ->
      list_loop fuel (l1 ++ l2) i li res = Some (v, r) ->
      v' = v /\ shifted (length l1) r' r)
  /\ (forall fuel j' j indent obj o' r' o r,
      shifted (length l1) j' j ->
      obj_loop fuel' (l1 ++ b :: l2) j' indent obj = Some (o', r') ->
      obj_loop fuel (l1 ++ l2) j indent obj = Some (o, r) ->
      o' = o /\ shifted (length l1) r' r).
Proof.
  intro Hb. induction fuel' as [|f' [IHl IHo]]; [split; intros; discriminate|].
  split.
  - intros fuel i' i li res v' r' v r Hsh. cbn [list_loop].
    destruct (Nat.eq_dec i' (length l1)) as [->|Hne].
    + rewrite nth_error_inserted. unfold list_iter at 1.
      rewrite (blank_is_skipped b Hb). intros H' H.
      eapply IHl; [|exact H'|exact H]. unfold shifted in *. lia.
    + rewrite (nth_error_shifted l1 l2 b _ _ Hsh Hne).
      destruct fuel as [|f]; [intros _ H; discriminate|]. cbn [list_loop].
      destruct (nth_error (l1 ++ l2) i) as [line|];
        [|intros H' H; inversion H'; inversion H; subst; auto].
      destruct (list_iter _ i' line li) as [step'|] eqn:E'; [|discriminate].
      destruct (list_iter _ i line li) as [step|] eqn:E; [|intros _ H; discriminate].
      assert (Hrel : list_step_rel (length l1) step' step).
      { eapply list_iter_insert; [|exact Hsh|exact Hne|exact E'|exact E].
        intros s' s q o o1' r1' o1 r1 Hs H1 H2.
        exact (IHo f s' s q o o1' r1' o1 r1 Hs H1 H2). }
      destruct step' as [|x' i1'|i1']; destruct step as [|x i1|i1];
        simpl in Hrel; try contradiction.
      * intros H' H; inversion H'; inversion H; subst; auto.
      * destruct Hrel as [-> Hr]. intros H' H. eapply IHl; eassumption.
      * intros H' H. eapply IHl; eassumption.
  - intros fuel j' j indent obj o' r' o r Hsh. cbn [obj_loop].
    destruct (Nat.eq_dec j' (length l1)) as [->|Hne].
    + rewrite nth_error_inserted. unfold obj_iter at 1.
      rewrite (blank_is_skipped b Hb). intros H' H.
      eapply IHo; [|exact H'|exact H]. unfold shifted in *. lia.
    + rewrite (nth_error_shifted l1 l2 b _ _ Hsh Hne).
      destruct fuel as [|f]; [intros _ H; discriminate|]. cbn [obj_loop].
      destruct (nth_error (l1 ++ l2) j) as [sub|];
        [|intros H' H; inversion H'; inversion H; subst; auto].
      destruct (obj_iter _ _ j' sub indent) as [step'|] eqn:E'; [|discriminate].
      destruct (obj_iter _ _ j sub indent) as [step|] eqn:E; [|intros _ H; discriminate].
      assert (Hrel : obj_step_rel (length l1) step' step).
      { eapply obj_iter_insert; [exact Hb| |exact Hsh|exact Hne|exact E'|exact E].
        intros s' s q v1' r1' v1 r1 Hs H1 H2.
        exact (IHl f s' s q [] v1' r1' v1 r1 Hs H1 H2). }
      destruct step' as [|k' x' j1'|j1']; destruct step as [|k x j1|j1];
        simpl in Hrel; try contradiction.
      * intros H' H; inversion H'; inversion H; subst; auto.
      * destruct Hrel as (-> & -> & Hr). intros H' H. eapply IHo; eassumption.
      * intros H' H. eapply IHo; eassumption.
Qed.

Lemma block_loop_insert (l1 l2 : list str) (b : str) (fuel' : nat) :
  is_empty (strip b) = true ->
  forall fuel i' i p res v' r' v r,
    shifted (length l1) i' i ->
    block_loop fuel' (l1 ++ b :: l2) i' p res = Some (v', r') ->
    block_loop fuel (l1 ++ l2) i p res = Some (v, r) ->
    v' = v /\ shifted (length l1) r' r.
Proof.
  intro Hb. induction fuel' as [|f' IH]; [intros; discriminate|].
  intros fuel i' i p res v' r' v r Hsh. cbn [block_loop].
  destruct (Nat.eq_dec i' (length l1)) as [->|Hne].
  - rewrite nth_error_inserted. unfold block_iter at 1.
    rewrite (blank_is_skipped b Hb). intros H' H.
    eapply IH; [|exact H'|exact H]. unfold shifted in *. lia.
  - rewrite (nth_error_shifted l1 l2 b _ _ Hsh Hne).
    destruct fuel as [|f]; [intros _ H; discriminate|]. cbn [block_loop].
    destruct (nth_error (l1 ++ l2) i) as [line|];
      [|intros H' H; inversion H'; inversion H; subst; auto].
    destruct (block_iter _ _ _ i' line p) as [step'|] eqn:E'; [|discriminate].
    destruct (block_iter _ _ _ i line p) as [step|] eqn:E; [|intros _ H; discriminate].
    assert (Hrel : block_step_rel (length l1) step' step).
    { eapply block_iter_insert; [exact Hb| | |exact Hsh|exact Hne|exact E'|exact E].
      - intros s' s q v1' r1' v1 r1 Hs H1 H2.
        exact (IH f s' s q [] v1' r1' v1 r1 Hs H1 H2).
      - intros s' s q v1' r1' v1 r1 Hs H1 H2.
        exact (proj1 (list_obj_loop_insert l1 l2 b f' Hb) f s' s q [] v1' r1' v1 r1
                 Hs H1 H2). }
    destruct step' as [|x' i1'|k' x' i1'|i1']; destruct step as [|x i1|k x i1|i1];
      simpl in Hrel; try contradiction.
    + intros H' H; inversion H'; inversion H; subst; auto.
    + intros H' H; inversion H'; inversion H; subst; auto.
    + destruct Hrel as (-> & -> & Hr). intros H' H. eapply IH; eassumption.
    + intros H' H. eapply IH; eassumption.
Qed.

(** A blank line more in the line array changes nothing but the indices
    after it. *)
Lemma parse_block_insert (l1 l2 : list str) (b : str) (p : Z) :
  is_empty (strip b) = true ->
  exists v r r',
    parse_block (l1 ++ l2) 0 p = Some (v, r)
    /\ parse_block (l1 ++ b :: l2) 0 p = Some (v, r')
    /\ shifted (length l1) r' r.
Proof.
  intro Hb. unfold parse_block.
  destruct (block_loop_total (l1 ++ l2) (parse_fuel (l1 ++ l2)) 0 p [])
    as [[v r] H]; [unfold parse_fuel; lia|].
  destruct (block_loop_total (l1 ++ b :: l2) (parse_fuel (l1 ++ b :: l2)) 0 p [])
    as [[v' r'] H']; [unfold parse_fuel; lia|].
  destruct (block_loop_insert l1 l2 b (parse_fuel (l1 ++ b :: l2)) Hb
              (parse_fuel (l1 ++ l2)) 0 0 p [] v' r' v r)
    as [-> Hr]; [unfold shifted; lia|exact H'|exact H|].
  exists v, r, r'. auto.
Qed.

Lemma split_nl_aux_app (a c : str) :
  forall cur,
    split_nl_aux cur (a ++ 10%N :: c) = split_nl_aux cur a ++ split_nl_aux [] c.
Proof.
  induction a as [|x a IH]; intro cur; simpl; [reflexivity|].
  destruct (N.eqb x 10); [now rewrite IH|apply IH].
Qed.

Lemma split_nl_app (a c : str) :
  split_nl (a ++ 10%N :: c) = split_nl a ++ split_nl c.
Proof. apply split_nl_aux_app. Qed.

Lemma split_nl_aux_line (ws : str) :
  forallb (fun c => negb (N.eqb c 10)) ws = true ->
  forall cur, split_nl_aux cur ws = [rev cur ++ ws].
Proof.
  induction ws as [|x ws IH]; intros H cur; simpl.
  - now rewrite app_nil_r.
  - simpl in H. apply andb_prop in H. destruct H as [Hx Hws].
    apply negb_true_iff in Hx. rewrite Hx, (IH Hws). simpl.
    now rewrite <- app_assoc.
Qed.

Lemma drop_while_all (p : char -> bool) (s : str) :
  forallb p s = true -> drop_while p s = [].
Proof.
  intro H. rewrite <- (app_nil_r s). now rewrite drop_while_all_app.
Qed.

(** X13: blank lines are never significant: a line of white space put in
    after any newline of a document, or in front of the document, does not
    change the tree [parse_yaml] returns. *)
Theorem blank_line_ignored (ws : str) :
  forallb (fun c => is_space c && negb (N.eqb c 10)) ws = true ->
  (forall a c, parse_yaml (a ++ 10%N :: ws ++ 10%N :: c) = parse_yaml (a ++ 10%N :: c))
  /\ (forall c, parse_yaml (ws ++ 10%N :: c) = parse_yaml c).
Proof.
  intro Hws.
  assert (Hsp : forallb is_space ws = true).
  { rewrite forallb_forall in *. intros x Hx. specialize (Hws x Hx).
    now apply andb_prop in Hws. }
  assert (Hnl : forallb (fun c => negb (N.eqb c 10)) ws = true).
  { rewrite forallb_forall in *. intros x Hx. specialize (Hws x Hx).
    now apply andb_prop in Hws. }
  assert (Hb : is_empty (strip ws) = true).
  { unfold strip, lstrip. now rewrite (drop_while_all _ _ Hsp). }
  assert (Hline : split_nl ws = [ws]) by (apply (split_nl_aux_line ws Hnl [])).
  split.
  - intros a c. unfold parse_yaml.
    change (a ++ 10%N :: ws ++ 10%N :: c) with (a ++ 10%N :: (ws ++ 10%N :: c)).
    rewrite !split_nl_app, Hline. cbn [app].
    destruct (parse_block_insert (split_nl a) (split_nl c) ws (-1) Hb)
      as (v & r & r' & -> & -> & _).
    reflexivity.
  - intro c. unfold parse_yaml. rewrite split_nl_app, Hline. cbn [app].
    destruct (parse_block_insert [] (split_nl c) ws (-1) Hb)
      as (v & r & r' & H & H' & _).
    cbn [app] in H, H'. now rewrite H, H'.
Qed.

Lemma blank_line_ignored_witness :
  (forall a c,
      parse_yaml (a ++ 10%N :: lit "   " ++ 10%N :: c) = parse_yaml (a ++ 10%N :: c))
  /\ (forall c, parse_yaml (lit "   " ++ 10%N :: c) = parse_yaml c).
Proof. apply (blank_line_ignored (lit "   ")). reflexivity. Defined.

(** ** What the page generator writes *)



Lemma startswith_app (m x : str) : startswith m (m ++ x) = true.
Proof. induction m as [|c m IH]; [reflexivity|]. simpl. now rewrite N.eqb_refl. Qed.

Lemma str_contains_app (m pre x : str) : str_contains m (pre ++ m ++ x) = true.
Proof.
  induction pre as [|c pre IH].
  - destruct m as [|d m]; [now destruct x|].
    cbn [app str_contains].
    change (d :: m ++ x) with ((d :: m) ++ x). now rewrite startswith_app.
  - cbn [app str_contains]. rewrite IH. apply orb_true_r.
Qed.

(** X15: a page whose [index.html] has the marker within its first 500
    characters is never overwritten: for a link that begins with a slash,
    [generate_page] returns [None] and its only event is the line it
    prints. *)
Theorem manual_page_untouched (REPO_ROOT : str) (path_join : str -> str -> str)
    (path_exists : str -> bool) (read_file : str -> str) (format_other : Value -> str)
    (item : dict) (template_name link pre post : str) :
  dict_get (lit "link") item = Some (VStr link) ->
  startswith (lit "/") link = true ->
  path_exists (path_join (path_join REPO_ROOT (strip_slash link)) (lit "index.html")) = true ->
  read_file (path_join (path_join REPO_ROOT (strip_slash link)) (lit "index.html"))
  = pre ++ manual_marker ++ post ->
  (length pre + length manual_marker <= 500)%nat ->
  exists msg,
    generate_page REPO_ROOT path_join path_exists read_file format_other item template_name
    = (Returned None, [EPrint msg]).
Proof.
  intros Hlink Hslash Hex Hread Hlen. unfold generate_page. rewrite Hlink.
  assert (Hne : truthy (VStr link) = true) by (destruct link; [discriminate|reflexivity]).
  rewrite Hne, Hslash. cbn [negb].
  assert (Hman : is_manually_managed path_join path_exists read_file
                   (path_join REPO_ROOT (strip_slash link)) = true).
  { unfold is_manually_managed. rewrite Hex, Hread. cbn [negb].
    rewrite app_assoc, firstn_app.
    rewrite firstn_all2 by (rewrite length_app; exact Hlen).
    rewrite <- app_assoc. apply str_contains_app. }
  rewrite Hman. now eexists.
Qed.

Lemma manual_page_untouched_witness :
  exists msg,
    generate_page (lit "r") (fun a b => a ++ 47%N :: b) (fun _ => true)
      (fun _ => lit "<html>" ++ manual_marker ++ lit "...") (fun _ => [])
      [(lit "link", VStr (lit "/x"))] (lit "case-study")
    = (Returned None, [EPrint msg]).
Proof.
  apply (manual_page_untouched (lit "r") (fun a b => a ++ 47%N :: b) (fun _ => true)
           (fun _ => lit "<html>" ++ manual_marker ++ lit "...") (fun _ => [])
           [(lit "link", VStr (lit "/x"))] (lit "case-study") (lit "/x")
           (lit "<html>") (lit "..."));
    try reflexivity.
  simpl. lia.
Defined.

Lemma replace_from_absent (old new : str) (s : str) :
  str_contains old s = false -> replace_from old new 0 s = s.
Proof.
  induction s as [|c s IH]; [reflexivity|].
  cbn [str_contains replace_from]. intro H.
  apply orb_false_elim in H. destruct H as [Hstart Hrest].
  rewrite Hstart. now rewrite IH.
Qed.

(** X16: a template that holds neither placeholder is copied as it is,
    whatever the title of the item: the content of every file a call of
    [generate_page] writes is then the template, unchanged. *)
Theorem plain_template_copied (REPO_ROOT : str) (path_join : str -> str -> str)
    (path_exists : str -> bool) (read_file : str -> str) (format_other : Value -> str)
    (item : dict) (template_name template : str) (out : outcome (option str))
    (evs : list event) :
  load_template REPO_ROOT path_join path_exists read_file template_name = Some template ->
  str_contains title_placeholder template = false ->
  str_contains description_placeholder template = false ->
  generate_page REPO_ROOT path_join path_exists read_file format_other item template_name
  = (out, evs) ->
  forall f c, In (EWrite f c) evs -> c = template.
Proof.
  intros Htpl Ht Hd. unfold generate_page. rewrite Htpl.
  unfold str_replace. fold title_placeholder.
  rewrite (replace_from_absent title_placeholder _ _ Ht).
  fold description_placeholder.
  rewrite (replace_from_absent description_placeholder _ _ Hd).
  intro H.
  repeat break_match_in H; inversion H; subst; intros file content Hin;
    simpl in Hin;
    repeat match goal with
      | Hor : _ \/ _ |- _ => destruct Hor as [Hor|Hor]
      end;
    try contradiction; try discriminate.
  now injection Hin as _ <-.
Qed.

Lemma plain_template_copied_witness :
  generate_page (lit "r") (fun a b => a ++ 47%N :: b)
    (fun f => str_eqb f (lit "r/_templates/t.html")) (fun _ => lit "<p>hello</p>")
    (fun _ => []) [(lit "link", VStr (lit "/x/")); (lit "title", VStr (lit "T"))] (lit "t")
  = (Returned (Some (lit "r/x/index.html")),
     [EMakedirs (lit "r/x"); EWrite (lit "r/x/index.html") (lit "<p>hello</p>");
      EPrint (lit "  BUILD x/index.html (from t template)")])
  /\ lit "<p>hello</p>" = lit "<p>hello</p>".
Proof.
  split; [reflexivity|].
  apply (plain_template_copied (lit "r") (fun a b => a ++ 47%N :: b)
           (fun f => str_eqb f (lit "r/_templates/t.html")) (fun _ => lit "<p>hello</p>")
           (fun _ => []) [(lit "link", VStr (lit "/x/")); (lit "title", VStr (lit "T"))]
           (lit "t") (lit "<p>hello</p>") (Returned (Some (lit "r/x/index.html")))
           [EMakedirs (lit "r/x"); EWrite (lit "r/x/index.html") (lit "<p>hello</p>");
            EPrint (lit "  BUILD x/index.html (from t template)")]
           eq_refl eq_refl eq_refl eq_refl (lit "r/x/index.html") (lit "<p>hello</p>")).
  right. left. reflexivity.
Defined.

(** ** The driver *)

Section MainProps.

Variable REPO_ROOT : str.
Variable path_join : str -> str -> str.
Variable format_other : Value -> str.
Variable fs : Type.
Variable fs_exists : fs -> str -> bool.
Variable fs_read : fs -> str -> str.
Variable fs_makedirs : fs -> str -> fs.
Variable fs_write : fs -> str -> str -> fs.

Lemma count_writes_app (a b : list event) :
  count_writes (a ++ b) = (count_writes a + count_writes b)%nat.
Proof. unfold count_writes. now rewrite filter_app, length_app. Qed.

(** What one call of [generate_page] that returns has written. *)
Lemma generate_page_returned (path_exists : str -> bool) (read_file : str -> str)
    (item : dict) (template_name : str) (result : option str) (evs : list event) :
  generate_page REPO_ROOT path_join path_exists read_file format_other item template_name
  = (Returned result, evs) ->
  match result with
  | None => count_writes evs = 0%nat
  | Some f => count_writes evs = 1%nat /\ page_of REPO_ROOT path_join item f
  end
  /\ (forall f c, In (EWrite f c) evs -> result = Some f).
Proof.
  unfold generate_page, page_of.
  destruct (dict_get (lit "link") item) as [v|].
  2:{ intro H; inversion H; subst. split; [reflexivity|intros f c []]. }
  destruct (truthy v); cbn [negb].
  2:{ intro H; inversion H; subst. split; [reflexivity|intros f c []]. }
  destruct v as [| |link| |]; try discriminate.
  destruct (startswith (lit "/") link) eqn:Hslash; cbn [negb].
  2:{ intro H; inversion H; subst. split; [reflexivity|intros f c []]. }
  destruct (is_manually_managed _ _ _ _).
  { intro H; inversion H; subst. split; [reflexivity|].
    intros f c [E|[]]. discriminate. }
  destruct (load_template _ _ _ _ _) as [[|c t]|].
  - intro H; inversion H; subst. split; [reflexivity|].
    intros f c [E|[]]. discriminate.
  - intro H; inversion H; subst. split.
    + split; [reflexivity|]. exists link. auto.
    + intros f c0 [E|[E|[E|[]]]]; try discriminate. now injection E as -> _.
  - intro H; inversion H; subst. split; [reflexivity|].
    intros f c [E|[]]. discriminate.
Qed.

Lemma generate_page_raised (path_exists : str -> bool) (read_file : str -> str)
    (item : dict) (template_name : str) (evs : list event) :
  generate_page REPO_ROOT path_join path_exists read_file format_other item template_name
  = (Raised, evs) -> evs = [].
Proof.
  unfold generate_page. intro H.
  repeat break_match_in H; inversion H; reflexivity.
Qed.

(** Every file the loop over the items writes is the page of one of the
    items, and the paths collected are as many as the files written. *)
Lemma build_items_writes (template_name : str) (items : list Value) :
  (forall a, path_join a (lit "index.html") <> []) ->
  forall st generated r st' evs,
    build_items REPO_ROOT path_join format_other fs fs_exists fs_read fs_makedirs fs_write
      template_name items st generated = (r, st', evs) ->
    (forall generated', r = Some generated' ->
       length generated' = (length generated + count_writes evs)%nat)
    /\ (forall f c, In (EWrite f c) evs ->
          exists d, In (VMap d) items /\ page_of REPO_ROOT path_join d f).
Proof.
  intro Hjoin. induction items as [|item items IH]; intros st generated r st' evs.
  - simpl. intro H; inversion H; subst. split.
    + intros g E. injection E as <-. unfold count_writes. simpl. lia.
    + intros f c [].
  - cbn [build_items].
    destruct item as [| | | |d];
      try (intro H; inversion H; subst; split; [discriminate|intros f c []]).
    destruct (generate_page _ _ _ _ _ d template_name) as [[result|] gevs] eqn:G.
    + apply generate_page_returned in G. destruct G as [Gcount Gwrite].
      destruct (build_items _ _ _ _ _ _ _ _ _ items _ _) as [[r0 st0] evs0] eqn:B.
      apply IH in B. destruct B as [Bcount Bwrite].
      intro H; inversion H; subst. split.
      * intros g E. rewrite (Bcount g E), count_writes_app.
        destruct result as [f|].
        -- destruct Gcount as (-> & link & _ & _ & ->).
           destruct (path_join _ (lit "index.html")) eqn:Ep;
             [now apply Hjoin in Ep|].
           cbn [is_empty]. rewrite length_app. simpl. lia.
        -- rewrite Gcount. lia.
      * intros f c Hin. apply in_app_or in Hin. destruct Hin as [Hin|Hin].
        -- rewrite (Gwrite f c Hin) in Gcount. destruct Gcount as (_ & Hpage).
           exists d. split; [now left|assumption].
        -- destruct (Bwrite f c Hin) as [d' [Hd' Hpage]].
           exists d'. split; [now right|assumption].
    + apply generate_page_raised in G. subst gevs.
      intro H; inversion H; subst. split; [discriminate|intros f c []].
Qed.

Lemma build_section_writes (heading template_name : str) (v : Value) :
  (forall a, path_join a (lit "index.html") <> []) ->
  forall st generated r st' evs,
    build_section REPO_ROOT path_join format_other fs fs_exists fs_read fs_makedirs fs_write
      heading template_name v st generated = (r, st', evs) ->
    (forall generated', r = Some generated' ->
       length generated' = (length generated + count_writes evs)%nat)
    /\ (forall f c, In (EWrite f c) evs ->
          exists items d,
            v = VSeq items /\ In (VMap d) items /\ page_of REPO_ROOT path_join d f).
Proof.
  intros Hjoin st generated r st' evs. unfold build_section.
  destruct (truthy v); cbn [negb].
  2:{ intro H; inversion H; subst. split.
      - intros g E. injection E as <-. unfold count_writes. simpl. lia.
      - intros f c []. }
  destruct v as [| |s|l|m];
    try (intro H; inversion H; subst; split;
         [discriminate|intros f c Hin; simpl in Hin; intuition discriminate]).
  destruct (build_items _ _ _ _ _ _ _ _ _ l st generated) as [[r0 st0] evs0] eqn:B.
  apply (build_items_writes _ _ Hjoin) in B. destruct B as [Bcount Bwrite].
  intro H; inversion H; subst. split.
  - intros g E. rewrite (Bcount g E). reflexivity.
  - intros f c [E|Hin]; [discriminate|].
    destruct (Bwrite f c Hin) as [d [Hd Hpage]]. exists l, d. auto.
Qed.

(** The value [main] reads under a key is the one of the configuration when
    it has items. *)
Lemma section_value_items (key : str) (root : dict) (items : list Value) (x : Value) :
  match dict_get key root with Some v => v | None => VSeq [] end = VSeq items ->
  In x items -> dict_get key root = Some (VSeq items).
Proof.
  destruct (dict_get key root) as [v|]; [now intros ->|].
  intro E. injection E as <-. intros [].
Qed.

(** X17: every file [main] writes is the page of an item of the parsed
    configuration: the [index.html] under the directory named by the link,
    a string beginning with a slash, of a mapping in the sequence under
    [initiatives] or under [projects]; and the count [main] prints when it
    returns is the number of files it wrote.  Joining a path with
    [index.html] is taken never to give the empty path. *)
Theorem main_writes_and_count (st st' : fs) (out : main_outcome) (evs : list event) :
  (forall a, path_join a (lit "index.html") <> []) ->
  main REPO_ROOT path_join format_other fs fs_exists fs_read fs_makedirs fs_write st
  = (out, st', evs) ->
  (forall f c, In (EWrite f c) evs ->
     exists data d,
       parse_yaml (fs_read st (path_join REPO_ROOT (lit "portfolio.yaml"))) = Some data
       /\ configured_item data d
       /\ page_of REPO_ROOT path_join d f)
  /\ (out = MainDone ->
      exists pre,
        evs = pre ++ [EPrint (lit "Generated " ++ int_str (count_writes pre)
                                ++ lit " page(s)")]).
Proof.
  intros Hjoin. unfold main.
  destruct (fs_exists st _); cbn [negb].
  2:{ intro H; inversion H; subst. split; [|discriminate].
      intros f c [E|[]]. discriminate. }
  destruct (parse_yaml _) as [data|].
  2:{ intro H; inversion H; subst. split; [intros f c []|discriminate]. }
  destruct data as [| | | |d];
    try (intro H; inversion H; subst; split;
         [intros f c Hin; simpl in Hin; intuition discriminate|discriminate]).
  destruct (build_section _ _ _ _ _ _ _ _ (lit "Initiatives") _ _ st [])
    as [[r1 st1] ev1] eqn:B1.
  apply (build_section_writes _ _ _ Hjoin) in B1. destruct B1 as [C1 W1].
  assert (Hw1 : forall f c, In (EWrite f c) ev1 ->
                  exists data d0,
                    Some (VMap d) = Some data
                    /\ configured_item data d0
                    /\ page_of REPO_ROOT path_join d0 f).
  { intros f c Hin. destruct (W1 f c Hin) as (items & d0 & Hv & Hd0 & Hpage).
    exists (VMap d), d0. split; [reflexivity|]. split; [|assumption].
    exists d, (lit "initiatives"), items. repeat split; auto.
    eapply section_value_items; eassumption. }
  destruct r1 as [g1|].
  2:{ intro H; inversion H; subst. split; [|discriminate].
      intros f c Hin. simpl in Hin.
      destruct Hin as [E|[E|Hin]]; try discriminate. eapply Hw1; eassumption. }
  destruct (build_section _ _ _ _ _ _ _ _ (lit "Projects") _ _ st1 g1)
    as [[r2 st2] ev2] eqn:B2.
  apply (build_section_writes _ _ _ Hjoin) in B2. destruct B2 as [C2 W2].
  assert (Hw : forall f c, In (EWrite f c) (ev1 ++ ev2) ->
                 exists data d0,
                   Some (VMap d) = Some data
                   /\ configured_item data d0
                   /\ page_of REPO_ROOT path_join d0 f).
  { intros f c Hin. apply in_app_or in Hin. destruct Hin as [Hin|Hin]; [eauto|].
    destruct (W2 f c Hin) as (items & d0 & Hv & Hd0 & Hpage).
    exists (VMap d), d0. split; [reflexivity|]. split; [|assumption].
    exists d, (lit "projects"), items. repeat split; auto.
    eapply section_value_items; eassumption. }
  destruct r2 as [g2|].
  2:{ intro H; inversion H; subst. split; [|discriminate].
      intros f c Hin. simpl in Hin.
      destruct Hin as [E|[E|Hin]]; try discriminate. eapply Hw; eassumption. }
  intro H; inversion H; subst. split.
  - intros f c Hin. simpl in Hin.
    destruct Hin as [E|[E|Hin]]; try discriminate.
    rewrite app_assoc in Hin. apply in_app_or in Hin. destruct Hin as [Hin|Hin].
    + eapply Hw; eassumption.
    + simpl in Hin. intuition discriminate.
  - intros _.
    set (pre := [EPrint (lit "Portfolio Build"); EPrint rule] ++ ev1 ++ ev2
                  ++ [EPrint (10%N :: rule)]).
    exists pre.
    assert (Hc : count_writes pre = length g2).
    { unfold pre. rewrite !count_writes_app, (C2 g2 eq_refl), (C1 g1 eq_refl).
      unfold count_writes. simpl. lia. }
    rewrite Hc. unfold pre. rewrite <- !app_assoc. reflexivity.
Qed.


End MainProps.

Lemma main_writes_and_count_witness :
  (forall f c, In (EWrite f c) (snd (run_main example_disk)) ->
     exists data d,
       parse_yaml (disk_read example_disk (slash_join (lit "r") (lit "portfolio.yaml")))
       = Some data
       /\ configured_item data d
       /\ page_of (lit "r") slash_join d f)
  /\ (fst (fst (run_main example_disk)) = MainDone ->
      exists pre,
        snd (run_main example_disk)
        = pre ++ [EPrint (lit "Generated " ++ int_str (count_writes pre)
                            ++ lit " page(s)")]).
Proof.
  apply (main_writes_and_count (lit "r") slash_join (fun _ => []) disk disk_exists
           disk_read (fun d _ => d) disk_write example_disk
           (snd (fst (run_main example_disk)))).
  - intros a E. destruct a; discriminate.
  - unfold run_main. now destruct (main _ _ _ _ _ _ _ _ example_disk) as [[o d] e].
Defined.


(** ** Indent *)

(** X19: the indent of a line is the number of white-space characters in
    front of its first character that is not white space. *)
Theorem get_indent_leading (ws rest : str) :
  forallb is_space ws = true ->
  lstrip rest = rest ->
  get_indent (ws ++ rest) = Z.of_nat (length ws).
Proof.
  intros Hws Hrest. unfold get_indent, lstrip in *.
  rewrite drop_while_all_app by assumption.
  rewrite Hrest, length_app. lia.
Qed.

Lemma get_indent_leading_witness :
  get_indent (lit "    " ++ lit "link: /x  ") = Z.of_nat (length (lit "    ")).
Proof. apply get_indent_leading; reflexivity. Defined.

(** ** A key and its scalar *)

Lemma strip_last (s m : str) (d : char) :
  strip s = m ++ [d] -> is_space d = false.
Proof.
  unfold strip, rstrip. intro H.
  apply (f_equal (@rev char)) in H. rewrite rev_involutive, rev_app_distr in H.
  simpl in H. eapply drop_while_head; eassumption.
Qed.

Lemma strip_tight (c : char) (m : str) (d : char) :
  is_space c = false -> is_space d = false ->
  strip (c :: m ++ [d]) = c :: m ++ [d].
Proof.
  intros Hc Hd. rewrite strip_nospace_head by assumption.
  unfold rstrip. rewrite rev_app_distr. simpl. rewrite Hd. simpl.
  now rewrite rev_involutive.
Qed.

Lemma take_while_all (p : char -> bool) (s : str) :
  forallb p s = true -> take_while p s = s.
Proof.
  induction s as [|c s IH]; [reflexivity|]. simpl. intro H.
  apply andb_prop in H. destruct H as [Hc Hs]. rewrite Hc. now rewrite IH.
Qed.

Lemma take_while_stop (p : char -> bool) (a : str) (c : char) (rest : str) :
  forallb p a = true -> p c = false -> take_while p (a ++ c :: rest) = a.
Proof.
  intros Ha Hc. induction a as [|x a IH]; simpl; [now rewrite Hc|].
  simpl in Ha. apply andb_prop in Ha. destruct Ha as [Hx Ha].
  rewrite Hx. now rewrite IH.
Qed.

Lemma drop_while_stop (p : char -> bool) (a : str) (c : char) (rest : str) :
  forallb p a = true -> p c = false -> drop_while p (a ++ c :: rest) = c :: rest.
Proof.
  intros Ha Hc. rewrite drop_while_all_app by assumption. simpl. now rewrite Hc.
Qed.

(** X20: a document that is one line, a key, a colon, a space and a value,
    parses to the mapping of that key to the value as [parse_scalar]
    resolves it, for every trimmed key without colon that does not open a
    comment or a list item and every trimmed value; the value may contain
    colons. *)
Theorem parse_yaml_key_value (key value : str) :
  key_ok key = true ->
  startswith (lit "#") key = false ->
  startswith (lit "- ") key = false ->
  forallb (fun c => negb (N.eqb c 10)) key = true ->
  value <> [] ->
  strip value = value ->
  forallb (fun c => negb (N.eqb c 10)) value = true ->
  exists v,
    parse_scalar value = Some v
    /\ parse_yaml (key ++ lit ": " ++ value) = Some (VMap [(key, v)]).
Proof.
  intros Hkey Hhash Hdash Hknl Hvne Hvstrip Hvnl.
  unfold key_ok in Hkey. apply andb_prop in Hkey. destruct Hkey as [Hkey Hkstrip].
  apply andb_prop in Hkey. destruct Hkey as [Hkne Hkcolon].
  apply str_eqb_eq in Hkstrip.
  destruct key as [|c k]; [discriminate|].
  assert (Hc : is_space c = false) by (eapply strip_head; exact Hkstrip).
  destruct (exists_last Hvne) as [m [d Hv]].
  assert (Hd : is_space d = false)
    by (apply (strip_last value m d); now rewrite Hvstrip).
  destruct value as [|c' value']; [congruence|].
  assert (Hc' : is_space c' = false) by (eapply strip_head; exact Hvstrip).
  destruct (parse_scalar_total (c' :: value')) as [v Hscalar].
  exists v. split; [assumption|].
  set (line := (c :: k) ++ lit ": " ++ c' :: value').
  assert (Hline : line = c :: (k ++ lit ": " ++ m) ++ [d]).
  { unfold line. rewrite Hv. cbn [app]. f_equal.
    rewrite <- !app_assoc. reflexivity. }
  assert (Hstrip : strip line = line)
    by (rewrite Hline; now apply strip_tight).
  assert (Hindent : get_indent line = 0).
  { unfold get_indent, lstrip, line. cbn [app drop_while]. rewrite Hc. lia. }
  assert (Hsplit : split_nl line = [line]).
  { apply (split_nl_aux_line line); unfold line.
    rewrite forallb_app. apply andb_true_intro. split; [exact Hknl|exact Hvnl]. }
  assert (Hbc : blank_or_comment line = false).
  { unfold blank_or_comment, line. cbn [app is_empty orb].
    cbn [app] in Hhash. cbn [lit map list_ascii_of_string startswith] in *.
    exact Hhash. }
  assert (Hnd : is_dash line = false).
  { unfold is_dash, line. destruct k as [|c2 k].
    - cbn. now rewrite andb_false_r.
    - exact Hdash. }
  assert (Hkv : match_kv line = Some (c :: k, c' :: value')).
  { unfold match_kv, line.
    change ((c :: k) ++ lit ": " ++ c' :: value')
      with ((c :: k) ++ 58%N :: 32%N :: c' :: value').
    rewrite (take_while_stop _ (c :: k) 58%N _ Hkcolon eq_refl).
    rewrite (drop_while_stop _ (c :: k) 58%N _ Hkcolon eq_refl).
    cbn [drop_while]. change (is_space 32%N) with true. cbn iota.
    cbn [drop_while]. rewrite Hc'.
    repeat f_equal. apply take_while_all. exact Hvnl. }
  unfold parse_yaml, parse_block, parse_fuel. rewrite Hsplit.
  cbn [length Nat.add block_loop nth_error].
  unfold block_iter. rewrite Hstrip, Hbc, Hindent, Hnd, Hkv, Hkstrip, Hvstrip.
  cbn [is_empty Z.leb Z.compare]. rewrite Hscalar. reflexivity.
Qed.

Lemma parse_yaml_key_value_witness :
  exists v,
    parse_scalar (lit "https://example.org/a") = Some v
    /\ parse_yaml (lit "home page" ++ lit ": " ++ lit "https://example.org/a")
       = Some (VMap [(lit "home page", v)]).
Proof.
  apply parse_yaml_key_value; try reflexivity. discriminate.
Defined.

(** * Within the recursion limit *)

(** ** The fuel of [parse_yaml] is enough under the limit too *)

Section IterWithCongr.

Variable scalar : str -> option Value.
Variables call_block call_block' : nat -> Z -> option (Value * nat).
Variables call_list call_list' : nat -> Z -> option (Value * nat).
Variables call_obj call_obj' : nat -> Z -> dict -> option (dict * nat).
Variable lines : list str.

Lemma obj_iter_with_congr (j : nat) (sub : str) (indent : Z) :
  (forall s p, (j < s)%nat -> call_list s p = call_list' s p) ->
  obj_iter_with scalar call_list lines j sub indent
  = obj_iter_with scalar call_list' lines j sub indent.
Proof.
  intro Hlist. unfold obj_iter_with.
  pose proof (skip_blank_ge lines (j + 1)) as Hskip.
  repeat break_match_goal; try reflexivity.
  rewrite Hlist by lia. reflexivity.
Qed.

Lemma list_iter_with_congr (i : nat) (line : str) (list_indent : Z) :
  (forall p o, call_obj (i + 1)%nat p o = call_obj' (i + 1)%nat p o) ->
  list_iter_with scalar call_obj i line list_indent
  = list_iter_with scalar call_obj' i line list_indent.
Proof.
  intro Hobj. unfold list_iter_with, bind.
  repeat break_match_goal; try reflexivity; try congruence;
    rewrite Hobj in *; congruence.
Qed.

Lemma block_iter_with_congr (i : nat) (line : str) (parent_indent : Z) :
  (forall s p, (i < s)%nat -> call_block s p = call_block' s p) ->
  (forall s p, (i <= s)%nat -> call_list s p = call_list' s p) ->
  block_iter_with scalar call_block call_list lines i line parent_indent
  = block_iter_with scalar call_block' call_list' lines i line parent_indent.
Proof.
  intros Hblock Hlist. unfold block_iter_with, child_value.
  pose proof (skip_blank_ge lines (i + 1)) as Hskip.
  destruct (blank_or_comment (strip line)); [reflexivity|].
  destruct (get_indent line <=? parent_indent); [reflexivity|].
  destruct (is_dash (strip line)).
  { rewrite Hlist by lia. reflexivity. }
  destruct (match_kv (strip line)) as [[g1 g2]|]; [|reflexivity].
  destruct (is_empty (strip g2)); [|reflexivity].
  destruct (nth_error lines (skip_blank lines (i + 1))) as [nline|]; [|reflexivity].
  destruct (get_indent nline >? get_indent line); [|reflexivity].
  destruct (is_dash (strip nline)).
  - rewrite Hlist by lia. reflexivity.
  - rewrite Hblock by lia. reflexivity.
Qed.

End IterWithCongr.

Lemma list_obj_loop_limited_fuel (lines : list str) (fuel : nat) :
  (forall frames i p res, (length lines - i < fuel)%nat ->
      list_loop_limited (S fuel) frames lines i p res
      = list_loop_limited fuel frames lines i p res)
  /\ (forall frames j p obj, (length lines - j < fuel)%nat ->
      obj_loop_limited (S fuel) frames lines j p obj
      = obj_loop_limited fuel frames lines j p obj).
Proof.
  induction fuel as [|f [IHl IHo]]; [split; intros; lia|].
  split.
  - intros frames i p res Hf.
    change (list_loop_limited (S (S f)) frames lines i p res)
      with (match nth_error lines i with
            | None => Some (VSeq res, i)
            | Some line =>
                match list_iter_with (parse_scalar_fuel frames)
                        (fun j ind obj => obj_loop_limited (S f) frames lines j ind obj)
                        i line p with
                | None => None
                | Some LBreak => Some (VSeq res, i)
                | Some (LAppend v i') =>
                    list_loop_limited (S f) frames lines i' p (res ++ [v])
                | Some (LSkip i') => list_loop_limited (S f) frames lines i' p res
                end
            end).
    cbn [list_loop_limited].
    destruct (nth_error lines i) as [line|] eqn:Hline; [|reflexivity].
    assert (Hi : (i < length lines)%nat) by (apply nth_error_Some; congruence).
    rewrite (list_iter_with_congr _ _
               (fun j ind obj => obj_loop_limited f frames lines j ind obj))
      by (intros; apply IHo; lia).
    destruct (list_iter_with _ _ i line p) as [step|] eqn:E; [|reflexivity].
    apply list_iter_limited_advances in E.
    destruct step; simpl in E; [reflexivity| |]; apply IHl; lia.
  - intros frames j p obj Hf.
    change (obj_loop_limited (S (S f)) frames lines j p obj)
      with (match nth_error lines j with
            | None => Some (obj, j)
            | Some sub =>
                match obj_iter_with (parse_scalar_fuel frames)
                        (fun s q =>
                           call_with frames
                             (fun d => list_loop_limited (S f) d lines s q []))
                        lines j sub p with
                | None => None
                | Some OBreak => Some (obj, j)
                | Some (OAssign k v j') =>
                    obj_loop_limited (S f) frames lines j' p (dict_set k v obj)
                | Some (OSkip j') => obj_loop_limited (S f) frames lines j' p obj
                end
            end).
    cbn [obj_loop_limited].
    destruct (nth_error lines j) as [sub|] eqn:Hline; [|reflexivity].
    assert (Hj : (j < length lines)%nat) by (apply nth_error_Some; congruence).
    rewrite (obj_iter_with_congr _ _
               (fun s q => call_with frames (fun d => list_loop_limited f d lines s q [])))
      by (intros s q Hs; destruct frames as [|d]; [reflexivity|]; simpl; apply IHl; lia).
    destruct (obj_iter_with _ _ lines j sub p) as [step|] eqn:E; [|reflexivity].
    apply obj_iter_limited_advances in E.
    destruct step; simpl in E; [reflexivity| |]; apply IHo; lia.
Qed.

Lemma block_loop_limited_fuel_step (lines : list str) (fuel : nat) :
  forall frames i p res, (length lines - i + 1 < fuel)%nat ->
    block_loop_limited (S fuel) frames lines i p res
    = block_loop_limited fuel frames lines i p res.
Proof.
  induction fuel as [|f IH]; intros frames i p res Hf; [lia|].
  change (block_loop_limited (S (S f)) frames lines i p res)
    with (match nth_error lines i with
          | None => Some (VMap res, i)
          | Some line =>
              match block_iter_with (parse_scalar_fuel frames)
                      (fun s q =>
                         call_with frames (fun d => block_loop_limited (S f) d lines s q []))
                      (fun s q =>
                         call_with frames (fun d => list_loop_limited (S f) d lines s q []))
                      lines i line p with
              | None => None
              | Some BBreak => Some (VMap res, i)
              | Some (BReturn lst i') => Some (lst, i')
              | Some (BAssign k v i') =>
                  block_loop_limited (S f) frames lines i' p (dict_set k v res)
              | Some (BSkip i') => block_loop_limited (S f) frames lines i' p res
              end
          end).
  cbn [block_loop_limited].
  destruct (nth_error lines i) as [line|] eqn:Hline; [|reflexivity].
  assert (Hi : (i < length lines)%nat) by (apply nth_error_Some; congruence).
  rewrite (block_iter_with_congr _ _
             (fun s q => call_with frames (fun d => block_loop_limited f d lines s q []))
             _
             (fun s q => call_with frames (fun d => list_loop_limited f d lines s q []))).
  - destruct (block_iter_with _ _ _ lines i line p) as [step|] eqn:E; [|reflexivity].
    apply (block_iter_limited_advances _ _ _ _ _ _ _ Hline) in E.
    destruct step; simpl in E; [reflexivity|reflexivity| |]; apply IH; lia.
  - intros s q Hs. destruct frames as [|d]; [reflexivity|]. simpl. apply IH. lia.
  - intros s q Hs. destruct frames as [|d]; [reflexivity|]. simpl.
    apply (list_obj_loop_limited_fuel lines f). lia.
Qed.

Lemma block_loop_limited_fuel (lines : list str) (fuel frames i : nat) (p : Z)
    (res : dict) :
  (parse_fuel lines <= fuel)%nat ->
  block_loop_limited fuel frames lines i p res
  = block_loop_limited (parse_fuel lines) frames lines i p res.
Proof.
  intro Hle. induction Hle as [|fuel Hle IH]; [reflexivity|].
  rewrite <- IH. apply block_loop_limited_fuel_step. unfold parse_fuel in Hle. lia.
Qed.

(** ** Keys nested beyond the limit *)

Lemma key_line_strip (k : nat) : strip (key_line k) = lit "k:".
Proof.
  unfold key_line, strip, lstrip.
  rewrite drop_while_all_app; [reflexivity|].
  induction k as [|k IH]; [reflexivity|exact IH].
Qed.

Lemma key_line_indent (k : nat) : get_indent (key_line k) = Z.of_nat k.
Proof.
  unfold get_indent, lstrip, key_line.
  rewrite drop_while_all_app by (induction k as [|k IH]; [reflexivity|exact IH]).
  rewrite length_app, repeat_length. simpl. lia.
Qed.

Lemma key_line_one_line (k : nat) : split_nl (key_line k) = [key_line k].
Proof.
  apply (split_nl_aux_line (key_line k)). unfold key_line.
  rewrite forallb_app. apply andb_true_intro. split; [|reflexivity].
  induction k as [|k IH]; [reflexivity|exact IH].
Qed.

Lemma nested_keys_lines (n : nat) :
  forall k, split_nl (nested_keys_from k n) = map key_line (seq k n) ++ [[]].
Proof.
  induction n as [|n IH]; intro k; [reflexivity|].
  cbn [nested_keys_from seq map]. rewrite split_nl_app, key_line_one_line, IH.
  reflexivity.
Qed.

Lemma nested_keys_nth (n : nat) (tail : list str) :
  forall k i, (i < n)%nat ->
    nth_error (map key_line (seq k n) ++ tail) i = Some (key_line (k + i)).
Proof.
  induction n as [|n IH]; intros k i Hi; [lia|].
  destruct i as [|i]; cbn [seq map app nth_error].
  - now rewrite Nat.add_0_r.
  - rewrite IH by lia. f_equal. f_equal. lia.
Qed.

(** An iteration of the block loop at one of the nested keys calls
    [_parse_block] for the key below. *)
Lemma block_iter_with_key_line (scalar : str -> option Value)
    (call_block call_list : nat -> Z -> option (Value * nat)) (lines : list str)
    (i : nat) (p : Z) :
  nth_error lines (i + 1) = Some (key_line (i + 1)) ->
  p < Z.of_nat i ->
  block_iter_with scalar call_block call_list lines i (key_line i) p
  = ('(v, i') <- call_block (i + 1)%nat (Z.of_nat i) ;; Some (BAssign (lit "k") v i')).
Proof.
  intros Hnext Hp. unfold block_iter_with, child_value.
  rewrite key_line_strip, key_line_indent.
  replace (Z.of_nat i <=? p) with false by (symmetry; apply Z.leb_gt; lia).
  assert (Hskip : skip_blank lines (i + 1) = (i + 1)%nat).
  { apply Nat.le_antisymm; [|apply skip_blank_ge].
    eapply skip_blank_content; [exact Hnext| |apply Nat.le_refl].
    now rewrite key_line_strip. }
  change (blank_or_comment (lit "k:")) with false.
  change (is_dash (lit "k:")) with false.
  change (match_kv (lit "k:")) with (Some (lit "k", @nil char)).
  cbv iota. change (is_empty (strip [])) with true. cbv iota.
  rewrite Hskip, Hnext, key_line_strip, key_line_indent.
  replace (Z.of_nat (i + 1) >? Z.of_nat i) with true by (symmetry; apply Z.gtb_lt; lia).
  reflexivity.
Qed.

Lemma nested_block_raises (n : nat) (tail : list str) (frames : nat) :
  forall fuel i p res,
    (frames + i + 1 < n)%nat -> p < Z.of_nat i ->
    block_loop_limited fuel frames (map key_line (seq 0 n) ++ tail) i p res = None.
Proof.
  induction frames as [|d IH]; intros fuel i p res Hn Hp;
    (destruct fuel as [|f]; [reflexivity|]);
    cbn [block_loop_limited];
    rewrite (nested_keys_nth n tail 0 i) by lia; cbn [Nat.add];
    rewrite block_iter_with_key_line
      by (try assumption; rewrite (nested_keys_nth n tail 0 (i + 1)) by lia; reflexivity).
  - reflexivity.
  - cbn [call_with]. rewrite IH by lia. reflexivity.
Qed.

(** With as many frames as the document has nested keys, the parser
    raises. *)
Lemma nested_keys_raise (n : nat) : parse_yaml_limited n (nested_keys n) = Raised.
Proof.
  unfold parse_yaml_limited, nested_keys. rewrite nested_keys_lines.
  destruct n as [|[|d]]; try reflexivity. cbn [call_with].
  rewrite nested_block_raises by lia. reflexivity.
Qed.

(** ** One forward pass, within the recursion limit *)

(** C4 (as amended): [parse_yaml] runs as a single forward pass and raises
    no error of its own, whatever the text; it returns a tree unless the
    nesting of the text exhausts the recursion limit, in which case the run
    ends in [RecursionError].  A tree returned with [frames] calls left is
    the tree of [parse_yaml], a mapping or a sequence; frames beyond the
    number of lines plus twice the length of the longest line plus 100 always
    suffice; more frames never change a returned tree; the fuel of
    [parse_yaml] is as good as any larger one, so that no result means the
    frames ran out; every iteration of the three loops that does not leave
    its loop continues at a later line, a nested call included; and every
    call of a loop returns an index at or after the one it was entered
    at. *)
Theorem parse_yaml_limited_forward_pass :
  (forall frames text v,
      parse_yaml_limited frames text = Returned v ->
      parse_yaml text = Some v /\ (is_map v \/ is_seq v))
  /\ (forall frames text,
        (length (split_nl text) + 2 * longest (split_nl text) + 100 <= frames)%nat ->
        exists v, parse_yaml_limited frames text = Returned v)
  /\ (forall frames frames' text v,
        (frames <= frames')%nat ->
        parse_yaml_limited frames text = Returned v ->
        parse_yaml_limited frames' text = Returned v)
  /\ (forall lines fuel frames i p res,
        (parse_fuel lines <= fuel)%nat ->
        block_loop_limited fuel frames lines i p res
        = block_loop_limited (parse_fuel lines) frames lines i p res)
  /\ (forall lines fuel frames i line p step,
        nth_error lines i = Some line ->
        block_iter_with (parse_scalar_fuel frames)
          (fun s q => call_with frames (fun d => block_loop_limited fuel d lines s q []))
          (fun s q => call_with frames (fun d => list_loop_limited fuel d lines s q []))
          lines i line p = Some step ->
        block_advances i step)
  /\ (forall lines fuel frames i line p step,
        list_iter_with (parse_scalar_fuel frames)
          (fun j ind obj => obj_loop_limited fuel frames lines j ind obj) i line p
        = Some step ->
        list_advances i step)
  /\ (forall lines fuel frames j sub p step,
        obj_iter_with (parse_scalar_fuel frames)
          (fun s q => call_with frames (fun d => list_loop_limited fuel d lines s q []))
          lines j sub p = Some step ->
        obj_advances j step)
  /\ (forall lines fuel frames i p res v i',
        block_loop_limited fuel frames lines i p res = Some (v, i') -> (i <= i')%nat)
  /\ (forall lines fuel frames i p res v i',
        list_loop_limited fuel frames lines i p res = Some (v, i') -> (i <= i')%nat)
  /\ (forall lines fuel frames j p obj obj' j',
        obj_loop_limited fuel frames lines j p obj = Some (obj', j') -> (j <= j')%nat).
Proof.
  split; [exact parse_yaml_limited_sound|].
  split; [exact parse_yaml_limited_total|].
  split; [exact parse_yaml_limited_mono|].
  split; [exact block_loop_limited_fuel|].
  split; [exact block_iter_limited_advances|].
  split; [exact list_iter_limited_advances|].
  split; [exact obj_iter_limited_advances|].
  split.
  { intros lines fuel frames i p res v i' H.
    apply block_loop_limited_sound in H. now apply block_loop_ge in H. }
  split.
  { intros lines fuel frames i p res v i' H.
    apply (list_obj_loop_limited_sound lines fuel) in H. now apply list_loop_ge in H. }
  intros lines fuel frames j p obj obj' j' H.
  apply (list_obj_loop_limited_sound lines fuel) in H. now apply obj_loop_ge in H.
Qed.

(** C4 fails as stated: with 1000 calls left, the whole of the interpreter's
    default limit, a document of 1000 keys, each nested in the one before,
    is not parsed: the run ends in [RecursionError].  The same in small:
    three nested keys take four frames. *)
Lemma parse_yaml_deep_nesting_raises :
  parse_yaml_limited 1000 (nested_keys 1000) = Raised
  /\ parse_yaml_limited 3 (nested_keys 3) = Raised
  /\ parse_yaml_limited 4 (nested_keys 3)
     = Returned (VMap [(lit "k", VMap [(lit "k", VMap [(lit "k", VStr [])])])]).
Proof.
  split; [exact (nested_keys_raise 1000)|]. split; reflexivity.
Qed.
